(** * Client-side controller of the showcase page (js/main.js)

    A shallow embedding of the parts of [js/main.js] that the page's
    behavioural specification talks about: the [Utils] helpers, the
    entrance-animation bookkeeping of [AnimationManager], the category and
    filter switches of [SkillsManager] and [ProjectsManager], and the
    validation / submission pipeline of [ContactFormManager]; then the
    [debounce] and [throttle] wrappers, the mobile menu and the active
    link of [NavigationManager], the tooltips of the tech stack and the
    first-interaction metric of [PerformanceMonitor], each as a state
    machine driven by the events the browser delivers.

    Conventions of the embedding.
    - A JavaScript string is a [string]; [null] and [undefined] results of
      DOM look-ups are [None] of an [option].
    - A DOM element is a record of the properties the script reads or
      writes; element references are indices or identifiers into the
      modelled document.
    - [setTimeout] / [setInterval] callbacks are data: a call that schedules
      a callback returns (or logs) the delay together with the action.
    - An [async] function is split at its [await]: the part that runs
      synchronously, and the continuation run when the awaited promise
      settles.
    - Style properties, [innerHTML] and [textContent] are string
      properties.  Where the script assigns constants and strings it has
      read from the same property, what is assigned is what is read back.
      Where it assigns strings from the page or computed ones, the browser
      decides what is kept: a style declaration drops a string that is no
      value of the property ([NavigationManager.assign_transform],
      [SkillsManager.reveal_bar]), and [innerHTML] reads back the
      serialisation of what the assigned markup was parsed into
      ([InnerHTML]).  What belongs to the browser and cannot be read off
      the script is a parameter of the definitions that depend on it.
    - Timeouts are never cancelled by the managers.  A statement about the
      state once the timeouts of a call have fired ([settled]) is about a
      page on which no timeout of an earlier call is pending;
      [GalleryClock] keeps the pending timeouts and the clock.
    - Numbers are integers, or exact rationals where the script divides;
      [NaN] is [None].
    - The markup of the page is not part of the script.  Elements the
      script guards against ([getElementById] results it tests, optional
      chaining) are optional in the model; the ones it dereferences
      unconditionally are taken to exist. *)

From Stdlib Require Import Ascii QArith Qround Lqa.
From stdpp Require Import gmap strings list fin_maps pretty.

Local Open Scope Z_scope.

(* ===================================================================== *)
(** * The JavaScript built-ins used by the script                         *)
(* ===================================================================== *)

Module JS.

(** ** Characters and strings *)

Definition dquote : string := String "034"%char EmptyString.
Definition newline : string := String "010"%char EmptyString.

(** [\s] of a regular expression, which is also what [String.prototype.trim]
    strips: white space and line terminators.  Within the 8-bit characters
    of [ascii] these are TAB, LF, VT, FF, CR, SPACE and NBSP. *)
Definition is_space (c : ascii) : bool :=
  let n := nat_of_ascii c in
  bool_decide (n = 9 ∨ n = 10 ∨ n = 11 ∨ n = 12 ∨ n = 13 ∨ n = 32 ∨ n = 160)%nat.

Definition ascii_eqb (a b : ascii) : bool := bool_decide (a = b).

Fixpoint all_chars (p : ascii → bool) (s : string) : bool :=
  match s with
  | EmptyString => true
  | String c s' => p c && all_chars p s'
  end.

Fixpoint trimStart (s : string) : string :=
  match s with
  | EmptyString => EmptyString
  | String c s' => if is_space c then trimStart s' else s
  end.

Definition trimEnd (s : string) : string :=
  String.rev (trimStart (String.rev s)).

(** [s.trim()] *)
Definition trim (s : string) : string := trimEnd (trimStart s).

(** Truthiness of a string: every string but the empty one. *)
Definition truthy (s : string) : bool :=
  match s with EmptyString => false | _ => true end.

(** [a || b] where [a] may be [undefined]/[null] and [b] is a string. *)
Definition or_else (a : option string) (b : string) : string :=
  match a with
  | Some s => if truthy s then s else b
  | None => b
  end.

(** [a || b] where both may be [undefined]. *)
Definition or_opt (a b : option string) : option string :=
  match a with
  | Some s => if truthy s then a else b
  | None => b
  end.

Fixpoint startsWith (p s : string) : bool :=
  match p, s with
  | EmptyString, _ => true
  | String a p', String b s' => ascii_eqb a b && startsWith p' s'
  | String _ _, EmptyString => false
  end.

(** [s.includes(p)]: [p] occurs in [s] as a contiguous substring. *)
Fixpoint includes (s p : string) : bool :=
  startsWith p s ||
  match s with
  | EmptyString => false
  | String _ s' => includes s' p
  end.

(** [s.replace(c, '')] with a one-character string pattern: only the first
    occurrence is removed. *)
Fixpoint remove_first (c : ascii) (s : string) : string :=
  match s with
  | EmptyString => EmptyString
  | String a s' => if ascii_eqb a c then s' else String a (remove_first c s')
  end.

(** ** Regular expressions

    The fragment needed for the literal in [Utils.isValidEmail]: character
    classes, concatenation and [+], matched against a whole string (the
    literal is anchored with [^] and [$]).  Matching is by derivatives. *)

Inductive regex : Type :=
  | Void : regex                         (* matches nothing *)
  | Eps : regex                          (* matches the empty string *)
  | Class : (ascii → bool) → regex       (* one character of a class *)
  | Seq : regex → regex → regex
  | Alt : regex → regex → regex
  | Star : regex → regex.

Definition Plus (r : regex) : regex := Seq r (Star r).
Definition Chr (c : ascii) : regex := Class (ascii_eqb c).

Fixpoint nullable (r : regex) : bool :=
  match r with
  | Void => false
  | Eps => true
  | Class _ => false
  | Seq a b => nullable a && nullable b
  | Alt a b => nullable a || nullable b
  | Star _ => true
  end.

Fixpoint deriv (c : ascii) (r : regex) : regex :=
  match r with
  | Void => Void
  | Eps => Void
  | Class p => if p c then Eps else Void
  | Seq a b =>
      if nullable a then Alt (Seq (deriv c a) b) (deriv c b)
      else Seq (deriv c a) b
  | Alt a b => Alt (deriv c a) (deriv c b)
  | Star a => Seq (deriv c a) (Star a)
  end.

(** [/^r$/.test(s)] *)
Fixpoint test (r : regex) (s : string) : bool :=
  match s with
  | EmptyString => nullable r
  | String c s' => test (deriv c r) s'
  end.

(** The language of a regular expression, as a relation. *)
Inductive lang : regex → string → Prop :=
  | lang_eps : lang Eps EmptyString
  | lang_class p c : p c = true → lang (Class p) (String c EmptyString)
  | lang_seq a b s t : lang a s → lang b t → lang (Seq a b) (s +:+ t)
  | lang_alt_l a b s : lang a s → lang (Alt a b) s
  | lang_alt_r a b s : lang b s → lang (Alt a b) s
  | lang_star_nil a : lang (Star a) EmptyString
  | lang_star_cons a s t :
      lang a s → lang (Star a) t → lang (Star a) (s +:+ t).

(** ** Numbers

    [parseInt(s)] without a radix argument: leading white space is skipped,
    an optional sign is read, a [0x]/[0X] prefix selects radix 16, and the
    longest prefix of digits is converted.  [None] stands for [NaN].  The
    result is an integer; the loss of precision of doubles above [2^53] is
    not modelled. *)

Definition digit_value (c : ascii) : option Z :=
  let n := Z.of_nat (nat_of_ascii c) in
  if bool_decide (48 ≤ n ≤ 57) then Some (n - 48)
  else if bool_decide (97 ≤ n ≤ 102) then Some (n - 87)
  else if bool_decide (65 ≤ n ≤ 70) then Some (n - 55)
  else None.

Definition digit_in (radix : Z) (c : ascii) : option Z :=
  match digit_value c with
  | Some d => if bool_decide (d < radix) then Some d else None
  | None => None
  end.

(** Reads the longest prefix of digits; [acc] is [None] until a digit has
    been seen. *)
Fixpoint read_digits (radix : Z) (acc : option Z) (s : string) : option Z :=
  match s with
  | EmptyString => acc
  | String c s' =>
      match digit_in radix c with
      | Some d => read_digits radix (Some (default 0 acc * radix + d)) s'
      | None => acc
      end
  end.

Definition strip_sign (s : string) : Z * string :=
  match s with
  | String "-" s' => (-1, s')
  | String "+" s' => (1, s')
  | _ => (1, s)
  end.

Definition strip_radix (s : string) : Z * string :=
  match s with
  | String "0" (String "x" s') => (16, s')
  | String "0" (String "X" s') => (16, s')
  | _ => (10, s)
  end.

Definition parseInt (s : string) : option Z :=
  let '(sign, s1) := strip_sign (trimStart s) in
  let '(radix, s2) := strip_radix s1 in
  (λ n, sign * n) <$> read_digits radix None s2.

(** [String(n)] for an integer [n] (decimal digits, with a leading minus
    sign when negative; the exponent notation of magnitudes from [1e21] on
    is not modelled). *)
Definition number_to_string (n : Z) : string := pretty n.

End JS.

(* ===================================================================== *)
(** * [Utils]                                                             *)
(* ===================================================================== *)

Module Utils.

(** ** [animateCounter]

    JavaScript numbers are modelled by exact rationals: [start] and
    [target] are integers and [duration / 16] is [125] for the duration the
    page uses, so the quotient and the running sums are the quantities the
    source computes, without the rounding of doubles.  The two agree
    where every number involved is a whole number within [2^53] (a zero
    increment among them); elsewhere the sums of the source are rounded
    and the firing on which the target is reached can differ, and a
    duration of zero, where the source divides by zero, is outside the
    model.

    The closure created by [animateCounter] owns [increment], [current] and
    the interval handle [timer]; [timer_active] is [true] from [setInterval]
    until [clearInterval]. *)

Record CounterAnimation : Type := {
  textContent : string;     (* element.textContent *)
  target : Z;
  increment : Q;
  current : Q;
  timer_active : bool
}.

Definition Qltb (a b : Q) : bool :=
  match (a ?= b)%Q with Lt => true | _ => false end.

Definition Qleb (a b : Q) : bool :=
  match (a ?= b)%Q with Gt => false | _ => true end.

(** The body of [animateCounter] up to and including [setInterval]. *)
Definition animateCounter (element_text : string) (target : Z) (duration : Q)
  : CounterAnimation :=
  let start := default 0 (JS.parseInt element_text) in
  let increment := ((inject_Z target - inject_Z start) / (duration / 16))%Q in
  {| textContent := element_text;
     target := target;
     increment := increment;
     current := inject_Z start;
     timer_active := true |}.

(** One firing of the interval callback, 16ms after the previous one.  A
    cleared interval does not fire. *)
Definition tick (a : CounterAnimation) : CounterAnimation :=
  if timer_active a then
    let current1 := (current a + increment a)%Q in
    let reached :=
      (Qltb 0 (increment a) && Qleb (inject_Z (target a)) current1) ||
      (Qltb (increment a) 0 && Qleb current1 (inject_Z (target a))) in
    let current2 := if reached then inject_Z (target a) else current1 in
    {| textContent := JS.number_to_string (Qfloor current2);
       target := target a;
       increment := increment a;
       current := current2;
       timer_active := negb reached |}
  else a.

(** [n] firings of the interval. *)
Fixpoint ticks (n : nat) (a : CounterAnimation) : CounterAnimation :=
  match n with
  | O => a
  | S n' => ticks n' (tick a)
  end.

(** [CONFIG.animations.counterSpeed], the duration [setupCounters] passes,
    which is also the default of the parameter. *)
Definition counterSpeed : Q := 2000.

(** ** [isValidEmail] *)

Definition not_space_or_at (c : ascii) : bool :=
  negb (JS.is_space c) && negb (JS.ascii_eqb c "@").

(** [/^[^\s@]+@[^\s@]+\.[^\s@]+$/] *)
Definition emailRegex : JS.regex :=
  JS.Seq (JS.Plus (JS.Class not_space_or_at))
    (JS.Seq (JS.Chr "@")
       (JS.Seq (JS.Plus (JS.Class not_space_or_at))
          (JS.Seq (JS.Chr ".")
             (JS.Plus (JS.Class not_space_or_at))))).

Definition isValidEmail (email : string) : bool := JS.test emailRegex email.

(** The pattern in words: a non-empty run of characters other than white
    space and [@], then [@], a second such run, a dot, and a third. *)
Definition word (s : string) : Prop :=
  s ≠ "" ∧ JS.all_chars not_space_or_at s = true.

Definition email_shape (s : string) : Prop :=
  ∃ l d t, s = l +:+ "@" +:+ d +:+ "." +:+ t ∧ word l ∧ word d ∧ word t.

(** ** [showLoading] / [hideLoading] *)

(** The properties of a control that the two helpers touch. *)
Record Control : Type := {
  innerHTML : string;
  disabled : bool
}.

(** The template literal of [showLoading], line breaks and indentation
    included. *)
Definition spinner_markup (text : string) : string :=
  JS.newline +:+
  "            <i class=" +:+ JS.dquote +:+ "fas fa-spinner fa-spin" +:+ JS.dquote +:+
  " aria-hidden=" +:+ JS.dquote +:+ "true" +:+ JS.dquote +:+ "></i>" +:+ JS.newline +:+
  "            <span>" +:+ text +:+ "</span>" +:+ JS.newline +:+
  "        ".

(** Returns the mutated element together with the returned
    [originalContent]. *)
Definition showLoading (element : Control) (text : string) : Control * string :=
  let originalContent := innerHTML element in
  ({| innerHTML := spinner_markup text; disabled := true |}, originalContent).

Definition hideLoading (element : Control) (originalContent : string) : Control :=
  {| innerHTML := originalContent; disabled := false |}.

End Utils.

(* ===================================================================== *)
(** * Timers                                                              *)
(* ===================================================================== *)

Module Timers.

(** A pending [setTimeout]: the delay in milliseconds and the callback,
    kept as data of a type [C] chosen by each controller. *)
Definition timeout (C : Type) : Type := (Z * C)%type.

(** Inserts after every timer that is due no later, which is the order in
    which the event loop fires timers registered at the same instant. *)
Fixpoint insert_due {C : Type} (t : timeout C) (q : list (timeout C))
  : list (timeout C) :=
  match q with
  | [] => [t]
  | u :: q' => if bool_decide (u.1 ≤ t.1) then u :: insert_due t q' else t :: q
  end.

Definition firing_order {C : Type} (q : list (timeout C)) : list (timeout C) :=
  foldl (λ acc t, insert_due t acc) [] q.

(** Fires every pending timer, in firing order. *)
Definition run_all {C S : Type} (run : C → S → S) (q : list (timeout C)) (s : S) : S :=
  foldl (λ s t, run t.2 s) s (firing_order q).

End Timers.

(** [classList.toggle(token, force)] *)
Definition classList_toggle (token : string) (force : bool) (cl : gset string)
  : gset string :=
  if force then {[ token ]} ∪ cl else cl ∖ {[ token ]}.

(* ===================================================================== *)
(** * [AnimationManager]: entrance animations                             *)
(* ===================================================================== *)

Module AnimationManager.

(** DOM nodes are referred to by identity. *)
Definition node : Type := positive.

Record Element : Type := {
  data_aos : option string;
  data_aos_delay : option string;
  data_width : option string;
  classList : gset string;
  style_transform : string;
  style_opacity : string;
  style_animation : string;
  style_width : string
}.

(** An [IntersectionObserverEntry]. *)
Record Entry : Type := {
  isIntersecting : bool;
  entry_target : node
}.

(** The callbacks handed to [setTimeout]; each closure is represented by
    the values it captured. *)
Inductive Callback : Type :=
  | Reveal (element : node) (animationType : option string)
  | SetWidth (element : node) (width : option string).

Record State : Type := {
  animatedElements : gset node;
  countersAnimated : gset node;    (* kept by [setupCounters] *)
  document : gmap node Element;
  (** pending timeouts in the order of the [setTimeout] calls; the delay is
      [None] when [parseInt] produced [NaN] *)
  timeouts : list (option Z * Callback)
}.

(** The constructor on a given document. *)
Definition new (doc : gmap node Element) : State :=
  {| animatedElements := ∅; countersAnimated := ∅;
     document := doc; timeouts := [] |}.

Definition getAttribute {A} (attr : Element → option A) (n : node) (s : State)
  : option A :=
  e ← document s !! n; attr e.

Definition setTimeout (cb : Callback) (delay : option Z) (s : State) : State :=
  {| animatedElements := animatedElements s;
     countersAnimated := countersAnimated s;
     document := document s;
     timeouts := timeouts s ++ [(delay, cb)] |}.

Definition animatedElements_add (n : node) (s : State) : State :=
  {| animatedElements := {[ n ]} ∪ animatedElements s;
     countersAnimated := countersAnimated s;
     document := document s;
     timeouts := timeouts s |}.

(** [animateElement]: reads the two attributes and defers the reveal.
    [getAttribute('data-aos-delay') || 0] falls back to the number [0],
    which [parseInt] turns into [0]. *)
Definition animateElement (element : node) (s : State) : State :=
  let animationType := getAttribute data_aos element s in
  let delay :=
    match getAttribute data_aos_delay element s with
    | Some d => if JS.truthy d then JS.parseInt d else Some 0
    | None => Some 0
    end in
  setTimeout (Reveal element animationType) delay s.

(** The body of the [forEach] in the observer callback of
    [setupScrollAnimations]. *)
Definition scrollEntry (entry : Entry) (s : State) : State :=
  if isIntersecting entry &&
     negb (bool_decide (entry_target entry ∈ animatedElements s))
  then animatedElements_add (entry_target entry)
         (animateElement (entry_target entry) s)
  else s.

(** The observer callback, for one batch of entries. *)
Definition scrollCallback (entries : list Entry) (s : State) : State :=
  foldl (λ s entry, scrollEntry entry s) s entries.

(** [CONFIG.animations.skillBarDelay] *)
Definition skillBarDelay : Z := 200.

(** The body of the [forEach] in the observer callback of
    [setupSkillBars]; it shares [animatedElements] with the scroll
    animations. *)
Definition skillBarEntry (entry : Entry) (s : State) : State :=
  if isIntersecting entry &&
     negb (bool_decide (entry_target entry ∈ animatedElements s))
  then
    let width := getAttribute data_width (entry_target entry) s in
    animatedElements_add (entry_target entry)
      (setTimeout (SetWidth (entry_target entry) width) (Some skillBarDelay) s)
  else s.

Definition skillBarCallback (entries : list Entry) (s : State) : State :=
  foldl (λ s entry, skillBarEntry entry s) s entries.

(** What the browser delivers during a page load. *)
Inductive Event : Type :=
  | ScrollObserved (entries : list Entry)
  | SkillBarObserved (entries : list Entry).

Definition handle (ev : Event) (s : State) : State :=
  match ev with
  | ScrollObserved entries => scrollCallback entries s
  | SkillBarObserved entries => skillBarCallback entries s
  end.

Definition handle_all (evs : list Event) (s : State) : State :=
  foldl (λ s ev, handle ev s) s evs.

(** The body of the callback deferred by [animateElement]. *)
Definition reveal (animationType : option string) (e : Element) : Element :=
  let cl := {[ "aos-animate" ]} ∪ classList e in
  let '(transform, opacity, animation) :=
    if bool_decide (animationType = Some "fade-up")
    then ("translateY(0)", "1", style_animation e)
    else if bool_decide (animationType = Some "fade-right")
    then ("translateX(0)", "1", style_animation e)
    else if bool_decide (animationType = Some "fade-left")
    then ("translateX(0)", "1", style_animation e)
    else if bool_decide (animationType = Some "float")
    then (style_transform e, style_opacity e, "float 6s ease-in-out infinite")
    else (style_transform e, style_opacity e, style_animation e) in
  {| data_aos := data_aos e; data_aos_delay := data_aos_delay e;
     data_width := data_width e; classList := cl;
     style_transform := transform; style_opacity := opacity;
     style_animation := animation; style_width := style_width e |}.

(** How many reveals of [n] have been scheduled. *)
(** Firing a timeout. *)
Definition set_document (doc : gmap node Element) (s : State) : State :=
  {| animatedElements := animatedElements s;
     countersAnimated := countersAnimated s;
     document := doc; timeouts := timeouts s |}.

(** [bar.style.width = width]; the width is taken to be one the style
    declaration stores as it is (see [SkillsManager.reveal_bar] for the
    other case).  The statements about this module count timeouts and do
    not read widths. *)
Definition set_width (width : option string) (e : Element) : Element :=
  {| data_aos := data_aos e; data_aos_delay := data_aos_delay e;
     data_width := data_width e; classList := classList e;
     style_transform := style_transform e; style_opacity := style_opacity e;
     style_animation := style_animation e;
     style_width := default "" width |}.

Definition run (cb : Callback) (s : State) : State :=
  match cb with
  | Reveal n animationType =>
      set_document (alter (reveal animationType) n (document s)) s
  | SetWidth n width =>
      set_document (alter (set_width width) n (document s)) s
  end.

Definition is_reveal_of (n : node) (cb : Callback) : bool :=
  match cb with
  | Reveal m _ => bool_decide (m = n)
  | SetWidth _ _ => false
  end.

Definition reveals_of (n : node) (q : list (option Z * Callback)) : nat :=
  length (filter (λ t, is_reveal_of n t.2 = true) q).

(** Invariants of the bookkeeping.  Every reveal of [n] that has been
    scheduled is recorded in [animatedElements], and there is at most
    one. *)
Definition recorded (n : node) (s : State) : Prop :=
  (reveals_of n (timeouts s) ≤ 1)%nat ∧
  (n ∉ animatedElements s → reveals_of n (timeouts s) = 0%nat).

(** [n] is in [animatedElements] and [k] reveals of it are scheduled. *)
Definition settled_with (n : node) (k : nat) (s : State) : Prop :=
  n ∈ animatedElements s ∧ reveals_of n (timeouts s) = k.

End AnimationManager.

(* ===================================================================== *)
(** * [SkillsManager]                                                     *)
(* ===================================================================== *)

Module SkillsManager.

Record NavBtn : Type := {
  btn_data_category : option string;
  btn_classList : gset string
}.

(** A [.skill-progress] bar. *)
Record SkillBar : Type := {
  data_width : option string;
  style_width : string
}.

(** A [.skill-category] block with the bars found below it. *)
Record SkillCategory : Type := {
  cat_data_category : option string;
  cat_classList : gset string;
  skillBars : list SkillBar
}.

Record State : Type := {
  skillNavBtns : list NavBtn;
  skillCategories : list SkillCategory;
  currentCategory : string
}.

(** The deferred callback: bar [bar] of category block [cat] takes the
    width stored in its [data-width] attribute. *)
Inductive Callback : Type :=
  | RevealBar (cat bar : nat).

Definition toggle_btn (category : string) (btn : NavBtn) : NavBtn :=
  {| btn_data_category := btn_data_category btn;
     btn_classList :=
       classList_toggle "active"
         (bool_decide (btn_data_category btn = Some category))
         (btn_classList btn) |}.

Definition toggle_cat (category : string) (cat : SkillCategory) : SkillCategory :=
  {| cat_data_category := cat_data_category cat;
     cat_classList :=
       classList_toggle "active"
         (bool_decide (cat_data_category cat = Some category))
         (cat_classList cat);
     skillBars := skillBars cat |}.

(** The timeouts one category block contributes: none unless it is the
    newly active one, else one per bar, staggered by 100ms. *)
Definition bar_timeouts (category : string) (i : nat) (cat : SkillCategory)
  : list (Timers.timeout Callback) :=
  if bool_decide (cat_data_category cat = Some category)
  then imap (λ index _, (Z.of_nat index * 100, RevealBar i index)) (skillBars cat)
  else [].

(** [switchCategory]: the new state and the timeouts it registered. *)
Definition switchCategory (category : string) (s : State)
  : State * list (Timers.timeout Callback) :=
  if bool_decide (category = currentCategory s) then (s, [])
  else
    ({| skillNavBtns := toggle_btn category <$> skillNavBtns s;
        skillCategories := toggle_cat category <$> skillCategories s;
        currentCategory := category |},
     mjoin (imap (bar_timeouts category) (skillCategories s))).

Section Widths.

(** What a style declaration keeps of a string assigned to [width]: nothing
    when the string is no width (a word, a number without a unit), and
    else the width as the declaration gives it back.  This is the
    browser's CSS parser, a parameter here. *)
Variable width_kept : string → option string.

(** [bar.style.width = bar.getAttribute('data-width')].  Assigning [null]
    (no attribute) or the empty string removes the declaration; a string
    that is no width is not stored, and the bar keeps the width it had. *)
Definition reveal_bar (bar : SkillBar) : SkillBar :=
  {| data_width := data_width bar;
     style_width :=
       match data_width bar with
       | None => ""
       | Some width =>
           if bool_decide (width = "") then ""
           else default (style_width bar) (width_kept width)
       end |}.

Definition run (cb : Callback) (s : State) : State :=
  match cb with
  | RevealBar i j =>
      {| skillNavBtns := skillNavBtns s;
         skillCategories :=
           alter (λ cat,
             {| cat_data_category := cat_data_category cat;
                cat_classList := cat_classList cat;
                skillBars := alter reveal_bar j (skillBars cat) |})
             i (skillCategories s);
         currentCategory := currentCategory s |}
  end.

End Widths.

End SkillsManager.

(* ===================================================================== *)
(** * [ProjectsManager]                                                   *)
(* ===================================================================== *)

Module ProjectsManager.

Record FilterBtn : Type := {
  data_filter : option string;
  btn_classList : gset string
}.

(** A [.project-card]: its category tag and the inline style properties
    the filter writes. *)
Record ProjectCard : Type := {
  data_category : option string;
  style_transition : string;
  style_display : string;
  style_opacity : string;
  style_transform : string
}.

Record State : Type := {
  filterBtns : list FilterBtn;
  projectCards : list ProjectCard;
  currentFilter : string
}.

Inductive Callback : Type :=
  | AnimateIn (card : nat)
  | Hide (card : nat).

Definition toggle_btn (filter : string) (btn : FilterBtn) : FilterBtn :=
  {| data_filter := data_filter btn;
     btn_classList :=
       classList_toggle "active"
         (bool_decide (data_filter btn = Some filter))
         (btn_classList btn) |}.

(** The test of the [forEach] body. *)
Definition shouldShow (filter : string) (card : ProjectCard) : bool :=
  let categories := default "" (data_category card) in
  bool_decide (filter = "all") || JS.includes categories filter.

(** The synchronous part of the [forEach] body for one card. *)
Definition restyle (filter : string) (card : ProjectCard) : ProjectCard :=
  if shouldShow filter card then
    {| data_category := data_category card;
       style_transition := "all 0.3s ease";
       style_display := "block";
       style_opacity := "0";
       style_transform := "scale(0.8)" |}
  else
    {| data_category := data_category card;
       style_transition := "all 0.3s ease";
       style_display := style_display card;
       style_opacity := "0";
       style_transform := "scale(0.8)" |}.

(** The timeout registered for card [i]. *)
Definition card_timeout (filter : string) (i : nat) (card : ProjectCard)
  : Timers.timeout Callback :=
  if shouldShow filter card then (50, AnimateIn i) else (300, Hide i).

(** [filterProjects]: the new state and the timeouts it registered. *)
Definition filterProjects (filter : string) (s : State)
  : State * list (Timers.timeout Callback) :=
  if bool_decide (filter = currentFilter s) then (s, [])
  else
    ({| filterBtns := toggle_btn filter <$> filterBtns s;
        projectCards := restyle filter <$> projectCards s;
        currentFilter := filter |},
     imap (card_timeout filter) (projectCards s)).

Definition animate_in (card : ProjectCard) : ProjectCard :=
  {| data_category := data_category card;
     style_transition := style_transition card;
     style_display := style_display card;
     style_opacity := "1";
     style_transform := "scale(1)" |}.

Definition hide (card : ProjectCard) : ProjectCard :=
  {| data_category := data_category card;
     style_transition := style_transition card;
     style_display := "none";
     style_opacity := style_opacity card;
     style_transform := style_transform card |}.

Definition set_cards (cards : list ProjectCard) (s : State) : State :=
  {| filterBtns := filterBtns s; projectCards := cards;
     currentFilter := currentFilter s |}.

(** The card a callback closed over, and what it does to it. *)
Definition card_index (cb : Callback) : nat :=
  match cb with AnimateIn i | Hide i => i end.

Definition card_action (cb : Callback) : ProjectCard → ProjectCard :=
  match cb with AnimateIn _ => animate_in | Hide _ => hide end.

Definition run (cb : Callback) (s : State) : State :=
  set_cards (alter (card_action cb) (card_index cb) (projectCards s)) s.

(** The callbacks of a list of timeouts applied to one card, in order. *)
Definition apply_all (q : list (Timers.timeout Callback)) (card : ProjectCard)
  : ProjectCard :=
  foldl (λ c t, card_action t.2 c) card q.

(** The state once every timeout registered by a [filterProjects] call has
    fired, i.e. from 300ms after the call, when no timeout of an earlier
    call was pending. *)
Definition settled (r : State * list (Timers.timeout Callback)) : State :=
  Timers.run_all run r.2 r.1.

(** A card is on screen when it is laid out and not transparent. *)
Definition visible (card : ProjectCard) : bool :=
  negb (bool_decide (style_display card = "none")) &&
  negb (bool_decide (style_opacity card = "0")).

End ProjectsManager.

(* ===================================================================== *)
(** * [ContactFormManager]                                                *)
(* ===================================================================== *)

Module ContactFormManager.

(** ** The part of the page the controller works on *)

Inductive Tag : Type := input | select | textarea.

Global Instance Tag_eq_dec : EqDecision Tag.
Proof. solve_decision. Defined.

(** A form control ([input], [select] or [textarea] under [#contact-form]). *)
Record Field : Type := {
  tag : Tag;
  id : string;
  name : string;
  type : string;
  value : string;
  defaultValue : string;         (* what [form.reset()] restores *)
  required : bool;               (* hasAttribute('required') *)
  minlength : option string;     (* getAttribute('minlength') *)
  label : option string;         (* textContent of label[for=id], if any *)
  classList : gset string;
  aria_invalid : option string
}.

(** The element with id [<name>-error]. *)
Record ErrorElement : Type := {
  err_textContent : string;
  err_classList : gset string
}.

(** [#success-message] or [#error-message]: its [style.display] and the
    content of its first [p] child when it has one. *)
Record Banner : Type := {
  display : string;
  paragraph : option string
}.

(** Look-ups by id that may come back [null] are options. *)
Record Feedback : Type := {
  form_feedback : option string;     (* style.display of #form-feedback *)
  success_message : option Banner;
  error_message : option Banner
}.

(** The properties object handed to [trackEvent]. *)
Record Properties : Type := {
  service : option string;
  budget : option string
}.

(** What leaves the controller: console output, the email relay call, the
    analytics call, and the browser calls of [showFormMessage]. *)
Inductive Effect : Type :=
  | console_log (args : list string)
  | console_error (args : list string)
  | console_log_event (eventName : string) (properties : Properties)
  | gtag (command eventName : string) (properties : Properties)
  | emailjs_send (serviceId templateId : string) (params : gmap string string)
  | scrollIntoView_feedback
  | setTimeout_hide_feedback (delay : Z).

Record State : Type := {
  fields : list Field;                       (* in document order *)
  errorElements : gmap string ErrorElement;  (* by element id *)
  feedback : Feedback;
  submitBtn : Utils.Control;                 (* .submit-btn, which the form has *)
  isSubmitting : bool;
  effects : list Effect                      (* oldest first *)
}.

(** Globals the handler reads. *)
Record Env : Type := {
  emailjs_defined : bool;      (* typeof emailjs !== 'undefined' *)
  gtag_defined : bool;         (* typeof gtag !== 'undefined' *)
  now_iso : string;            (* new Date().toISOString() *)
  userAgent : string;          (* navigator.userAgent *)
  href : string                (* window.location.href *)
}.

Definition serviceId : string := "service_zgf03ey".
Definition templateId : string := "template_7r3r8rd".

(** ** State updates *)

Definition set_fields (x : list Field) (s : State) : State :=
  {| fields := x; errorElements := errorElements s; feedback := feedback s;
     submitBtn := submitBtn s; isSubmitting := isSubmitting s;
     effects := effects s |}.

Definition set_errorElements (x : gmap string ErrorElement) (s : State) : State :=
  {| fields := fields s; errorElements := x; feedback := feedback s;
     submitBtn := submitBtn s; isSubmitting := isSubmitting s;
     effects := effects s |}.

Definition set_feedback (x : Feedback) (s : State) : State :=
  {| fields := fields s; errorElements := errorElements s; feedback := x;
     submitBtn := submitBtn s; isSubmitting := isSubmitting s;
     effects := effects s |}.

Definition set_submitBtn (x : Utils.Control) (s : State) : State :=
  {| fields := fields s; errorElements := errorElements s;
     feedback := feedback s; submitBtn := x; isSubmitting := isSubmitting s;
     effects := effects s |}.

Definition set_isSubmitting (x : bool) (s : State) : State :=
  {| fields := fields s; errorElements := errorElements s;
     feedback := feedback s; submitBtn := submitBtn s; isSubmitting := x;
     effects := effects s |}.

Definition emit (e : Effect) (s : State) : State :=
  {| fields := fields s; errorElements := errorElements s;
     feedback := feedback s; submitBtn := submitBtn s;
     isSubmitting := isSubmitting s; effects := effects s ++ [e] |}.

Definition set_classes (cl : gset string) (aria : option string) (f : Field)
  : Field :=
  {| tag := tag f; id := id f; name := name f; type := type f;
     value := value f; defaultValue := defaultValue f;
     required := required f; minlength := minlength f; label := label f;
     classList := cl; aria_invalid := aria |}.

Definition reset_field (f : Field) : Field :=
  {| tag := tag f; id := id f; name := name f; type := type f;
     value := defaultValue f; defaultValue := defaultValue f;
     required := required f; minlength := minlength f; label := label f;
     classList := classList f; aria_invalid := aria_invalid f |}.

(** ** Field validation *)

Definition error_id (f : Field) : string := name f +:+ "-error".

(** [showFieldError(field, message)], [field] being control number [i]. *)
Definition showFieldError (i : nat) (message : string) (s : State) : State :=
  match fields s !! i with
  | None => s
  | Some field =>
      let s1 :=
        match errorElements s !! error_id field with
        | Some errorElement =>
            set_errorElements
              (<[error_id field :=
                   {| err_textContent := message;
                      err_classList := {[ "show" ]} ∪ err_classList errorElement |}]>
                 (errorElements s)) s
        | None => s
        end in
      set_fields
        (<[i := set_classes ({[ "error" ]} ∪ classList field) (Some "true") field]>
           (fields s1)) s1
  end.

Definition clearFieldError (i : nat) (s : State) : State :=
  match fields s !! i with
  | None => s
  | Some field =>
      let s1 :=
        match errorElements s !! error_id field with
        | Some errorElement =>
            set_errorElements
              (<[error_id field :=
                   {| err_textContent := "";
                      err_classList := err_classList errorElement ∖ {[ "show" ]} |}]>
                 (errorElements s)) s
        | None => s
        end in
      set_fields
        (<[i := set_classes (classList field ∖ {[ "error" ]}) None field]>
           (fields s1)) s1
  end.

Definition getFieldLabel (field : Field) : string :=
  match label field with
  | Some text => JS.trim (JS.remove_first "*" text)
  | None => name field
  end.

(** The rule chain of [validateField]: the values of [isValid] and
    [errorMessage] when the chain is left.  [parseInt] yielding [NaN] makes
    the length comparison false. *)
Definition check (field : Field) : bool * string :=
  let value := JS.trim (value field) in
  if required field && negb (JS.truthy value) then
    (false, getFieldLabel field +:+ " is required.")
  else if bool_decide (type field = "email") && JS.truthy value
          && negb (Utils.isValidEmail value) then
    (false, "Please enter a valid email address.")
  else
    match minlength field with
    | Some attr =>
        match JS.parseInt attr with
        | Some minLength =>
            if bool_decide (Z.of_nat (String.length value) < minLength) then
              (false,
               getFieldLabel field +:+ " must be at least " +:+
               JS.number_to_string minLength +:+ " characters.")
            else (true, "")
        | None => (true, "")
        end
    | None => (true, "")
    end.

(** [validateField(field)], [field] being control number [i]: the returned
    [isValid] and the state it leaves.  A reference always denotes a
    control of the form; for an index outside the form nothing happens. *)
Definition validateField (i : nat) (s : State) : bool * State :=
  match fields s !! i with
  | None => (true, s)
  | Some field =>
      let s1 := clearFieldError i s in
      let '(isValid, errorMessage) := check field in
      if isValid then (true, s1) else (false, showFieldError i errorMessage s1)
  end.

(** ** The validation rules as the specification words them

    Each rule applies only when the ones before it do not. *)





(** The error message of a [check] result, if it is one. *)
Definition verdict (r : bool * string) : option string :=
  if r.1 then None else Some r.2.

(** What a validation with outcome [v] leaves on the control and on its
    error element. *)
Definition marked (v : option string) (f : Field) : Field :=
  match v with
  | Some _ =>
      set_classes ({[ "error" ]} ∪ (classList f ∖ {[ "error" ]})) (Some "true") f
  | None => set_classes (classList f ∖ {[ "error" ]}) None f
  end.

Definition marked_error (v : option string) (el : ErrorElement) : ErrorElement :=
  match v with
  | Some message =>
      {| err_textContent := message;
         err_classList := {[ "show" ]} ∪ (err_classList el ∖ {[ "show" ]}) |}
  | None =>
      {| err_textContent := "";
         err_classList := err_classList el ∖ {[ "show" ]} |}
  end.

Definition validated (i : nat) (f : Field) (v : option string) (s : State)
  : State :=
  set_fields (<[i := marked v f]> (fields s))
    (match errorElements s !! error_id f with
     | Some el =>
         set_errorElements
           (<[error_id f := marked_error v el]> (errorElements s)) s
     | None => s
     end).

(** ** Banners *)

Definition set_display (d : string) (b : Banner) : Banner :=
  {| display := d; paragraph := paragraph b |}.

(** Shows a banner and writes [message] into its [p] child, if any. *)
Definition show_banner (message : string) (b : Banner) : Banner :=
  {| display := "block"; paragraph := (λ _, message) <$> paragraph b |}.

(** [showFormMessage(message, type)]; [success] is [type === 'success']. *)
Definition showFormMessage (message : string) (success : bool) (s : State)
  : State :=
  match form_feedback (feedback s),
        success_message (feedback s),
        error_message (feedback s) with
  | Some _, Some successEl, Some errorEl =>
      let successEl1 := set_display "none" successEl in
      let errorEl1 := set_display "none" errorEl in
      let fb :=
        if success then
          {| form_feedback := Some "block";
             success_message := Some (show_banner message successEl1);
             error_message := Some errorEl1 |}
        else
          {| form_feedback := Some "block";
             success_message := Some successEl1;
             error_message := Some (show_banner message errorEl1) |} in
      emit (setTimeout_hide_feedback 10000)
        (emit scrollIntoView_feedback (set_feedback fb s))
  | _, _, _ => s
  end.

(** The callback [showFormMessage] defers by ten seconds. *)
Definition hide_feedback (s : State) : State :=
  match form_feedback (feedback s) with
  | Some _ =>
      set_feedback
        {| form_feedback := Some "none";
           success_message := success_message (feedback s);
           error_message := error_message (feedback s) |} s
  | None => s
  end.

(** [trackEvent(eventName, properties)] *)
Definition trackEvent (env : Env) (eventName : string) (properties : Properties)
  (s : State) : State :=
  let s1 :=
    if gtag_defined env then emit (gtag "event" eventName properties) s
    else s in
  emit (console_log_event eventName properties) s1.

(** ** Submission *)

(** [new FormData(form).entries()]: one entry per named control, in
    document order.  Every named control is taken to contribute its value,
    as text fields, selects and text areas that are enabled do; a form
    with check boxes, radio buttons, buttons or disabled controls has
    fewer entries than this. *)
Definition formData_entries (fs : list Field) : list (string * string) :=
  (λ f, (name f, value f)) <$> filter (λ f, name f ≠ "") fs.

(** [form.querySelector('#<n>, <tag>[name="<n>"]')] *)
Definition querySelector (t : Tag) (n : string) (fs : list Field) : option Field :=
  List.find (λ f, bool_decide (id f = n) ||
                  (bool_decide (tag f = t) && bool_decide (name f = n))) fs.

(** [field?.value] *)
Definition value_of (field : option Field) : option string := value <$> field.

(** [if (field?.value) templateParams[key] = field.value] *)
Definition capture (key : string) (field : option Field)
  (templateParams : gmap string string) : gmap string string :=
  match value_of field with
  | Some v => if JS.truthy v then <[key := v]> templateParams else templateParams
  | None => templateParams
  end.

(** The [console.log] of a directly read value. *)
Definition log_direct (what : string) (field : option Field) : Effect :=
  console_log [what; JS.or_else (value_of field) "NOT FOUND"].

(** What the handler keeps across the [await]. *)
Record Pending : Type := {
  originalContent : string;
  finalTemplateParams : gmap string string
}.

(** The [message] template literal. *)
Definition message_body (finalName finalEmail finalCompany finalBudget
    finalService timeline finalMessage timestamp page_url : string) : string :=
  JS.newline +:+
  "New Contact Form Submission:" +:+ JS.newline +:+
  JS.newline +:+
  "Name: " +:+ finalName +:+ JS.newline +:+
  "Email: " +:+ finalEmail +:+ JS.newline +:+
  "Company: " +:+ finalCompany +:+ JS.newline +:+
  "Budget: " +:+ finalBudget +:+ JS.newline +:+
  "Service: " +:+ finalService +:+ JS.newline +:+
  "Timeline: " +:+ timeline +:+ JS.newline +:+
  JS.newline +:+
  "Message:" +:+ JS.newline +:+
  finalMessage +:+ JS.newline +:+
  JS.newline +:+
  "---" +:+ JS.newline +:+
  "Submitted: " +:+ timestamp +:+ JS.newline +:+
  "From: " +:+ page_url +:+ JS.newline +:+
  "                ".

(** The object literal [finalTemplateParams], from [templateParams] as
    filled so far and the six directly read controls. *)
Definition build_finalTemplateParams (templateParams : gmap string string)
    (nameField emailField companyField budgetField serviceField
       messageField : option Field) : gmap string string :=
  let final key field :=
    JS.or_else (JS.or_opt (templateParams !! key) (value_of field)) "" in
  let finalName := final "name" nameField in
  let finalEmail := final "email" emailField in
  let finalCompany := final "company" companyField in
  let finalBudget := final "budget" budgetField in
  let finalService := final "service" serviceField in
  let finalMessage := final "message" messageField in
  let timeline := JS.or_else (templateParams !! "timeline") "Not specified" in
  let or_str a b := if JS.truthy a then a else b in
  <["message" :=
      message_body finalName finalEmail finalCompany finalBudget finalService
        timeline finalMessage
        (default "undefined" (templateParams !! "timestamp"))
        (default "undefined" (templateParams !! "page_url"))]>
  (<["from_name" := or_str finalName "Website Visitor"]>
  (<["from_email" := or_str finalEmail "noreply@gabrieletupini.dev"]>
  (<["reply_to" := or_str finalEmail "noreply@gabrieletupini.dev"]>
  (<["to_name" := "Gabriele Tupini"]>
  (<["subject" := "Contact Form: " +:+ or_str finalService "New Inquiry"]>
  (<["user_name" := finalName]>
  (<["user_email" := finalEmail]>
  (<["user_company" := finalCompany]>
  (<["user_budget" := finalBudget]>
  (<["user_service" := finalService]>
  (<["user_timeline" := timeline]>
  (<["user_message" := finalMessage]> ∅)))))))))))).

(** How far a call of the [async] handler got. *)
Inductive Outcome : Type :=
  | Returned (s : State)                  (* ran to completion *)
  | Awaiting (p : Pending) (s : State).   (* suspended at [await emailjs.send] *)

(** The validation loop over the [required] controls. *)
Definition required_indices (fs : list Field) : list nat :=
  (λ p, p.1) <$> filter (λ p, required p.2 = true) (imap pair fs).

Definition validate_all (indices : list nat) (s : State) : bool * State :=
  foldl (λ acc i,
           let '(isValid, s1) := validateField i acc.2 in
           (if isValid then acc.1 else false, s1))
        (true, s) indices.

(** The [catch] block. *)
Definition on_error (error : string) (s : State) : State :=
  showFormMessage
    "Sorry, there was an error sending your message. Please try again or email me directly."
    false
    (emit (console_error ["Form submission failed:"; error]) s).

(** The [finally] block. *)
Definition finally (originalContent : string) (s : State) : State :=
  let s1 := set_isSubmitting false s in
  set_submitBtn (Utils.hideLoading (submitBtn s1) originalContent) s1.

(** The [try] block up to the call of [emailjs.send]: the object built
    for the relay, and the state with the console output added. *)
Definition prepare (env : Env) (s3 : State) : gmap string string * State :=
  let formData := formData_entries (fields s3) in
  let s4 :=
    emit (console_log ["Form elements found:";
                       "[object HTMLFormControlsCollection]"]) s3 in
  let s5 := emit (console_log ["FormData entries:"]) s4 in
  let '(templateParams, s6) :=
    foldl (λ acc kv,
             (<[kv.1 := kv.2]> acc.1,
              emit (console_log ["  " +:+ kv.1 +:+ ": " +:+ JS.dquote +:+
                                 kv.2 +:+ JS.dquote]) acc.2))
          (∅, s5) formData in
  let nameField := querySelector input "name" (fields s6) in
  let emailField := querySelector input "email" (fields s6) in
  let companyField := querySelector input "company" (fields s6) in
  let budgetField := querySelector select "budget" (fields s6) in
  let serviceField := querySelector select "service" (fields s6) in
  let messageField := querySelector textarea "message" (fields s6) in
  let s7 :=
    foldl (λ s e, emit e s) s6
      [ console_log ["Direct field values:"];
        log_direct "Name:" nameField;
        log_direct "Email:" emailField;
        log_direct "Company:" companyField;
        log_direct "Budget:" budgetField;
        log_direct "Service:" serviceField;
        log_direct "Message:" messageField ] in
  let templateParams :=
    capture "message" messageField
      (capture "service" serviceField
         (capture "budget" budgetField
            (capture "company" companyField
               (capture "email" emailField
                  (capture "name" nameField templateParams))))) in
  let templateParams :=
    <["page_url" := href env]>
      (<["user_agent" := userAgent env]>
         (<["timestamp" := now_iso env]> templateParams)) in
  let finalTemplateParams :=
    build_finalTemplateParams templateParams nameField emailField
      companyField budgetField serviceField messageField in
  (finalTemplateParams,
   emit (console_log ["Raw message that will be sent:";
                      default "undefined" (finalTemplateParams !! "message")])
     (emit (console_log ["Final template params being sent:";
                         "[object Object]"]) s7)).

(** [handleContactSubmission], up to the [await]. *)
Definition handleContactSubmission (env : Env) (s : State) : Outcome :=
  if isSubmitting s then Returned s
  else
    let inputs := required_indices (fields s) in
    let '(isFormValid, s1) := validate_all inputs s in
    if negb isFormValid then
      Returned (showFormMessage "Please correct the errors below." false s1)
    else
      let s2 := set_isSubmitting true s1 in
      let '(btn, originalContent) :=
        Utils.showLoading (submitBtn s2) "Sending..." in
      let s3 := set_submitBtn btn s2 in
      (* try *)
      let '(finalTemplateParams, s8) := prepare env s3 in
      if emailjs_defined env then
        Awaiting {| originalContent := originalContent;
                    finalTemplateParams := finalTemplateParams |}
          (emit (emailjs_send serviceId templateId finalTemplateParams) s8)
      else
        (* [emailjs] is an unresolvable reference: the [try] block throws *)
        Returned (finally originalContent
                    (on_error "ReferenceError: emailjs is not defined" s8)).

(** How the promise returned by [emailjs.send] settles. *)
Inductive SendResult : Type :=
  | Resolved
  | Rejected (error : string).

(** The rest of the [try] block, after a resolved [await]. *)
Definition on_success (env : Env) (p : Pending) (s : State) : State :=
  let s1 :=
    showFormMessage
      "Thank you for your message! I'll get back to you within 24 hours."
      true s in
  let s2 := set_fields (reset_field <$> fields s1) s1 in
  trackEvent env "contact_form_submit"
    {| service := finalTemplateParams p !! "service";
       budget := finalTemplateParams p !! "budget" |}
    s2.

(** [handleContactSubmission] from the [await] on; [s] is the state of the
    page when the promise settles. *)
Definition handleContactSubmission_resume (env : Env) (r : SendResult)
  (p : Pending) (s : State) : State :=
  match r with
  | Resolved => finally (originalContent p) (on_success env p s)
  | Rejected error => finally (originalContent p) (on_error error s)
  end.

End ContactFormManager.

(* ===================================================================== *)
(** * Sample pages                                                        *)
(* ===================================================================== *)

(** Small documents of the shape the page has, on which the statements
    below are exercised. *)
Module Examples.

Definition card (tags : string) : ProjectsManager.ProjectCard :=
  {| ProjectsManager.data_category := Some tags;
     ProjectsManager.style_transition := "";
     ProjectsManager.style_display := "";
     ProjectsManager.style_opacity := "";
     ProjectsManager.style_transform := "" |}.

Definition filter_btn (f : string) (active : bool)
  : ProjectsManager.FilterBtn :=
  {| ProjectsManager.data_filter := Some f;
     ProjectsManager.btn_classList :=
       if active then {[ "filter-btn"; "active" ]} else {[ "filter-btn" ]} |}.

(** The gallery as loaded: three filters, [all] active, two cards. *)
Definition projects : ProjectsManager.State :=
  {| ProjectsManager.filterBtns :=
       [filter_btn "all" true; filter_btn "frontend" false;
        filter_btn "devops" false];
     ProjectsManager.projectCards :=
       [card "fullstack frontend"; card "devops"];
     ProjectsManager.currentFilter := "all" |}.

(** A section heading tagged [data-aos="fade-up"] and a skill bar. *)
Definition heading : AnimationManager.Element :=
  {| AnimationManager.data_aos := Some "fade-up";
     AnimationManager.data_aos_delay := Some "100";
     AnimationManager.data_width := None;
     AnimationManager.classList := ∅;
     AnimationManager.style_transform := "";
     AnimationManager.style_opacity := "";
     AnimationManager.style_animation := "";
     AnimationManager.style_width := "" |}.

Definition skill_bar : AnimationManager.Element :=
  {| AnimationManager.data_aos := None;
     AnimationManager.data_aos_delay := None;
     AnimationManager.data_width := Some "90%";
     AnimationManager.classList := {[ "skill-progress" ]};
     AnimationManager.style_transform := "";
     AnimationManager.style_opacity := "";
     AnimationManager.style_animation := "";
     AnimationManager.style_width := "" |}.

Definition animated_page : gmap AnimationManager.node AnimationManager.Element :=
  <[1%positive := heading]> (<[2%positive := skill_bar]> ∅).

Definition entering (n : AnimationManager.node) : AnimationManager.Entry :=
  {| AnimationManager.isIntersecting := true;
     AnimationManager.entry_target := n |}.

Definition leaving (n : AnimationManager.node) : AnimationManager.Entry :=
  {| AnimationManager.isIntersecting := false;
     AnimationManager.entry_target := n |}.

(** The heading scrolls into view, out, and in again; the bar is seen in
    between. *)
Definition scrolling : list AnimationManager.Event :=
  [ AnimationManager.ScrollObserved [entering 1%positive];
    AnimationManager.ScrollObserved [leaving 1%positive];
    AnimationManager.SkillBarObserved [entering 2%positive];
    AnimationManager.ScrollObserved [entering 1%positive; entering 1%positive] ].

(** The contact form: three required controls with their error elements,
    three optional ones, the feedback banners and the submit control. *)
Definition control (t : ContactFormManager.Tag) (n ty v : string)
    (req : bool) (lbl : string) : ContactFormManager.Field :=
  {| ContactFormManager.tag := t;
     ContactFormManager.id := n;
     ContactFormManager.name := n;
     ContactFormManager.type := ty;
     ContactFormManager.value := v;
     ContactFormManager.defaultValue := "";
     ContactFormManager.required := req;
     ContactFormManager.minlength := None;
     ContactFormManager.label := Some lbl;
     ContactFormManager.classList := ∅;
     ContactFormManager.aria_invalid := None |}.

Definition error_element : ContactFormManager.ErrorElement :=
  {| ContactFormManager.err_textContent := "";
     ContactFormManager.err_classList := {[ "error-message" ]} |}.

Definition banner : ContactFormManager.Banner :=
  {| ContactFormManager.display := "none";
     ContactFormManager.paragraph := Some "" |}.

Definition contact (name email service budget message : string)
    (submitting : bool) : ContactFormManager.State :=
  {| ContactFormManager.fields :=
       [ control ContactFormManager.input "name" "text" name true "Name *";
         control ContactFormManager.input "email" "email" email true "Email *";
         control ContactFormManager.input "company" "text" "" false "Company";
         control ContactFormManager.select "service" "select-one" service false
           "Service";
         control ContactFormManager.select "budget" "select-one" budget false
           "Budget";
         control ContactFormManager.textarea "message" "textarea" message true
           "Message *" ];
     ContactFormManager.errorElements :=
       <["name-error" := error_element]>
         (<["email-error" := error_element]>
            (<["message-error" := error_element]> ∅));
     ContactFormManager.feedback :=
       {| ContactFormManager.form_feedback := Some "none";
          ContactFormManager.success_message := Some banner;
          ContactFormManager.error_message := Some banner |};
     ContactFormManager.submitBtn :=
       {| Utils.innerHTML := "<span>Send Message</span>";
          Utils.disabled := false |};
     ContactFormManager.isSubmitting := submitting;
     ContactFormManager.effects := [] |}.

Definition env : ContactFormManager.Env :=
  {| ContactFormManager.emailjs_defined := true;
     ContactFormManager.gtag_defined := false;
     ContactFormManager.now_iso := "2025-01-01T00:00:00.000Z";
     ContactFormManager.userAgent := "Mozilla/5.0";
     ContactFormManager.href := "https://gabrieletupini.dev/" |}.

(** Jane's message, with a service and a budget selected. *)
Definition jane : ContactFormManager.State :=
  contact "Jane Doe" "jane@example.com" "web-development" "5k-10k" "Hello"
    false.

End Examples.

(* ===================================================================== *)
(** * [Utils.debounce] and [Utils.throttle]                               *)
(* ===================================================================== *)

(** The two wrappers are closures over a variable and the host's timers.
    A wrapper is modelled by the state of its closure, the timers it has
    registered that are still pending, and the list of the invocations of
    [func] made so far; what happens to it is a sequence of events: the
    wrapper is called, or the host fires one of its pending timers. *)

Module Debounce.

Section Wrapper.

(** The arguments the wrapper is called with. *)
Context {A : Type}.

(** Timer handles, as returned by [setTimeout]. *)
Definition handle : Type := positive.

Record State : Type := {
  timeout : option handle;       (* the variable [timeout]; [None] is undefined *)
  timers : gmap handle A;        (* pending timers: handle ↦ the [args] of [later] *)
  next_handle : handle;          (* the host hands out increasing handles *)
  invocations : list A           (* calls [func(...args)], oldest first *)
}.

(** [Utils.debounce(func, wait)]: the fresh closure. *)
Definition debounce : State :=
  {| timeout := None; timers := ∅; next_handle := 1%positive;
     invocations := [] |}.

(** [clearTimeout(timeout)]; clearing [undefined] or a handle that is no
    longer pending does nothing. *)
Definition clearTimeout (h : option handle) (s : State) : State :=
  match h with
  | Some k =>
      {| timeout := timeout s; timers := delete k (timers s);
         next_handle := next_handle s; invocations := invocations s |}
  | None => s
  end.

(** [executedFunction(...args)] *)
Definition executedFunction (args : A) (s : State) : State :=
  let s1 := clearTimeout (timeout s) s in
  {| timeout := Some (next_handle s1);
     timers := <[next_handle s1 := args]> (timers s1);
     next_handle := Pos.succ (next_handle s1);
     invocations := invocations s1 |}.

(** The host fires timer [h]: it leaves the pending timers and [later]
    runs.  Firing a handle that is not pending is not something the host
    does; it changes nothing. *)
Definition fire (h : handle) (s : State) : State :=
  match timers s !! h with
  | Some args =>
      let s1 :=
        {| timeout := timeout s; timers := delete h (timers s);
           next_handle := next_handle s; invocations := invocations s |} in
      let s2 := clearTimeout (timeout s1) s1 in
      {| timeout := timeout s2; timers := timers s2;
         next_handle := next_handle s2;
         invocations := invocations s2 ++ [args] |}
  | None => s
  end.

Inductive Event : Type :=
  | Call (args : A)
  | Fire (h : handle).

Definition step (s : State) (ev : Event) : State :=
  match ev with
  | Call args => executedFunction args s
  | Fire h => fire h s
  end.

Definition run (evs : list Event) (s : State) : State := foldl step s evs.

(** The closure keeps at most the timer of its latest call, and the host's
    next handle is beyond every handle handed out. *)
Definition well_formed (s : State) : Prop :=
  (∀ h, is_Some (timers s !! h) → timeout s = Some h) ∧
  (∀ h, timeout s = Some h → (h < next_handle s)%positive).

(** The arguments of the calls in a sequence of events. *)
Definition call_args (evs : list Event) : list A :=
  omap (λ ev, match ev with Call a => Some a | Fire _ => None end) evs.

End Wrapper.

Arguments State : clear implicits.
Arguments Event : clear implicits.

End Debounce.

Module Throttle.

Section Wrapper.

Context {A : Type}.

Record State : Type := {
  inThrottle : bool;          (* the variable; undefined is falsy *)
  pending : nat;              (* timers registered and not yet fired *)
  invocations : list A        (* calls [func.apply(context, args)] *)
}.

(** [Utils.throttle(func, limit)]: the fresh closure. *)
Definition throttle : State :=
  {| inThrottle := false; pending := 0; invocations := [] |}.

(** The returned function, called with [args]. *)
Definition call (args : A) (s : State) : State :=
  if negb (inThrottle s) then
    {| inThrottle := true; pending := S (pending s);
       invocations := invocations s ++ [args] |}
  else s.

(** The host fires one of the pending timers: [inThrottle = false]. *)
Definition fire (s : State) : State :=
  match pending s with
  | O => s
  | S n =>
      {| inThrottle := false; pending := n; invocations := invocations s |}
  end.

Inductive Event : Type :=
  | Call (args : A)
  | Fire.

Definition step (s : State) (ev : Event) : State :=
  match ev with
  | Call args => call args s
  | Fire => fire s
  end.

Definition run (evs : list Event) (s : State) : State := foldl step s evs.

(** A timer is pending exactly while the wrapper is throttled. *)
Definition well_formed (s : State) : Prop :=
  pending s = if inThrottle s then 1%nat else 0%nat.

Definition call_args (evs : list Event) : list A :=
  omap (λ ev, match ev with Call a => Some a | Fire => None end) evs.

Definition is_fire (ev : Event) : bool :=
  match ev with Fire => true | Call _ => false end.

Definition fires (evs : list Event) : nat :=
  length (filter (λ ev, is_fire ev = true) evs).

End Wrapper.

Arguments State : clear implicits.
Arguments Event : clear implicits.

End Throttle.

(* ===================================================================== *)
(** * [NavigationManager]                                                 *)
(* ===================================================================== *)

Module NavigationManager.

(** A [.nav-link]; every link of the page has an [href]. *)
Record NavLink : Type := {
  href : string;
  link_classList : gset string
}.

(** An [IntersectionObserverEntry] for a [section[id]]. *)
Record Entry : Type := {
  isIntersecting : bool;
  target_id : string
}.

Record State : Type := {
  navbar_classList : gset string;      (* #navbar *)
  navMenu_classList : gset string;     (* #nav-menu *)
  aria_expanded : option string;       (* of #mobile-menu, the toggle *)
  bars : list string;                  (* style.transform of its .bar children *)
  body_overflow : string;              (* document.body.style.overflow *)
  navLinks : list NavLink;
  isMenuOpen : bool;
  offsetTops : gmap string Z;          (* elements with an id ↦ offsetTop *)
  scrollTo_calls : list Z;             (* window.scrollTo({top, 'smooth'}) *)
  scrollHandler : Throttle.State unit  (* the closure of [setupScrollEffect] *)
}.

Definition set_menu (menu : gset string) (aria : option string)
    (bs : list string) (overflow : string) (open : bool) (s : State) : State :=
  {| navbar_classList := navbar_classList s; navMenu_classList := menu;
     aria_expanded := aria; bars := bs; body_overflow := overflow;
     navLinks := navLinks s; isMenuOpen := open; offsetTops := offsetTops s;
     scrollTo_calls := scrollTo_calls s; scrollHandler := scrollHandler s |}.

Definition set_navLinks (links : list NavLink) (s : State) : State :=
  {| navbar_classList := navbar_classList s;
     navMenu_classList := navMenu_classList s;
     aria_expanded := aria_expanded s; bars := bars s;
     body_overflow := body_overflow s;
     navLinks := links; isMenuOpen := isMenuOpen s;
     offsetTops := offsetTops s;
     scrollTo_calls := scrollTo_calls s; scrollHandler := scrollHandler s |}.

(** [classList.toggle(token)] without a second argument. *)
Definition classList_flip (token : string) (cl : gset string) : gset string :=
  if bool_decide (token ∈ cl) then cl ∖ {[ token ]} else {[ token ]} ∪ cl.

(** The template literal assigned to a bar, [index] being its position. *)
Definition bar_transform (open : bool) (index : nat) : string :=
  if open then
    "rotate(" +:+
    match index with
    | O => "45deg"
    | S O => "scaleX(0)"
    | _ => "-45deg"
    end +:+ ")"
  else "".

(** The values of [transform] that occur here and that a style declaration
    keeps: the empty string, which removes the declaration, and the
    [rotate()] notation around a whole number of degrees,
    [rotate\(-?[0-9]+deg\)]. *)
Definition is_digit (c : ascii) : bool :=
  bool_decide (48 ≤ nat_of_ascii c ≤ 57)%nat.

Definition rotateRegex : JS.regex :=
  JS.Seq (JS.Chr "r") (JS.Seq (JS.Chr "o") (JS.Seq (JS.Chr "t")
    (JS.Seq (JS.Chr "a") (JS.Seq (JS.Chr "t") (JS.Seq (JS.Chr "e")
      (JS.Seq (JS.Chr "(")
         (JS.Seq (JS.Alt JS.Eps (JS.Chr "-"))
            (JS.Seq (JS.Plus (JS.Class is_digit))
               (JS.Seq (JS.Chr "d") (JS.Seq (JS.Chr "e") (JS.Seq (JS.Chr "g")
                  (JS.Chr ")")))))))))))).

Definition is_transform (value : string) : bool :=
  bool_decide (value = "") || JS.test rotateRegex value.

(** [bar.style.transform = value] on a bar whose transform is [old]: a
    string that is no transform is not stored, and the declaration stays
    as it was.  That is the fate of [rotate(scaleX(0))], which has a
    function where [rotate()] takes an angle. *)
Definition assign_transform (value old : string) : string :=
  if is_transform value then value else old.

Definition toggleMobileMenu (s : State) : State :=
  let open := negb (isMenuOpen s) in
  set_menu (classList_flip "active" (navMenu_classList s))
    (Some (if open then "true" else "false"))
    (imap (λ index old, assign_transform (bar_transform open index) old)
       (bars s))
    (if open then "hidden" else "")
    open s.

Definition closeMobileMenu (s : State) : State :=
  if negb (isMenuOpen s) then s else toggleMobileMenu s.

(** [Utils.scrollToElement(element, offset)] *)
Definition scrollToElement (offsetTop offset : Z) (s : State) : State :=
  {| navbar_classList := navbar_classList s;
     navMenu_classList := navMenu_classList s;
     aria_expanded := aria_expanded s; bars := bars s;
     body_overflow := body_overflow s;
     navLinks := navLinks s; isMenuOpen := isMenuOpen s;
     offsetTops := offsetTops s;
     scrollTo_calls := scrollTo_calls s ++ [offsetTop - offset];
     scrollHandler := scrollHandler s |}.

(** [href.substring(1)] *)
Definition substring1 (s : string) : string :=
  match s with
  | EmptyString => EmptyString
  | String _ s' => s'
  end.

(** The click listener [setupSmoothScrolling] puts on link [i]; links
    whose [href] does not start with [#] get none. *)
Definition linkClick (i : nat) (s : State) : State :=
  match navLinks s !! i with
  | Some link =>
      if JS.startsWith "#" (href link) then
        let targetId := substring1 (href link) in
        match offsetTops s !! targetId with
        | Some offsetTop => closeMobileMenu (scrollToElement offsetTop 80 s)
        | None => s
        end
      else s
  | None => s
  end.

(** The document click listener of [setupMobileMenu]; the two flags are
    [navMenu.contains(e.target)] and [navToggle.contains(e.target)]. *)
Definition documentClick (inMenu inToggle : bool) (s : State) : State :=
  if isMenuOpen s && negb inMenu && negb inToggle then closeMobileMenu s
  else s.

Definition keydown (key : string) (s : State) : State :=
  if bool_decide (key = "Escape") && isMenuOpen s then closeMobileMenu s
  else s.

(** The outcome of a [document.querySelector] call for a link. *)
Inductive Selected : Type :=
  | Found (i : nat)     (* the link at position [i] *)
  | NotFound            (* [null] *)
  | SyntaxError.        (* the call throws *)

(** The characters that a double-quoted string of a selector takes as they
    are: all but the quote, the backslash, the line breaks and NUL. *)
Definition css_string_char (c : ascii) : bool :=
  negb (JS.ascii_eqb c "034" || JS.ascii_eqb c "092" || JS.ascii_eqb c "010"
        || JS.ascii_eqb c "012" || JS.ascii_eqb c "013"
        || JS.ascii_eqb c "000").

Definition css_string_plain (id : string) : bool :=
  JS.all_chars css_string_char id.

(** The position of the first link whose [href] is [#] followed by [id]. *)
Definition first_link (id : string) (links : list NavLink) : option nat :=
  fst <$> list_find (λ link, href link = "#" +:+ id) links.

Definition remove_active (link : NavLink) : NavLink :=
  {| href := href link;
     link_classList := link_classList link ∖ {[ "active" ]} |}.

Definition add_active (link : NavLink) : NavLink :=
  {| href := href link;
     link_classList := {[ "active" ]} ∪ link_classList link |}.

(** [Utils.getScrollPosition()], from [window.pageYOffset] and
    [document.documentElement.scrollTop]. *)
Definition getScrollPosition (pageYOffset scrollTop : Q) : Q :=
  if Qeq_bool pageYOffset 0 then scrollTop else pageYOffset.

(** A scroll event reaching the throttled handler of [setupScrollEffect]. *)
Definition scroll (pageYOffset scrollTop : Q) (s : State) : State :=
  let invoked := negb (Throttle.inThrottle (scrollHandler s)) in
  let scrolled := Utils.Qltb 100 (getScrollPosition pageYOffset scrollTop) in
  {| navbar_classList :=
       if invoked then classList_toggle "scrolled" scrolled (navbar_classList s)
       else navbar_classList s;
     navMenu_classList := navMenu_classList s;
     aria_expanded := aria_expanded s; bars := bars s;
     body_overflow := body_overflow s;
     navLinks := navLinks s; isMenuOpen := isMenuOpen s;
     offsetTops := offsetTops s;
     scrollTo_calls := scrollTo_calls s;
     scrollHandler := Throttle.call tt (scrollHandler s) |}.

Definition scrollTimer (s : State) : State :=
  {| navbar_classList := navbar_classList s;
     navMenu_classList := navMenu_classList s;
     aria_expanded := aria_expanded s; bars := bars s;
     body_overflow := body_overflow s;
     navLinks := navLinks s; isMenuOpen := isMenuOpen s;
     offsetTops := offsetTops s;
     scrollTo_calls := scrollTo_calls s;
     scrollHandler := Throttle.fire (scrollHandler s) |}.

Inductive Event : Type :=
  | ToggleClick
  | DocumentClick (inMenu inToggle : bool)
  | KeyDown (key : string)
  | LinkClick (i : nat)
  | Intersect (entries : list Entry)
  | Scroll (pageYOffset scrollTop : Q)
  | ScrollTimer.

Section Selectors.

(** The selector is built by splicing the section's id into the text
    [.nav-link[href="#<id>"]].  With an id of plain characters that text is
    the attribute test it looks like.  With a quote, a backslash, a line
    break or NUL in the id it is another selector or none at all, and the
    call may find another link, find nothing or throw; what it does then
    is the browser's selector parser, a parameter here. *)
Variable querySelector_spliced : string → list NavLink → Selected.

Definition querySelector_link (id : string) (links : list NavLink)
  : Selected :=
  if css_string_plain id then
    match first_link id links with
    | Some i => Found i
    | None => NotFound
    end
  else querySelector_spliced id links.

(** The body of the [forEach] in the observer callback of
    [setupActiveLink]: the links it leaves, and whether it threw. *)
Definition activeLinkEntry (entry : Entry) (links : list NavLink)
  : list NavLink * bool :=
  if isIntersecting entry then
    let links1 := remove_active <$> links in
    match querySelector_link (target_id entry) links1 with
    | Found i => (alter add_active i links1, false)
    | NotFound => (links1, false)
    | SyntaxError => (links1, true)
    end
  else (links, false).

(** [entries.forEach(...)]: an exception ends the loop and leaves the
    callback. *)
Fixpoint activeLinkEntries (entries : list Entry) (links : list NavLink)
  : list NavLink :=
  match entries with
  | [] => links
  | entry :: entries' =>
      let '(links1, thrown) := activeLinkEntry entry links in
      if thrown then links1 else activeLinkEntries entries' links1
  end.

Definition activeLinkCallback (entries : list Entry) (s : State) : State :=
  set_navLinks (activeLinkEntries entries (navLinks s)) s.

Definition handle (s : State) (ev : Event) : State :=
  match ev with
  | ToggleClick => toggleMobileMenu s
  | DocumentClick inMenu inToggle => documentClick inMenu inToggle s
  | KeyDown key => keydown key s
  | LinkClick i => linkClick i s
  | Intersect entries => activeLinkCallback entries s
  | Scroll pageYOffset scrollTop => scroll pageYOffset scrollTop s
  | ScrollTimer => scrollTimer s
  end.

Definition run (evs : list Event) (s : State) : State := foldl handle s evs.

End Selectors.

(** The menu's class says what [isMenuOpen] says. *)
Definition menu_class_consistent (s : State) : Prop :=
  "active" ∈ navMenu_classList s ↔ isMenuOpen s = true.

(** The menu's class, the toggle's [aria-expanded], the bars and the body
    scroll lock all say what [isMenuOpen] says; of the bars, those that
    take the transform computed for them, which is every bar but the
    second. *)
Definition menu_consistent (s : State) : Prop :=
  menu_class_consistent s ∧
  (isMenuOpen s = true →
     aria_expanded s = Some "true" ∧ body_overflow s = "hidden" ∧
     ∀ i b, bars s !! i = Some b → i ≠ 1%nat → b = bar_transform true i).

(** The last entry of a batch that is intersecting, if any. *)
Definition last_intersecting (entries : list Entry) : option string :=
  last (target_id <$> filter (λ e, isIntersecting e = true) entries).

(** The events that close the menu. *)
Definition closes (s : State) (ev : Event) : Prop :=
  match ev with
  | KeyDown key => key = "Escape"
  | DocumentClick inMenu inToggle => inMenu = false ∧ inToggle = false
  | LinkClick i =>
      ∃ link top, navLinks s !! i = Some link ∧
                  JS.startsWith "#" (href link) = true ∧
                  offsetTops s !! substring1 (href link) = Some top
  | _ => False
  end.

End NavigationManager.

(* ===================================================================== *)
(** * Sessions of the gallery, the skills panel and the observers        *)
(* ===================================================================== *)

(** What the controllers do over several events in a row, each timeout
    having fired before the next event, and the bookkeeping used to
    describe it. *)

Module AnimationTimeouts.
Import AnimationManager.

Definition is_width_of (n : node) (cb : Callback) : bool :=
  match cb with
  | SetWidth m _ => bool_decide (m = n)
  | Reveal _ _ => false
  end.

(** How many width assignments of [n] have been scheduled. *)
Definition widths_of (n : node) (q : list (option Z * Callback)) : nat :=
  length (filter (λ t, is_width_of n t.2 = true) q).

(** Whatever was scheduled for [n] was scheduled once, and [n] is in
    [animatedElements] from then on. *)
Definition claimed_once (n : node) (s : State) : Prop :=
  (reveals_of n (timeouts s) + widths_of n (timeouts s) ≤ 1)%nat ∧
  (n ∉ animatedElements s →
   (reveals_of n (timeouts s) + widths_of n (timeouts s) = 0)%nat).

End AnimationTimeouts.

Module GallerySession.
Import ProjectsManager.

(** A click on a filter control, and the 300ms after it. *)
Definition click (filter : string) (s : State) : State :=
  settled (filterProjects filter s).

Definition clicks (filters : list string) (s : State) : State :=
  foldl (λ s filter, click filter s) s filters.

(** The cards on screen are those the current filter selects, and the
    highlighted controls are those of the current filter. *)
Definition consistent (s : State) : Prop :=
  (∀ card, card ∈ projectCards s →
           visible card = shouldShow (currentFilter s) card) ∧
  (∀ btn, btn ∈ filterBtns s →
          "active" ∈ btn_classList btn ↔
          data_filter btn = Some (currentFilter s)).

End GallerySession.

Module SkillsSession.
Import SkillsManager.

Global Instance Callback_eq_dec : EqDecision Callback.
Proof. solve_decision. Defined.

(** Bar [j] of category block [i]. *)
Definition bar_at (s : State) (i j : nat) : option SkillBar :=
  cat ← skillCategories s !! i; skillBars cat !! j.

(** The state once the timeouts registered by a [switchCategory] call
    have fired, when no timeout of an earlier call was pending. *)
Definition settled (width_kept : string → option string)
    (r : State * list (Timers.timeout Callback)) : State :=
  Timers.run_all (run width_kept) r.2 r.1.

End SkillsSession.

(* ===================================================================== *)
(** * The contact form: payload and outbound calls                        *)
(* ===================================================================== *)

Module ContactPayload.
Import ContactFormManager.

(** The object the [try] block builds for the relay, as a function of the
    controls: the part of [prepare] that does not write to the console. *)
Definition templateParams_of (fs : list Field) : gmap string string :=
  foldl (λ tp kv, <[kv.1 := kv.2]> tp) ∅ (formData_entries fs).

Definition payload_of (env : Env) (fs : list Field) : gmap string string :=
  let nameField := querySelector input "name" fs in
  let emailField := querySelector input "email" fs in
  let companyField := querySelector input "company" fs in
  let budgetField := querySelector select "budget" fs in
  let serviceField := querySelector select "service" fs in
  let messageField := querySelector textarea "message" fs in
  let templateParams :=
    capture "message" messageField
      (capture "service" serviceField
         (capture "budget" budgetField
            (capture "company" companyField
               (capture "email" emailField
                  (capture "name" nameField (templateParams_of fs)))))) in
  let templateParams :=
    <["page_url" := href env]>
      (<["user_agent" := userAgent env]>
         (<["timestamp" := now_iso env]> templateParams)) in
  build_finalTemplateParams templateParams nameField emailField
    companyField budgetField serviceField messageField.

(** What [FormData] holds under a key: the value of the last control of
    that name. *)
Definition formData_value (key : string) (fs : list Field) : option string :=
  last ((λ kv, kv.2) <$> filter (λ kv, kv.1 = key) (formData_entries fs)).

(** The value submitted for a key whose control is also read directly with
    [querySelector('#<key>, <tag>[name="<key>"]')]: the directly read value
    unless it is empty or there is no such control, else the [FormData]
    value, else the empty string. *)
Definition submitted (t : Tag) (key : string) (fs : list Field) : string :=
  match value_of (querySelector t key fs) with
  | Some v => if JS.truthy v then v else JS.or_else (formData_value key fs) ""
  | None => JS.or_else (formData_value key fs) ""
  end.

(** The controls after the validation loop of a submission. *)
Definition validated_fields (fs : list Field) : list Field :=
  (λ g, if required g then marked (verdict (check g)) g else g) <$> fs.

Definition is_send (e : Effect) : bool :=
  match e with emailjs_send _ _ _ => true | _ => false end.

(** The number of calls of the email relay among the effects. *)
Definition sends (es : list Effect) : nat :=
  length (filter (λ e, is_send e = true) es).

(** Every [required] control passes the rule chain. *)
Definition form_valid (fs : list Field) : bool :=
  forallb (λ g, implb (required g) (check g).1) fs.

(** The state a call of the handler leaves, whether it returned or is
    suspended. *)
Definition state_of (o : Outcome) : State :=
  match o with
  | Returned s => s
  | Awaiting _ s => s
  end.

(** The control carries no trace of a validation error. *)
Definition pristine (i : nat) (s : State) : Prop :=
  ∃ f, fields s !! i = Some f ∧
       ("error" ∉ classList f) ∧ aria_invalid f = None ∧
       ∀ el, errorElements s !! error_id f = Some el →
             err_textContent el = "" ∧ ("show" ∉ err_classList el).

End ContactPayload.

(* ===================================================================== *)
(** * Tooltips of the tech stack and the interaction metric               *)
(* ===================================================================== *)

(** [AnimationManager.showTooltip] and [hideTooltip].  Of the page only
    the elements of class [tooltip] matter; they are kept in document
    order, so that [document.querySelector('.tooltip')] is the head.  Of a
    tooltip's style the model keeps [opacity] and [transform], which the
    callbacks write; the constant [cssText] and the position computed from
    the layout are left out.  Each created element gets a fresh number;
    the callbacks of [requestAnimationFrame] and [setTimeout] hold on to
    the element they were created for, attached or not. *)
Module Tooltips.

Record Tooltip : Type := {
  element : positive;
  textContent : string;
  opacity : string;
  transform : string
}.

Record State : Type := {
  tooltips : list Tooltip;     (* the attached [.tooltip] elements *)
  next_element : positive;
  frames : list positive;      (* pending animation-frame callbacks *)
  removals : list positive     (* pending 200ms removal timers *)
}.

Definition restyle (o t : string) (tip : Tooltip) : Tooltip :=
  {| element := element tip; textContent := textContent tip;
     opacity := o; transform := t |}.

(** Writes the style of element [h] where it is attached; on a detached
    element the write shows nowhere. *)
Definition restyle_element (h : positive) (o t : string) (tips : list Tooltip)
  : list Tooltip :=
  (λ tip, if decide (element tip = h) then restyle o t tip else tip) <$> tips.

(** [el.remove()] *)
Definition remove_element (h : positive) (tips : list Tooltip) : list Tooltip :=
  filter (λ tip, element tip ≠ h) tips.

Definition showTooltip (text : string) (s : State) : State :=
  let attached :=
    match head (tooltips s) with
    | Some existing => remove_element (element existing) (tooltips s)
    | None => tooltips s
    end in
  let tooltip :=
    {| element := next_element s; textContent := text;
       opacity := "0"; transform := "translateY(10px)" |} in
  {| tooltips := attached ++ [tooltip];
     next_element := Pos.succ (next_element s);
     frames := frames s ++ [next_element s];
     removals := removals s |}.

Definition hideTooltip (s : State) : State :=
  match head (tooltips s) with
  | Some tooltip =>
      {| tooltips :=
           restyle_element (element tooltip) "0" "translateY(10px)" (tooltips s);
         next_element := next_element s;
         frames := frames s;
         removals := removals s ++ [element tooltip] |}
  | None => s
  end.

(** What can happen to the page. *)
Inductive Event : Type :=
  | MouseEnter (data_tooltip : option string)  (* over a [.tech-item] *)
  | MouseLeave
  | Frame (h : positive)      (* the animation frame requested for [h] *)
  | Timeout (h : positive).   (* the removal timer set for [h] *)

(** The pending callbacks once the one for [h] has run. *)
Fixpoint remove_first (h : positive) (l : list positive) : list positive :=
  match l with
  | [] => []
  | x :: l' => if decide (x = h) then l' else x :: remove_first h l'
  end.

Definition handle (ev : Event) (s : State) : State :=
  match ev with
  | MouseEnter data_tooltip =>
      match data_tooltip with
      | Some tooltip => if JS.truthy tooltip then showTooltip tooltip s else s
      | None => s
      end
  | MouseLeave => hideTooltip s
  | Frame h =>
      if decide (h ∈ frames s) then
        {| tooltips := restyle_element h "1" "translateY(0)" (tooltips s);
           next_element := next_element s;
           frames := remove_first h (frames s);
           removals := removals s |}
      else s
  | Timeout h =>
      if decide (h ∈ removals s) then
        {| tooltips := remove_element h (tooltips s);
           next_element := next_element s;
           frames := frames s;
           removals := remove_first h (removals s) |}
      else s
  end.

Definition run (evs : list Event) (s : State) : State :=
  foldl (λ s ev, handle ev s) s evs.

(** The texts handed to [showTooltip], oldest first. *)
Definition shown (evs : list Event) : list string :=
  omap (λ ev, match ev with
              | MouseEnter (Some text) =>
                  if JS.truthy text then Some text else None
              | _ => None
              end) evs.

(** Element numbers in use are below the next one to be given out. *)
Definition well_formed (s : State) : Prop :=
  (∀ h, h ∈ removals s → (h < next_element s)%positive) ∧
  (∀ tip, tip ∈ tooltips s → (element tip < next_element s)%positive).

(** A page without tooltips, as it is loaded. *)
Definition loaded : State :=
  {| tooltips := []; next_element := 1%positive; frames := [];
     removals := [] |}.

End Tooltips.

(** [PerformanceMonitor.monitorUserInteractions]: the closure variable
    [firstInteraction], the metric it guards, and the event types for
    which [recordInteraction] is registered on the document. *)
Module PerformanceMonitor.

Record State : Type := {
  firstInteraction : bool;
  timeToFirstInteraction : option Q;   (* metrics.timeToFirstInteraction *)
  listeners : gset string
}.

Definition interactions : list string := ["click"; "keydown"; "touchstart"].

(** The state [monitorUserInteractions] sets up. *)
Definition monitorUserInteractions : State :=
  {| firstInteraction := false;
     timeToFirstInteraction := None;
     listeners := list_to_set interactions |}.

(** [recordInteraction], called when [performance.now()] is [now]. *)
Definition recordInteraction (now : Q) (s : State) : State :=
  if negb (firstInteraction s) then
    {| firstInteraction := true;
       timeToFirstInteraction := Some now;
       listeners := foldl (λ ls event, ls ∖ {[ event ]}) (listeners s)
                      interactions |}
  else s.

(** The document receives an event of type [type] at time [now]. *)
Definition dispatch (ev : string * Q) (s : State) : State :=
  if decide (ev.1 ∈ listeners s) then recordInteraction ev.2 s else s.

Definition run (evs : list (string * Q)) (s : State) : State :=
  foldl (λ s ev, dispatch ev s) s evs.

End PerformanceMonitor.

(* ===================================================================== *)
(** * More sample pages                                                   *)
(* ===================================================================== *)

Module Samples.

(** The navigation bar as loaded on a narrow screen: menu closed, three
    bars, two links to sections of the page and one that leaves it. *)
Definition nav : NavigationManager.State :=
  {| NavigationManager.navbar_classList := {[ "navbar" ]};
     NavigationManager.navMenu_classList := {[ "nav-menu" ]};
     NavigationManager.aria_expanded := Some "false";
     NavigationManager.bars := [ ""; ""; "" ];
     NavigationManager.body_overflow := "";
     NavigationManager.navLinks :=
       [ {| NavigationManager.href := "#about";
            NavigationManager.link_classList := {[ "nav-link" ]} |};
         {| NavigationManager.href := "#contact";
            NavigationManager.link_classList := {[ "nav-link" ]} |};
         {| NavigationManager.href := "https://github.com/";
            NavigationManager.link_classList := {[ "nav-link" ]} |} ];
     NavigationManager.isMenuOpen := false;
     NavigationManager.offsetTops :=
       <["about" := 800]> (<["contact" := 2400]> ∅);
     NavigationManager.scrollTo_calls := [];
     NavigationManager.scrollHandler := Throttle.throttle |}.

(** A batch of the section observer: [about] leaves the band, [contact]
    enters it. *)
Definition sections : list NavigationManager.Entry :=
  [ {| NavigationManager.isIntersecting := true;
       NavigationManager.target_id := "about" |};
    {| NavigationManager.isIntersecting := false;
       NavigationManager.target_id := "about" |};
    {| NavigationManager.isIntersecting := true;
       NavigationManager.target_id := "contact" |} ].

(** The same bar with the menu opened by the toggle. *)
Definition nav_open : NavigationManager.State :=
  NavigationManager.toggleMobileMenu nav.

Definition skill_btn (category : string) (active : bool)
  : SkillsManager.NavBtn :=
  {| SkillsManager.btn_data_category := Some category;
     SkillsManager.btn_classList :=
       if active then {[ "skill-nav-btn"; "active" ]}
       else {[ "skill-nav-btn" ]} |}.

Definition skill_bar (width : string) : SkillsManager.SkillBar :=
  {| SkillsManager.data_width := Some width;
     SkillsManager.style_width := "0" |}.

(** The skills panel as loaded: two categories, [frontend] shown. *)
Definition skills : SkillsManager.State :=
  {| SkillsManager.skillNavBtns :=
       [ skill_btn "frontend" true; skill_btn "backend" false ];
     SkillsManager.skillCategories :=
       [ {| SkillsManager.cat_data_category := Some "frontend";
            SkillsManager.cat_classList := {[ "skill-category"; "active" ]};
            SkillsManager.skillBars := [ skill_bar "90%"; skill_bar "85%" ] |};
         {| SkillsManager.cat_data_category := Some "backend";
            SkillsManager.cat_classList := {[ "skill-category" ]};
            SkillsManager.skillBars :=
              [ skill_bar "80%"; skill_bar "wide" ] |} ];
     SkillsManager.currentCategory := "frontend" |}.

(** A style declaration that knows percentages only: digits followed by
    the percent sign. *)
Definition percentages (width : string) : option string :=
  if JS.test
       (JS.Seq (JS.Plus (JS.Class NavigationManager.is_digit)) (JS.Chr "%"))
       width
  then Some width else None.

(** The contact form with the name left blank. *)
Definition anonymous : ContactFormManager.State :=
  Examples.contact "" "jane@example.com" "" "" "Hello" false.

(** What a suspended submission holds. *)
Definition pending : ContactFormManager.Pending :=
  {| ContactFormManager.originalContent := "<span>Send Message</span>";
     ContactFormManager.finalTemplateParams := ∅ |}.

End Samples.

(* ===================================================================== *)
(** * The gallery on the event loop                                       *)
(* ===================================================================== *)

(** [filterProjects] registers its timeouts and returns; nothing in the
    script cancels them.  Here the gallery is kept together with the clock
    and with the timeouts that are registered and have not fired, each with
    the time at which it is due, in firing order. *)
Module GalleryClock.
Import ProjectsManager.

Record Page : Type := {
  gallery : State;
  now : Z;                                   (* milliseconds *)
  pending : list (Timers.timeout Callback)   (* due time and callback *)
}.

(** The page with no timeout pending. *)
Definition loaded (s : State) : Page :=
  {| gallery := s; now := 0; pending := [] |}.

(** A timeout registered at time [now] with its delay is due at the sum. *)
Definition due_at (now : Z) (t : Timers.timeout Callback)
  : Timers.timeout Callback := (now + t.1, t.2).

(** [setTimeout(callback, delay)] for each timeout of [q], called at time
    [now]. *)
Definition register (now : Z) (pending q : list (Timers.timeout Callback))
  : list (Timers.timeout Callback) :=
  foldl (λ acc t, Timers.insert_due (due_at now t) acc) pending q.

(** A click on the control of [filter]. *)
Definition click (filter : string) (p : Page) : Page :=
  let r := filterProjects filter (gallery p) in
  {| gallery := r.1; now := now p;
     pending := register (now p) (pending p) r.2 |}.

(** [ms] milliseconds pass without a click: the timeouts due by then fire,
    in firing order, and the others stay pending. *)
Definition wait (ms : Z) (p : Page) : Page :=
  {| gallery :=
       foldl (λ s t, run t.2 s) (gallery p)
         (filter (λ t, t.1 ≤ now p + ms) (pending p));
     now := now p + ms;
     pending := filter (λ t, ¬ t.1 ≤ now p + ms) (pending p) |}.

End GalleryClock.

(* ===================================================================== *)
(** * [showLoading] and [hideLoading] on the DOM                          *)
(* ===================================================================== *)

(** An element does not keep the string assigned to [innerHTML]: the
    browser parses it into child nodes, and a read serialises the child
    nodes.  What a read gives after a string has been assigned is a
    function of that string which belongs to the browser and not to the
    script; it is the parameter [reserialise] of this module, and the
    field [Utils.innerHTML] of an element is what a read gives.

    Markup that the browser has serialised itself reads back unchanged in
    the usual case, not in every case (the parser moves or closes elements
    that may not nest).  [Utils.showLoading] and [Utils.hideLoading] above
    are these helpers where every string involved reads back as assigned,
    which is how [ContactFormManager] uses them: with the constant text
    ['Sending...'] and the content read from the submit control. *)
Module InnerHTML.

Section Browser.

Variable reserialise : string → string.

Definition showLoading (element : Utils.Control) (text : string)
  : Utils.Control * string :=
  let originalContent := Utils.innerHTML element in
  ({| Utils.innerHTML := reserialise (Utils.spinner_markup text);
      Utils.disabled := true |},
   originalContent).

Definition hideLoading (element : Utils.Control) (originalContent : string)
  : Utils.Control :=
  {| Utils.innerHTML := reserialise originalContent;
     Utils.disabled := false |}.

End Browser.




End InnerHTML.

(* ===================================================================== *)
(** * Properties of the built-ins                                         *)
(* ===================================================================== *)

Module JSFacts.
Import JS.

Lemma string_app_cons c s t : String c s +:+ t = String c (s +:+ t).
Proof. reflexivity. Qed.

Lemma string_app_nil_r s : s +:+ "" = s.
Proof. induction s as [|c s IH]; [done|]. by rewrite string_app_cons, IH. Qed.

Lemma string_app_assoc s t u : (s +:+ t) +:+ u = s +:+ t +:+ u.
Proof. induction s as [|c s IH]; [done|]. by rewrite !string_app_cons, IH. Qed.

Lemma string_app_eq_nil s t : s +:+ t = "" → s = "" ∧ t = "".
Proof. destruct s; [done|]. by rewrite string_app_cons. Qed.

Lemma string_length_app s t :
  String.length (s +:+ t) = (String.length s + String.length t)%nat.
Proof. induction s as [|c s IH]; [done|]. rewrite string_app_cons. simpl. by rewrite IH. Qed.

Lemma ascii_eqb_true a b : ascii_eqb a b = true ↔ a = b.
Proof. unfold ascii_eqb. by rewrite bool_decide_eq_true. Qed.

Lemma truthy_true s : truthy s = true ↔ s ≠ "".
Proof. by destruct s. Qed.


Lemma all_chars_app p s t :
  all_chars p (s +:+ t) = all_chars p s && all_chars p t.
Proof.
  induction s as [|c s IH]; [done|].
  rewrite string_app_cons. simpl. rewrite IH. by destruct (p c).
Qed.

(** ** Substrings *)

Lemma startsWith_spec p s : startsWith p s = true ↔ ∃ b, s = p +:+ b.
Proof.
  revert s. induction p as [|a p IH]; intros s; simpl.
  - split; [intros _; by exists s | done].
  - destruct s as [|b s].
    + split; [done | intros [? ?]; by rewrite string_app_cons in *].
    + rewrite andb_true_iff, ascii_eqb_true, IH. split.
      * intros [-> [t ->]]. by exists t.
      * intros [t Ht]. rewrite string_app_cons in Ht. injection Ht as -> ->. eauto.
Qed.

Lemma includes_spec s p : includes s p = true ↔ ∃ a b, s = a +:+ p +:+ b.
Proof.
  induction s as [|c s IH].
  - simpl. rewrite orb_false_r, startsWith_spec. split.
    + intros [b ->]. by exists "", b.
    + intros (a & b & H). symmetry in H.
      apply string_app_eq_nil in H as [-> H]. exists b. by rewrite H.
  - cbn [includes]. rewrite orb_true_iff, startsWith_spec, IH. split.
    + intros [[b ->] | (a & b & ->)].
      * by exists "", b.
      * by exists (String c a), b.
    + intros (a & b & H). destruct a as [|c' a].
      * left. by exists b.
      * right. rewrite string_app_cons in H. injection H as -> ->. eauto.
Qed.

(** ** Matching by derivatives decides the language *)

Lemma lang_seq_inv a b s :
  lang (Seq a b) s ↔ ∃ s1 s2, s = s1 +:+ s2 ∧ lang a s1 ∧ lang b s2.
Proof.
  split.
  - inversion 1; subst; eauto.
  - intros (s1 & s2 & -> & ? & ?). by constructor.
Qed.

Lemma lang_alt_inv a b s : lang (Alt a b) s ↔ lang a s ∨ lang b s.
Proof.
  split.
  - inversion 1; subst; auto.
  - intros [?|?]; [by apply lang_alt_l | by apply lang_alt_r].
Qed.

Lemma nullable_spec r : nullable r = true ↔ lang r "".
Proof.
  induction r as [| |p|a IHa b IHb|a IHa b IHb|a IHa]; simpl.
  - split; [done | inversion 1].
  - split; [constructor | done].
  - split; [done | inversion 1].
  - rewrite andb_true_iff, IHa, IHb, lang_seq_inv. split.
    + intros [Ha Hb]. by exists "", "".
    + intros (s1 & s2 & Heq & Ha & Hb).
      symmetry in Heq. apply string_app_eq_nil in Heq as [-> ->]. done.
  - by rewrite orb_true_iff, IHa, IHb, lang_alt_inv.
  - split; [constructor | done].
Qed.

Lemma deriv_sound c r : ∀ s, lang (deriv c r) s → lang r (String c s).
Proof.
  induction r as [| |p|a IHa b IHb|a IHa b IHb|a IHa]; intros s; simpl.
  - inversion 1.
  - inversion 1.
  - destruct (p c) eqn:Hp; inversion 1; subst. by constructor.
  - assert (∀ w, lang (Seq (deriv c a) b) w → lang (Seq a b) (String c w))
      as Hseq.
    { intros w (s1 & t & -> & H1 & H2)%lang_seq_inv.
      rewrite <- string_app_cons. constructor; auto. }
    destruct (nullable a) eqn:Hn; [|by auto].
    intros [Hl|Hr]%lang_alt_inv; [by auto|].
    apply (lang_seq a b "" (String c s)); [by apply nullable_spec | auto].
  - intros [?|?]%lang_alt_inv; [apply lang_alt_l | apply lang_alt_r]; auto.
  - intros (s1 & t & -> & H1 & H2)%lang_seq_inv.
    rewrite <- string_app_cons. constructor; auto.
Qed.

Lemma deriv_complete r w :
  lang r w → ∀ c s, w = String c s → lang (deriv c r) s.
Proof.
  induction 1 as [|p c0 Hp|a b s1 t Ha IHa Hb IHb|a b s1 Ha IHa|a b s1 Hb IHb
                 |a|a s1 t Ha IHa Hs IHs]; intros c s Heq; simpl.
  - done.
  - injection Heq as -> <-. rewrite Hp. constructor.
  - destruct s1 as [|c1 s1].
    + change (t = String c s) in Heq.
      apply nullable_spec in Ha. rewrite Ha. apply lang_alt_r. eauto.
    + rewrite string_app_cons in Heq. injection Heq as -> <-.
      assert (lang (Seq (deriv c a) b) (s1 +:+ t)) by (constructor; eauto).
      destruct (nullable a); [by apply lang_alt_l | done].
  - apply lang_alt_l. eauto.
  - apply lang_alt_r. eauto.
  - done.
  - destruct s1 as [|c1 s1].
    + change (t = String c s) in Heq. apply (IHs _ _ Heq).
    + rewrite string_app_cons in Heq. injection Heq as -> <-.
      constructor; eauto.
Qed.

Theorem test_spec r s : test r s = true ↔ lang r s.
Proof.
  revert r. induction s as [|c s IH]; intros r; simpl.
  - apply nullable_spec.
  - rewrite IH. split; [apply deriv_sound |].
    intros H. by eapply deriv_complete.
Qed.

(** ** The shapes used by the email pattern *)

Lemma lang_class_inv p s :
  lang (Class p) s ↔ ∃ c, s = String c "" ∧ p c = true.
Proof.
  split.
  - inversion 1; subst; eauto.
  - intros (c & -> & ?). by constructor.
Qed.

Lemma lang_chr_inv c s : lang (Chr c) s ↔ s = String c "".
Proof.
  unfold Chr. rewrite lang_class_inv. split.
  - intros (c' & -> & H). apply ascii_eqb_true in H. by subst.
  - intros ->. exists c. split; [done | by apply ascii_eqb_true].
Qed.

Lemma lang_star_class p s : lang (Star (Class p)) s ↔ all_chars p s = true.
Proof.
  split.
  - remember (Star (Class p)) as r eqn:Hr. induction 1; try done.
    injection Hr as ->. rewrite all_chars_app.
    match goal with H : lang (Class p) _ |- _ =>
      apply lang_class_inv in H as (c & -> & Hc) end.
    simpl. rewrite Hc. simpl. auto.
  - induction s as [|c s IH]; simpl; [constructor|].
    intros [Hc Hs]%andb_true_iff.
    apply (lang_star_cons (Class p) (String c "") s); [by constructor | auto].
Qed.

Lemma lang_plus_class p s :
  lang (Plus (Class p)) s ↔ s ≠ "" ∧ all_chars p s = true.
Proof.
  unfold Plus. rewrite lang_seq_inv. split.
  - intros (s1 & s2 & -> & (c & -> & Hc)%lang_class_inv & Hs%lang_star_class).
    split; [done|]. rewrite all_chars_app. simpl. by rewrite Hc, Hs.
  - intros [Hne Hall]. destruct s as [|c s]; [done|]. simpl in Hall.
    apply andb_true_iff in Hall as [Hc Hs].
    exists (String c ""), s. split; [done|].
    split; [by constructor | by apply lang_star_class].
Qed.

End JSFacts.

(* ===================================================================== *)
(** * [Utils]: properties                                                 *)
(* ===================================================================== *)

Module UtilsFacts.
Import JS JSFacts Utils.

(** ** [isValidEmail] *)

Lemma isValidEmail_spec email : isValidEmail email = true ↔ email_shape email.
Proof.
  unfold isValidEmail, emailRegex, email_shape, word.
  rewrite test_spec. split.
  - intros (l & r1 & -> & Hl%lang_plus_class &
            (a & r2 & -> & ->%lang_chr_inv &
             (d & r3 & -> & Hd%lang_plus_class &
              (b & t & -> & ->%lang_chr_inv & Ht%lang_plus_class)%lang_seq_inv
             )%lang_seq_inv)%lang_seq_inv)%lang_seq_inv.
    by exists l, d, t.
  - intros (l & d & t & -> & Hl & Hd & Ht).
    constructor; [by apply lang_plus_class|].
    constructor; [by apply lang_chr_inv|].
    constructor; [by apply lang_plus_class|].
    constructor; [by apply lang_chr_inv | by apply lang_plus_class].
Qed.

Example isValidEmail_accepts : isValidEmail "jane@example.com" = true.
Proof. reflexivity. Qed.

Example isValidEmail_rejects : isValidEmail "not-an-email" = false.
Proof. reflexivity. Qed.

(** ** [animateCounter] *)

Lemma Qltb_true a b : Qltb a b = true ↔ (a < b)%Q.
Proof.
  unfold Qltb. rewrite Qlt_alt. destruct (a ?= b)%Q; split; congruence.
Qed.

Lemma Qleb_true a b : Qleb a b = true ↔ (a <= b)%Q.
Proof.
  unfold Qleb. rewrite Qle_alt. destruct (a ?= b)%Q; split; congruence.
Qed.

Lemma Qltb_false a b : Qltb a b = false ↔ (b <= a)%Q.
Proof.
  rewrite <- not_true_iff_false, Qltb_true. split.
  - apply Qnot_lt_le.
  - apply Qle_not_lt.
Qed.

Lemma Qleb_false a b : Qleb a b = false ↔ (b < a)%Q.
Proof.
  rewrite <- not_true_iff_false, Qleb_true. split.
  - apply Qnot_le_lt.
  - apply Qlt_not_le.
Qed.

(** With a zero increment a tick changes nothing but the representation
    of [current]: the interval stays registered. *)
Lemma tick_zero_increment a :
  timer_active a = true → (increment a == 0)%Q →
  (current a == inject_Z (target a))%Q →
  timer_active (tick a) = true ∧ increment (tick a) = increment a ∧
  target (tick a) = target a ∧
  (current (tick a) == inject_Z (target a))%Q ∧
  textContent (tick a) = number_to_string (target a).
Proof.
  intros Ht Hi Hc. unfold tick. rewrite Ht.
  assert (Qltb 0 (increment a) = false) as ->
    by (apply Qltb_false; rewrite Hi; apply Qle_refl).
  assert (Qltb (increment a) 0 = false) as ->
    by (apply Qltb_false; rewrite Hi; apply Qle_refl).
  cbn [andb orb negb].
  assert (current a + increment a == inject_Z (target a))%Q as Heq
    by (rewrite Hi, Hc; ring).
  repeat split; [done|]. cbn [textContent].
  unfold number_to_string. f_equal.
  rewrite <- (Qfloor_Z (target a)). by apply Qfloor_comp.
Qed.

Lemma ticks_zero_increment n : ∀ a,
  timer_active a = true → (increment a == 0)%Q →
  (current a == inject_Z (target a))%Q →
  timer_active (ticks n a) = true ∧
  (n ≠ 0%nat → textContent (ticks n a) = number_to_string (target a)).
Proof.
  induction n as [|n IH]; intros a Ht Hi Hc; simpl; [done|].
  destruct (tick_zero_increment a Ht Hi Hc) as (Ht' & Hi' & Htg & Hc' & Htx).
  destruct (IH (tick a)) as [IH1 IH2]; [done | by rewrite Hi' | by rewrite Htg |].
  split; [done|]. intros _. destruct n as [|n]; [done|].
  rewrite IH2, Htg; done.
Qed.

(** C2, on the case it includes explicitly: when the displayed value
    already equals the target the increment is zero, neither overshoot
    test can succeed, and the interval is still registered after any
    number of firings (the display stays at the target). *)
Theorem animateCounter_equal_start_never_clears
    (text : string) (tgt : Z) (duration : Q) (n : nat) :
  default 0 (parseInt text) = tgt →
  timer_active (ticks n (animateCounter text tgt duration)) = true ∧
  (n ≠ 0%nat →
   textContent (ticks n (animateCounter text tgt duration))
   = number_to_string tgt).
Proof.
  intros Hstart.
  apply (ticks_zero_increment n (animateCounter text tgt duration)).
  - done.
  - cbn [animateCounter increment]. rewrite Hstart. unfold Qdiv. ring.
  - cbn [animateCounter current target]. by rewrite Hstart.
Qed.

Lemma animateCounter_equal_start_never_clears_witness :
  default 0 (parseInt "5") = 5 ∧
  timer_active (ticks 1000 (animateCounter "5" 5 counterSpeed)) = true.
Proof.
  split; [reflexivity|].
  apply (animateCounter_equal_start_never_clears "5" 5 counterSpeed 1000).
  reflexivity.
Defined.

(** A tick that does not reach the target moves [current] by
    [increment]; one that reaches it clamps, shows the target and clears
    the interval. *)
Lemma tick_continue a :
  timer_active a = true →
  ((0 < increment a ∧ current a + increment a < inject_Z (target a)) ∨
   (increment a < 0 ∧ inject_Z (target a) < current a + increment a))%Q →
  tick a =
  {| textContent := number_to_string (Qfloor (current a + increment a));
     target := target a; increment := increment a;
     current := (current a + increment a)%Q; timer_active := true |}.
Proof.
  intros Ht H. unfold tick. rewrite Ht.
  assert ((Qltb 0 (increment a) &&
           Qleb (inject_Z (target a)) (current a + increment a)) ||
          (Qltb (increment a) 0 &&
           Qleb (current a + increment a) (inject_Z (target a))) = false) as ->;
    [|done].
  apply orb_false_iff. rewrite !andb_false_iff, !Qltb_false, !Qleb_false.
  destruct H as [[? ?]|[? ?]]; split; auto; left; lra.
Qed.

Lemma tick_reach a :
  timer_active a = true →
  ((0 < increment a ∧ inject_Z (target a) <= current a + increment a) ∨
   (increment a < 0 ∧ current a + increment a <= inject_Z (target a)))%Q →
  tick a =
  {| textContent := number_to_string (target a);
     target := target a; increment := increment a;
     current := inject_Z (target a); timer_active := false |}.
Proof.
  intros Ht H. unfold tick. rewrite Ht.
  assert ((Qltb 0 (increment a) &&
           Qleb (inject_Z (target a)) (current a + increment a)) ||
          (Qltb (increment a) 0 &&
           Qleb (current a + increment a) (inject_Z (target a))) = true) as ->.
  { apply orb_true_iff. rewrite !andb_true_iff, !Qltb_true, !Qleb_true.
    tauto. }
  cbn [negb]. by rewrite Qfloor_Z.
Qed.

Lemma ticks_succ n : ∀ a, ticks (S n) a = tick (ticks n a).
Proof. induction n as [|n IH]; intros a; [done|]. cbn [ticks]. by rewrite <- IH. Qed.

(** The counter after [i] of [d] whole steps of [k]. *)
Lemma tick_whole_step a (start k : Z) (i d : nat) :
  k ≠ 0 → (i < d)%nat →
  timer_active a = true →
  target a = start + k * Z.of_nat d →
  (increment a == inject_Z k)%Q →
  (current a == inject_Z (start + k * Z.of_nat i))%Q →
  target (tick a) = target a ∧
  (increment (tick a) == inject_Z k)%Q ∧
  (current (tick a) == inject_Z (start + k * Z.of_nat (S i)))%Q ∧
  textContent (tick a) = number_to_string (start + k * Z.of_nat (S i)) ∧
  timer_active (tick a) = negb (bool_decide (S i = d)).
Proof.
  intros Hk Hi Ht Htgt Hinc Hcur.
  assert (current a + increment a == inject_Z (start + k * Z.of_nat (S i)))%Q
    as Hsum.
  { replace (start + k * Z.of_nat (S i)) with (start + k * Z.of_nat i + k)
      by lia.
    by rewrite inject_Z_plus, Hcur, Hinc. }
  assert (∀ x y : Z, (inject_Z x < inject_Z y)%Q ↔ x < y) as Hlt.
  { intros x y. unfold Qlt. cbn. lia. }
  assert (∀ x y : Z, (inject_Z x <= inject_Z y)%Q ↔ x ≤ y) as Hle.
  { intros x y. unfold Qle. cbn. lia. }
  destruct (decide (S i = d)) as [Hlast|Hmore].
  - (* the last step lands on the target *)
    assert (start + k * Z.of_nat (S i) = target a) as Hz
      by (rewrite Htgt, Hlast; done).
    rewrite Hz in *. rewrite bool_decide_eq_true_2 by done. cbn [negb].
    rewrite (tick_reach a Ht); [cbn; by rewrite Hinc|].
    rewrite Hsum, Hinc. change 0%Q with (inject_Z 0). rewrite !Hlt, !Hle.
    lia.
  - rewrite bool_decide_eq_false_2 by done. cbn [negb].
    rewrite (tick_continue a Ht).
    + cbn [target increment current textContent timer_active].
      split; [done|]. split; [done|]. split; [done|]. split; [|done].
      f_equal. rewrite <- (Qfloor_Z (start + k * Z.of_nat (S i))).
      by apply Qfloor_comp.
    + rewrite Hsum, Hinc, Htgt. change 0%Q with (inject_Z 0). rewrite !Hlt.
      nia.
Qed.

Lemma ticks_whole_steps text (tgt k : Z) (d : nat) (duration : Q) :
  k ≠ 0 → (0 < d)%nat →
  (duration == inject_Z (16 * Z.of_nat d))%Q →
  tgt = default 0 (parseInt text) + k * Z.of_nat d →
  ∀ i, (i ≤ d)%nat →
    let a := ticks i (animateCounter text tgt duration) in
    target a = tgt ∧ (increment a == inject_Z k)%Q ∧
    (current a
     == inject_Z (default 0%Z (parseInt text) + k * Z.of_nat i))%Q ∧
    (i ≠ 0%nat →
     textContent a
     = number_to_string (default 0 (parseInt text) + k * Z.of_nat i)) ∧
    timer_active a = negb (bool_decide (i = d)).
Proof.
  intros Hk Hd Hdur Htgt. set (start := default 0 (parseInt text)) in *.
  induction i as [|i IH]; intros Hi; cbn zeta.
  - cbn [ticks animateCounter target increment current timer_active].
    fold start. split; [done|]. split; [|split; [|split; [done|]]].
    + rewrite Hdur, Htgt.
      assert (inject_Z (Z.of_nat d) > 0)%Q as Hpos
        by (unfold Qlt; cbn; lia).
      rewrite !inject_Z_plus, !inject_Z_mult.
      change (inject_Z 16) with 16%Q. field. lra.
    + by replace (start + k * Z.of_nat 0) with start by lia.
    + rewrite bool_decide_eq_false_2 by lia. done.
  - destruct IH as (I1 & I2 & I3 & _ & I5); [lia|].
    rewrite bool_decide_eq_false_2 in I5 by lia. cbn [negb] in I5.
    rewrite ticks_succ.
    destruct (tick_whole_step _ start k i d Hk ltac:(lia) I5
                ltac:(by rewrite I1) I2 I3) as (T1 & T2 & T3 & T4 & T5).
    split; [by rewrite T1|]. split; [done|]. split; [done|].
    split; [done|]. done.
Qed.

(** Where the step is a whole number, the quotient, the sums and the
    comparisons of the source are on whole numbers, which doubles handle
    without rounding while they stay within [2^53]; the bounds of [2^52]
    on the displayed value and on the target keep their difference and
    every sum within it.  There the model computes what the source
    computes: with a duration of [16 * d] milliseconds and a target [d]
    whole steps of [k] away from the displayed value, the counter shows
    the value after each step while the interval runs, and with the
    [d]-th firing it shows the target and the interval is cleared. *)
Theorem animateCounter_reaches_target
    (text : string) (tgt k : Z) (d : nat) (duration : Q) :
  k ≠ 0 → (0 < d)%nat →
  (duration == inject_Z (16 * Z.of_nat d))%Q →
  tgt = default 0 (parseInt text) + k * Z.of_nat d →
  - 2 ^ 52 ≤ default 0 (parseInt text) ≤ 2 ^ 52 →
  - 2 ^ 52 ≤ tgt ≤ 2 ^ 52 →
  (∀ i, (0 < i < d)%nat →
     timer_active (ticks i (animateCounter text tgt duration)) = true ∧
     textContent (ticks i (animateCounter text tgt duration))
     = number_to_string (default 0 (parseInt text) + k * Z.of_nat i)) ∧
  timer_active (ticks d (animateCounter text tgt duration)) = false ∧
  textContent (ticks d (animateCounter text tgt duration))
  = number_to_string tgt.
Proof.
  intros Hk Hd Hdur Htgt _ _.
  pose proof (ticks_whole_steps text tgt k d duration Hk Hd Hdur Htgt) as H.
  split.
  - intros i Hi. destruct (H i ltac:(lia)) as (_ & _ & _ & Htext & Hactive).
    rewrite bool_decide_eq_false_2 in Hactive by lia.
    split; [done|]. apply Htext. lia.
  - destruct (H d ltac:(lia)) as (_ & _ & _ & Htext & Hactive).
    rewrite bool_decide_eq_true_2 in Hactive by done.
    split; [done|]. rewrite Htext by lia. by rewrite <- Htgt.
Qed.

Lemma animateCounter_reaches_target_witness :
  textContent (ticks 60 (animateCounter "0" 250 counterSpeed)) = "120" ∧
  timer_active (ticks 125 (animateCounter "0" 250 counterSpeed)) = false ∧
  textContent (ticks 125 (animateCounter "0" 250 counterSpeed)) = "250".
Proof.
  destruct (animateCounter_reaches_target "0" 250 2 125 counterSpeed)
    as (Hrun & Hend & Htext).
  - discriminate.
  - lia.
  - reflexivity.
  - reflexivity.
  - vm_compute. split; discriminate.
  - vm_compute. split; discriminate.
  - split; [|split; [exact Hend | exact Htext]].
    apply (Hrun 60%nat). lia.
Defined.

(** ** [showLoading] / [hideLoading] *)



(** [isValidEmail] accepts exactly the strings made of three non-empty
    runs of characters other than white space and [@], the first two
    joined by [@] and the last two by a dot; the matcher is the pattern of
    the source run by derivatives, the shape is stated on strings. *)
Theorem isValidEmail_matches_email_shape (email : string) :
  isValidEmail email = true ↔
  ∃ l d t, email = l +:+ "@" +:+ d +:+ "." +:+ t ∧ word l ∧ word d ∧ word t.
Proof. apply isValidEmail_spec. Qed.

End UtilsFacts.

(* ===================================================================== *)
(** * [AnimationManager]: properties                                      *)
(* ===================================================================== *)

Module AnimationFacts.
Import AnimationManager.

Section AtMostOnce.

Variable n : node.

Lemma reveals_of_snoc q t :
  reveals_of n (q ++ [t]) =
  (reveals_of n q + if is_reveal_of n t.2 then 1 else 0)%nat.
Proof.
  unfold reveals_of. rewrite filter_app, length_app. f_equal.
  rewrite filter_cons, filter_nil.
  destruct (is_reveal_of n t.2); by case_decide.
Qed.

Lemma scrollEntry_recorded entry s : recorded n s → recorded n (scrollEntry entry s).
Proof.
  intros [H1 H0]. unfold scrollEntry.
  destruct (isIntersecting entry); [|done]. simpl.
  case_bool_decide as Hin; [done|]. simpl.
  unfold recorded. simpl. rewrite reveals_of_snoc. simpl.
  case_bool_decide as Heq.
  - subst n. rewrite (H0 Hin). split; [lia | set_solver].
  - split; [lia|]. intros Hn. rewrite H0; [lia | set_solver].
Qed.

Lemma skillBarEntry_recorded entry s :
  recorded n s → recorded n (skillBarEntry entry s).
Proof.
  intros [H1 H0]. unfold skillBarEntry.
  destruct (isIntersecting entry); [|done]. simpl.
  case_bool_decide as Hin; [done|]. simpl.
  unfold recorded. simpl. rewrite reveals_of_snoc. simpl.
  split; [lia|]. intros Hn. rewrite H0; [lia | set_solver].
Qed.

Lemma handle_recorded ev s : recorded n s → recorded n (handle ev s).
Proof.
  destruct ev as [entries|entries]; simpl;
    unfold scrollCallback, skillBarCallback;
    revert s; induction entries as [|e entries IH]; intros s Hs; simpl; auto.
  - apply IH. by apply scrollEntry_recorded.
  - apply IH. by apply skillBarEntry_recorded.
Qed.

Lemma handle_all_recorded evs s : recorded n s → recorded n (handle_all evs s).
Proof.
  unfold handle_all. revert s.
  induction evs as [|ev evs IH]; intros s Hs; simpl; [done|].
  apply IH. by apply handle_recorded.
Qed.

Lemma scrollEntry_settled k entry s :
  settled_with n k s → settled_with n k (scrollEntry entry s).
Proof.
  intros [Hin Hk]. unfold scrollEntry.
  destruct (isIntersecting entry); [|done]. simpl.
  case_bool_decide as Hin'; [done|]. simpl.
  unfold settled_with. simpl. rewrite reveals_of_snoc. simpl.
  case_bool_decide as Heq; [by subst|]. split; [set_solver | lia].
Qed.

Lemma skillBarEntry_settled k entry s :
  settled_with n k s → settled_with n k (skillBarEntry entry s).
Proof.
  intros [Hin Hk]. unfold skillBarEntry.
  destruct (isIntersecting entry); [|done]. simpl.
  case_bool_decide as Hin'; [done|]. simpl.
  unfold settled_with. simpl. rewrite reveals_of_snoc. simpl.
  split; [set_solver | lia].
Qed.

Lemma handle_all_settled k evs s :
  settled_with n k s → settled_with n k (handle_all evs s).
Proof.
  unfold handle_all. revert s.
  induction evs as [|ev evs IH]; intros s Hs; simpl; [done|].
  apply IH. clear IH. destruct ev as [entries|entries]; simpl;
    unfold scrollCallback, skillBarCallback;
    revert s Hs; induction entries as [|e entries IH]; intros s Hs; simpl; auto.
  - apply IH. by apply scrollEntry_settled.
  - apply IH. by apply skillBarEntry_settled.
Qed.

End AtMostOnce.

(** C8: over a page load, whatever batches of intersection entries the two
    observers deliver, at most one reveal of an element is ever scheduled;
    and from the moment the element is in [animatedElements], later
    entries for it schedule none. *)
Theorem entrance_animation_at_most_once
    (doc : gmap node Element) (evs more : list Event) (n : node) :
  let s := handle_all evs (new doc) in
  (reveals_of n (timeouts s) ≤ 1)%nat ∧
  (n ∈ animatedElements s →
   n ∈ animatedElements (handle_all more s) ∧
   reveals_of n (timeouts (handle_all more s)) = reveals_of n (timeouts s)).
Proof.
  intros s. split.
  - apply (handle_all_recorded n evs (new doc)). split; simpl.
    + unfold reveals_of. simpl. lia.
    + done.
  - intros Hin. by apply (handle_all_settled n _ more s).
Qed.

Example heading_revealed_once :
  timeouts (handle_all Examples.scrolling (new Examples.animated_page))
  = [ (Some 100, Reveal 1%positive (Some "fade-up"));
      (Some 200, SetWidth 2%positive (Some "90%")) ].
Proof. vm_compute. reflexivity. Qed.

End AnimationFacts.

(* ===================================================================== *)
(** * Timers: properties                                                  *)
(* ===================================================================== *)

Module TimersFacts.
Import Timers.

Lemma insert_due_perm {C} (t : timeout C) q : insert_due t q ≡ₚ t :: q.
Proof.
  induction q as [|u q IH]; simpl; [done|].
  case_bool_decide; [|done]. rewrite IH. apply Permutation_swap.
Qed.

(** Firing reorders the pending timers and neither drops nor repeats one. *)
Lemma firing_order_perm {C} (q : list (timeout C)) : firing_order q ≡ₚ q.
Proof.
  unfold firing_order.
  enough (∀ acc, foldl (λ acc t, insert_due t acc) acc q ≡ₚ acc ++ q) as H
    by apply (H []).
  induction q as [|t q IH]; intros acc; simpl.
  - by rewrite app_nil_r.
  - rewrite IH, insert_due_perm. simpl. apply Permutation_middle.
Qed.

End TimersFacts.

(* ===================================================================== *)
(** * [SkillsManager] and [ProjectsManager]: properties                   *)
(* ===================================================================== *)

Module FilterFacts.
Import TimersFacts.

(** C7: selecting the value that is already current returns at once, with
    the state (classes, selection) untouched and no reveal scheduled; and
    for any value, a second switch right after the first changes nothing
    more. *)
Theorem reselecting_current_is_noop
    (sm : SkillsManager.State) (pm : ProjectsManager.State)
    (category filter : string) :
  SkillsManager.switchCategory (SkillsManager.currentCategory sm) sm = (sm, []) ∧
  ProjectsManager.filterProjects (ProjectsManager.currentFilter pm) pm = (pm, []) ∧
  SkillsManager.switchCategory category
    (SkillsManager.switchCategory category sm).1
  = ((SkillsManager.switchCategory category sm).1, []) ∧
  ProjectsManager.filterProjects filter
    (ProjectsManager.filterProjects filter pm).1
  = ((ProjectsManager.filterProjects filter pm).1, []).
Proof.
  unfold SkillsManager.switchCategory, ProjectsManager.filterProjects.
  repeat split.
  - by rewrite bool_decide_eq_true_2.
  - by rewrite bool_decide_eq_true_2.
  - destruct (bool_decide (category = SkillsManager.currentCategory sm))
      eqn:E; simpl.
    + by rewrite E.
    + by rewrite bool_decide_eq_true_2.
  - destruct (bool_decide (filter = ProjectsManager.currentFilter pm))
      eqn:E; simpl.
    + by rewrite E.
    + by rewrite bool_decide_eq_true_2.
Qed.

Import ProjectsManager.

Lemma card_index_timeout f j c : card_index (card_timeout f j c).2 = j.
Proof. unfold card_timeout. by destruct (shouldShow f c). Qed.

Lemma run_lookup cb s i :
  projectCards (run cb s) !! i =
  if decide (card_index cb = i) then card_action cb <$> projectCards s !! i
  else projectCards s !! i.
Proof.
  unfold run. simpl. rewrite list_lookup_alter. case_decide; by subst.
Qed.

(** Running a list of timeouts changes card [i] by exactly the callbacks
    that closed over it. *)
Lemma run_list_lookup (q : list (Timers.timeout Callback)) : ∀ s i,
  projectCards (foldl (λ s t, run t.2 s) s q) !! i =
  apply_all (filter (λ t, card_index t.2 = i) q) <$> projectCards s !! i.
Proof.
  induction q as [|t q IH]; intros s i; simpl.
  - by destruct (projectCards s !! i).
  - rewrite IH, run_lookup, filter_cons. case_decide as H.
    + rewrite <- option_fmap_compose. done.
    + done.
Qed.

(** Card [m] is closed over by exactly one of the timeouts of a call. *)
Lemma timeouts_of_card_from f (cards : list ProjectCard) : ∀ k m,
  filter (λ t, card_index t.2 = m)
    (imap (λ j c, card_timeout f (k + j) c) cards) =
  if decide (k ≤ m)%nat then
    match cards !! (m - k)%nat with
    | Some c => [card_timeout f m c]
    | None => []
    end
  else [].
Proof.
  induction cards as [|c cards IH]; intros k m.
  - simpl. by case_decide.
  - rewrite imap_cons, filter_cons, card_index_timeout.
    assert (imap ((λ j c, card_timeout f (k + j) c) ∘ S) cards
            = imap (λ j c, card_timeout f (S k + j) c) cards) as ->.
    { apply imap_ext. intros j x _. simpl. f_equal. lia. }
    rewrite IH. destruct (decide (k + 0 = m)%nat) as [Heq|Hne].
    + rewrite decide_False by lia. rewrite decide_True by lia.
      replace (m - k)%nat with 0%nat by lia. simpl. do 2 f_equal. lia.
    + destruct (decide (k ≤ m)%nat) as [Hle|Hgt].
      * rewrite decide_True by lia.
        replace (m - k)%nat with (S (m - S k)) by lia. done.
      * by rewrite decide_False by lia.
Qed.

Lemma timeouts_of_card f (cards : list ProjectCard) i c :
  cards !! i = Some c →
  filter (λ t, card_index t.2 = i) (imap (card_timeout f) cards)
  = [card_timeout f i c].
Proof.
  intros H. pose proof (timeouts_of_card_from f cards 0 i) as Hk.
  rewrite decide_True in Hk by lia. rewrite Nat.sub_0_r, H in Hk.
  exact Hk.
Qed.

(** The card at position [i] once the timeouts of a call have fired. *)
Lemma settled_card f s i card :
  f ≠ currentFilter s →
  projectCards s !! i = Some card →
  projectCards (settled (filterProjects f s)) !! i =
  Some (if shouldShow f card then animate_in (restyle f card)
        else hide (restyle f card)).
Proof.
  intros Hf Hi. unfold settled, filterProjects, Timers.run_all.
  rewrite bool_decide_eq_false_2 by done. cbn [fst snd].
  rewrite run_list_lookup. cbn [projectCards].
  rewrite list_lookup_fmap, Hi. simpl. f_equal.
  assert (filter (λ t, card_index t.2 = i)
            (Timers.firing_order (imap (card_timeout f) (projectCards s)))
          = [card_timeout f i card]) as ->.
  { apply Permutation_singleton_r.
    rewrite firing_order_perm. by rewrite (timeouts_of_card f _ i card). }
  unfold apply_all, card_timeout. simpl. by destruct (shouldShow f card).
Qed.

Lemma shouldShow_spec f card :
  shouldShow f card = true ↔
  f = "all" ∨ ∃ a b, default "" (data_category card) = a +:+ f +:+ b.
Proof.
  unfold shouldShow.
  by rewrite orb_true_iff, bool_decide_eq_true, JSFacts.includes_spec.
Qed.

(** On a gallery for which no timeout of an earlier call is pending:
    after [filterProjects f] with [f] not the current filter, and once the
    timeouts the call registered have fired, a card is visible exactly
    when [f] is ['all'] or occurs in its [data-category] tag.  A card that
    is not shown keeps its [display] during the transition, is faded out at
    once, has a 300ms timeout registered for it, and ends with
    [display: none].  With a timeout of an earlier call still pending this
    fails, see [GalleryClockFacts]. *)
Theorem filterProjects_shows_matching_cards
    (s : State) (f : string) (i : nat) (card : ProjectCard) :
  f ≠ currentFilter s →
  projectCards s !! i = Some card →
  ∃ during after : ProjectCard,
    projectCards (filterProjects f s).1 !! i = Some during ∧
    projectCards (settled (filterProjects f s)) !! i = Some after ∧
    currentFilter (filterProjects f s).1 = f ∧
    (visible after = true ↔
       f = "all" ∨ ∃ a b, default "" (data_category card) = a +:+ f +:+ b) ∧
    (visible after = true →
       style_display after = "block" ∧ style_opacity after = "1") ∧
    (visible after = false →
       style_display during = style_display card ∧
       style_opacity during = "0" ∧
       (filterProjects f s).2 !! i = Some (300, Hide i) ∧
       style_display after = "none").
Proof.
  intros Hf Hi.
  exists (restyle f card),
    (if shouldShow f card then animate_in (restyle f card)
     else hide (restyle f card)).
  assert ((filterProjects f s).2 !! i = Some (card_timeout f i card)) as Ht.
  { unfold filterProjects. rewrite bool_decide_eq_false_2 by done. simpl.
    by rewrite list_lookup_imap, Hi. }
  split; [|split; [by apply settled_card|]].
  { unfold filterProjects. rewrite bool_decide_eq_false_2 by done. simpl.
    by rewrite list_lookup_fmap, Hi. }
  split.
  { unfold filterProjects. by rewrite bool_decide_eq_false_2 by done. }
  rewrite <- shouldShow_spec. revert Ht. unfold card_timeout, restyle.
  destruct (shouldShow f card) eqn:Hshow; simpl; unfold visible; simpl;
    intros Ht.
  - repeat split; done.
  - repeat split; done.
Qed.

Lemma filterProjects_shows_matching_cards_witness :
  ∃ during after : ProjectCard,
    projectCards (filterProjects "frontend" Examples.projects).1 !! 1%nat
      = Some during ∧
    projectCards (settled (filterProjects "frontend" Examples.projects)) !! 1%nat
      = Some after ∧
    visible after = false ∧ style_display after = "none".
Proof.
  destruct (filterProjects_shows_matching_cards Examples.projects "frontend" 1
              (Examples.card "devops"))
    as (during & after & H1 & H2 & _ & Hvis & _ & Hhid).
  - vm_compute. discriminate.
  - reflexivity.
  - exists during, after. split; [exact H1|]. split; [exact H2|].
    assert (visible after = false) as Hv.
    { vm_compute in H2. injection H2 as <-. reflexivity. }
    split; [exact Hv|]. apply (Hhid Hv).
Defined.

(** A filter that matches no card leaves every card hidden; the call is
    total, so nothing is thrown. *)
Corollary filterProjects_no_match_hides_all (s : State) (f : string) :
  f ≠ currentFilter s →
  (∀ card, card ∈ projectCards s → shouldShow f card = false) →
  ∀ after, after ∈ projectCards (settled (filterProjects f s)) →
    visible after = false ∧ style_display after = "none".
Proof.
  intros Hf Hnone after [i Hi]%list_elem_of_lookup.
  assert (is_Some (projectCards s !! i)) as [card Hc].
  { apply lookup_lt_is_Some.
    apply lookup_lt_Some in Hi. revert Hi.
    unfold settled, filterProjects, Timers.run_all.
    rewrite bool_decide_eq_false_2 by done. cbn [fst snd].
    generalize (Timers.firing_order (imap (card_timeout f) (projectCards s))).
    intros q. 
    assert (∀ s0, length (projectCards (foldl (λ s t, run t.2 s) s0 q))
                  = length (projectCards s0)) as Hlen.
    { induction q as [|t q IH]; intros s0; simpl; [done|].
      rewrite IH. unfold run. simpl. by rewrite length_alter. }
    rewrite Hlen. simpl. by rewrite length_fmap. }
  rewrite (settled_card f s i card Hf Hc) in Hi. injection Hi as <-.
  rewrite (Hnone card) by (apply list_elem_of_lookup; eauto).
  unfold visible, hide. simpl. done.
Qed.

End FilterFacts.

(* ===================================================================== *)
(** * The gallery on the event loop: properties                           *)
(* ===================================================================== *)

Module GalleryClockFacts.
Import ProjectsManager GalleryClock.

Lemma register_perm now q : ∀ pending,
  register now pending q ≡ₚ pending ++ (due_at now <$> q).
Proof.
  unfold register. induction q as [|t q IH]; intros pending; cbn [foldl].
  - by rewrite app_nil_r.
  - rewrite IH, TimersFacts.insert_due_perm. cbn. apply Permutation_middle.
Qed.

Lemma filter_card_due_at now i (q : list (Timers.timeout Callback)) :
  filter (λ t, card_index t.2 = i) (due_at now <$> q)
  = due_at now <$> filter (λ t, card_index t.2 = i) q.
Proof.
  induction q as [|t q IH]; [done|].
  rewrite fmap_cons, (filter_cons _ (due_at now t)), (filter_cons _ t).
  change ((due_at now t).2) with t.2.
  case_decide; [rewrite fmap_cons; f_equal|]; exact IH.
Qed.

(** The pending timeouts of card [i] right after a call on a page where
    none was pending for it. *)
Lemma click_pending_card f p i card :
  f ≠ currentFilter (gallery p) →
  projectCards (gallery p) !! i = Some card →
  filter (λ t, card_index t.2 = i) (pending (click f p)) ≡ₚ
  filter (λ t, card_index t.2 = i) (pending p)
  ++ [due_at (now p) (card_timeout f i card)].
Proof.
  intros Hf Hi. unfold click, filterProjects.
  rewrite bool_decide_eq_false_2 by done. cbn [fst snd pending].
  rewrite register_perm, filter_app, filter_card_due_at.
  by rewrite (FilterFacts.timeouts_of_card f _ i card Hi).
Qed.

Lemma run_list_currentFilter (q : list (Timers.timeout Callback)) : ∀ s,
  currentFilter (foldl (λ s t, run t.2 s) s q) = currentFilter s.
Proof. induction q as [|t q IH]; intros s; cbn [foldl]; [done|]. by rewrite IH. Qed.

Lemma filter_swap {A} (P Q : A → Prop)
    `{∀ x, Decision (P x)} `{∀ x, Decision (Q x)} (l : list A) :
  filter P (filter Q l) = filter Q (filter P l).
Proof.
  induction l as [|x l IH]; [done|].
  rewrite (filter_cons Q x), (filter_cons P x).
  destruct (decide (Q x)) as [HQ|HQ], (decide (P x)) as [HP|HP];
    rewrite ?(filter_cons P x), ?(filter_cons Q x),
      ?(decide_True (P := P x)), ?(decide_True (P := Q x)),
      ?(decide_False (P := P x)), ?(decide_False (P := Q x)) by done;
    by rewrite IH.
Qed.

Lemma filter_none {A} (P : A → Prop) `{∀ x, Decision (P x)} (l : list A) :
  (∀ x, x ∈ l → ¬ P x) → filter P l = [].
Proof.
  induction l as [|x l IH]; intros Hl; [done|].
  rewrite filter_cons, decide_False by (apply Hl; by left).
  apply IH. intros y Hy. apply Hl. by right.
Qed.

Lemma filter_all {A} (P : A → Prop) `{∀ x, Decision (P x)} (l : list A) :
  (∀ x, x ∈ l → P x) → filter P l = l.
Proof.
  induction l as [|x l IH]; intros Hl; [done|].
  rewrite filter_cons, decide_True by (apply Hl; by left).
  f_equal. apply IH. intros y Hy. apply Hl. by right.
Qed.

(** What the passing of time does to card [i]: the callbacks that closed
    over it and are due run on it, the others stay pending. *)
Lemma wait_card ms p i :
  projectCards (gallery (wait ms p)) !! i =
  apply_all (filter (λ t, t.1 ≤ now p + ms)
               (filter (λ t, card_index t.2 = i) (pending p)))
    <$> projectCards (gallery p) !! i.
Proof.
  unfold wait. cbn [gallery]. rewrite FilterFacts.run_list_lookup.
  by rewrite filter_swap.
Qed.

Lemma wait_pending_card ms p i :
  filter (λ t, card_index t.2 = i) (pending (wait ms p)) =
  filter (λ t, ¬ t.1 ≤ now p + ms)
    (filter (λ t, card_index t.2 = i) (pending p)).
Proof. unfold wait. cbn [pending]. by rewrite filter_swap. Qed.

Lemma click_card f p i card :
  f ≠ currentFilter (gallery p) →
  projectCards (gallery p) !! i = Some card →
  projectCards (gallery (click f p)) !! i = Some (restyle f card) ∧
  currentFilter (gallery (click f p)) = f ∧
  now (click f p) = now p.
Proof.
  intros Hf Hi. unfold click, filterProjects.
  rewrite bool_decide_eq_false_2 by done. cbn [fst gallery projectCards].
  by rewrite list_lookup_fmap, Hi.
Qed.

Lemma card_timeout_delay f i card :
  0 ≤ (card_timeout f i card).1 ≤ 300.
Proof. unfold card_timeout. destruct (shouldShow f card); cbn; lia. Qed.

(** Every timeout pending after a call is due within 300ms, if those
    pending before it were. *)
Lemma click_pending_due f p t :
  (∀ u, u ∈ pending p → u.1 ≤ now p + 300) →
  t ∈ pending (click f p) → t.1 ≤ now p + 300.
Proof.
  intros Hp. unfold click. cbn [pending]. rewrite register_perm.
  intros [Ht|(u & -> & Hu)%list_elem_of_fmap]%elem_of_app; [by apply Hp|].
  unfold filterProjects in Hu. case_bool_decide; cbn [snd] in Hu.
  { by apply elem_of_nil in Hu. }
  apply elem_of_lookup_imap in Hu as (j & c & -> & _).
  pose proof (card_timeout_delay f j c). cbn [due_at fst]. lia.
Qed.

(** A card that [f1] does not select and [f2] does, after both calls and
    after the [Hide] of the first and the [AnimateIn] of the second have
    run on it, in either order. *)
Lemma stale_hide_result f1 f2 card (d : Z) (i : nat) q :
  shouldShow f1 card = false → shouldShow f2 card = true →
  q = [(300, Hide i); (d + 50, AnimateIn i)] ∨
  q = [(d + 50, AnimateIn i); (300, Hide i)] →
  shouldShow f2 (apply_all q (restyle f2 (restyle f1 card))) = true ∧
  style_display (apply_all q (restyle f2 (restyle f1 card))) = "none" ∧
  visible (apply_all q (restyle f2 (restyle f1 card))) = false.
Proof.
  intros Hhide Hshow Hq.
  assert (restyle f1 card =
          {| data_category := data_category card;
             style_transition := "all 0.3s ease";
             style_display := style_display card;
             style_opacity := "0";
             style_transform := "scale(0.8)" |}) as ->
    by (unfold restyle; by rewrite Hhide).
  assert (∀ c, data_category c = data_category card →
               shouldShow f2 c = true) as Hsame.
  { intros c Hc. unfold shouldShow in *. by rewrite Hc. }
  unfold restyle.
  match goal with
  | |- context [if shouldShow f2 ?c then _ else _] =>
      rewrite (Hsame c eq_refl)
  end.
  cbn [data_category].
  destruct Hq as [-> | ->]; cbn; (split; [by apply Hsame|done]).
Qed.

(** C6, as the code has it: the timeout that hides a card is never
    cancelled.  When a filter [f1] that does not select a card is followed
    within 300ms by a filter [f2] that does, the [Hide] timeout of the
    first call fires after the second call has laid the card out again:
    300ms after the second call no timeout is pending, [f2] is the current
    filter and selects the card, and the card has [display: none] and is
    not visible. *)
Theorem filterProjects_stale_hide_hides_selected_card
    (s : State) (f1 f2 : string) (d : Z) (i : nat) (card : ProjectCard) :
  f1 ≠ currentFilter s → f2 ≠ f1 → 0 ≤ d < 300 →
  projectCards s !! i = Some card →
  shouldShow f1 card = false → shouldShow f2 card = true →
  let p := wait 300 (click f2 (wait d (click f1 (loaded s)))) in
  pending p = [] ∧
  currentFilter (gallery p) = f2 ∧
  ∃ after,
    projectCards (gallery p) !! i = Some after ∧
    shouldShow (currentFilter (gallery p)) after = true ∧
    style_display after = "none" ∧
    visible after = false.
Proof.
  intros Hf1 Hf2 Hd Hi Hhide Hshow.
  cbn zeta.
  (* the first call *)
  destruct (click_card f1 (loaded s) i card Hf1 Hi) as (Hc1 & Hcur1 & Hnow1).
  pose proof (click_pending_card f1 (loaded s) i card Hf1 Hi) as Hq1.
  change (pending (loaded s)) with (@nil (Timers.timeout Callback)) in Hq1.
  change (now (loaded s)) with 0 in Hq1, Hnow1.
  pose proof (click_pending_due f1 (loaded s)) as Hdue1.
  change (pending (loaded s)) with (@nil (Timers.timeout Callback)) in Hdue1.
  change (now (loaded s)) with 0 in Hdue1.
  set (p1 := click f1 (loaded s)) in *.
  set (p2 := wait d p1). set (p3 := click f2 p2).
  rewrite filter_nil, app_nil_l in Hq1.
  apply Permutation_singleton_r in Hq1.
  unfold card_timeout in Hq1. rewrite Hhide in Hq1.
  change (due_at 0 (300, Hide i)) with (300, Hide i) in Hq1.
  (* [d] milliseconds later its [Hide] is still pending *)
  assert (projectCards (gallery p2) !! i = Some (restyle f1 card)) as Hc2.
  { unfold p2. rewrite wait_card, Hq1, Hnow1, Hc1.
    rewrite filter_cons, decide_False by (cbn; lia). done. }
  assert (filter (λ t, card_index t.2 = i) (pending p2) = [(300, Hide i)])
    as Hq2.
  { unfold p2. rewrite wait_pending_card, Hq1, Hnow1.
    rewrite filter_cons, decide_True by (cbn; lia). done. }
  assert (currentFilter (gallery p2) = f1) as Hcur2.
  { unfold p2, wait. cbn [gallery]. by rewrite run_list_currentFilter. }
  assert (now p2 = d) as Hnow2 by (unfold p2, wait; cbn; lia).
  (* the second call *)
  assert (f2 ≠ currentFilter (gallery p2)) as Hf2' by (by rewrite Hcur2).
  destruct (click_card f2 p2 i _ Hf2' Hc2) as (Hc3 & Hcur3 & Hnow3).
  fold p3 in Hc3, Hcur3, Hnow3.
  pose proof (click_pending_card f2 p2 i _ Hf2' Hc2) as Hq3.
  fold p3 in Hq3. rewrite Hq2, Hnow2 in Hq3.
  assert (shouldShow f2 (restyle f1 card) = true) as Hshow'.
  { unfold restyle. rewrite Hhide. exact Hshow. }
  unfold card_timeout in Hq3. rewrite Hshow' in Hq3.
  cbn [due_at fst snd app] in Hq3.
  (* everything pending is due within the next 300ms *)
  assert (∀ t, t ∈ pending p3 → t.1 ≤ now p3 + 300) as Hdue.
  { intros t Ht. rewrite Hnow3. apply (click_pending_due f2 p2); [|done].
    intros u Hu. unfold p2, wait in Hu. cbn [pending] in Hu.
    apply list_elem_of_filter in Hu as [_ Hu].
    rewrite Hnow2.
    assert (u.1 ≤ 0 + 300); [|lia].
    apply Hdue1; [|done]. intros v Hv. by apply elem_of_nil in Hv. }
  split; [|split].
  - unfold wait. cbn [pending]. apply filter_none. intros t Ht Hn.
    by apply Hn, Hdue.
  - unfold wait. cbn [gallery]. by rewrite run_list_currentFilter.
  - assert (currentFilter (gallery (wait 300 p3)) = f2) as ->.
    { unfold wait. cbn [gallery]. by rewrite run_list_currentFilter. }
    rewrite wait_card, Hc3.
    rewrite (filter_all (λ t, t.1 ≤ now p3 + 300)).
    2:{ intros t [_ Ht]%list_elem_of_filter. by apply Hdue. }
    cbn [fmap option_fmap option_map]. eexists. split; [reflexivity|].
    apply (stale_hide_result f1 f2 card d i); [done..|].
    symmetry in Hq3. by apply Permutation_length_2_inv in Hq3.
Qed.

Lemma filterProjects_stale_hide_hides_selected_card_witness :
  let p :=
    wait 300 (click "devops" (wait 100 (click "frontend"
                                          (loaded Examples.projects)))) in
  pending p = [] ∧
  currentFilter (gallery p) = "devops" ∧
  ∃ after,
    projectCards (gallery p) !! 1%nat = Some after ∧
    shouldShow "devops" after = true ∧
    style_display after = "none" ∧
    visible after = false.
Proof.
  apply (filterProjects_stale_hide_hides_selected_card Examples.projects
           "frontend" "devops" 100 1 (Examples.card "devops")).
  - vm_compute. discriminate.
  - discriminate.
  - lia.
  - reflexivity.
  - vm_compute. reflexivity.
  - vm_compute. reflexivity.
Defined.

End GalleryClockFacts.

(* ===================================================================== *)
(** * [ContactFormManager]: properties                                    *)
(* ===================================================================== *)

Module ContactFacts.
Import JS JSFacts ContactFormManager.

(** ** Field validation *)



Lemma verdict_None r : verdict r = None ↔ r.1 = true.
Proof. unfold verdict. destruct r as [[] ?]; simpl; split; done. Qed.

(** [validateField] is [check] followed by the marking of the control and
    of its error element. *)
Lemma validateField_validated i s f :
  fields s !! i = Some f →
  validateField i s = ((check f).1, validated i f (verdict (check f)) s).
Proof.
  intros Hi. pose proof (lookup_lt_Some _ _ _ Hi) as Hlt.
  unfold validateField, validated, verdict. rewrite Hi.
  destruct (check f) as [[] message]; cbn [fst snd];
    unfold clearFieldError; rewrite Hi.
  - destruct (errorElements s !! error_id f); done.
  - unfold showFieldError.
    destruct (errorElements s !! error_id f) as [el|] eqn:Hel; cbn.
    + rewrite list_lookup_insert_eq by done. cbn -[union difference].
      change (error_id (set_classes _ _ f)) with (error_id f).
      rewrite lookup_insert_eq. cbn -[union difference].
      by rewrite list_insert_insert_eq, insert_insert_eq.
    + rewrite list_lookup_insert_eq by done. cbn -[union difference].
      change (error_id (set_classes _ _ f)) with (error_id f).
      rewrite Hel. cbn -[union difference].
      by rewrite list_insert_insert_eq.
Qed.

Lemma validated_field i f v s :
  fields s !! i = Some f → fields (validated i f v s) !! i = Some (marked v f).
Proof.
  intros Hi. unfold validated. simpl.
  destruct (errorElements s !! error_id f); simpl;
    apply list_lookup_insert_eq; by eapply lookup_lt_Some.
Qed.

Lemma validated_field_ne i j f v s :
  i ≠ j → fields (validated i f v s) !! j = fields s !! j.
Proof.
  intros Hne. unfold validated. simpl.
  destruct (errorElements s !! error_id f); simpl;
    by apply list_lookup_insert_ne.
Qed.

Lemma validated_error i f v s el :
  errorElements s !! error_id f = Some el →
  errorElements (validated i f v s) !! error_id f = Some (marked_error v el).
Proof.
  intros Hel. unfold validated. simpl. rewrite Hel. simpl.
  apply lookup_insert_eq.
Qed.

Lemma validated_error_ne i f v s key :
  key ≠ error_id f →
  errorElements (validated i f v s) !! key = errorElements s !! key.
Proof.
  intros Hne. unfold validated. simpl.
  destruct (errorElements s !! error_id f); simpl; [|done].
  by apply lookup_insert_ne.
Qed.

Lemma validated_rest i f v s :
  feedback (validated i f v s) = feedback s ∧
  submitBtn (validated i f v s) = submitBtn s ∧
  isSubmitting (validated i f v s) = isSubmitting s ∧
  effects (validated i f v s) = effects s.
Proof. unfold validated. by destruct (errorElements s !! error_id f). Qed.







Example validateField_bad_email :
  (validateField 1
     (Examples.contact "Jane Doe" "not-an-email" "" "" "Hello" false)).1 = false
  ∧ err_textContent <$>
      errorElements
        (validateField 1
           (Examples.contact "Jane Doe" "not-an-email" "" "" "Hello" false)).2
      !! "email-error"
    = Some "Please enter a valid email address.".
Proof. split; vm_compute; reflexivity. Qed.

(** ** The validation loop *)

Lemma validate_loop_acc l : ∀ b s,
  foldl (λ acc i,
           let '(isValid, s1) := validateField i acc.2 in
           (if isValid then acc.1 else false, s1))
        (b, s) l
  = (b && (validate_all l s).1, (validate_all l s).2).
Proof.
  unfold validate_all. induction l as [|k l IH]; intros b s; simpl.
  - by rewrite andb_true_r.
  - destruct (validateField k s) as [w s1].
    rewrite (IH (if w then b else false)), (IH (if w then true else false)).
    by destruct w, b.
Qed.

Lemma validate_all_cons i l s :
  validate_all (i :: l) s =
  ((validateField i s).1 && (validate_all l (validateField i s).2).1,
   (validate_all l (validateField i s).2).2).
Proof.
  unfold validate_all at 1. simpl. destruct (validateField i s) as [v s1].
  rewrite validate_loop_acc. by destruct v.
Qed.

Lemma validate_all_spec l : ∀ s,
  NoDup l → (∀ j, j ∈ l → is_Some (fields s !! j)) →
  (feedback (validate_all l s).2 = feedback s ∧
   submitBtn (validate_all l s).2 = submitBtn s ∧
   isSubmitting (validate_all l s).2 = isSubmitting s ∧
   effects (validate_all l s).2 = effects s) ∧
  ((validate_all l s).1 = true ↔
     ∀ j g, j ∈ l → fields s !! j = Some g → (check g).1 = true) ∧
  (∀ j g, fields s !! j = Some g →
     fields (validate_all l s).2 !! j =
     Some (if decide (j ∈ l) then marked (verdict (check g)) g else g)) ∧
  (∀ key, (∀ k h, k ∈ l → fields s !! k = Some h → error_id h ≠ key) →
     errorElements (validate_all l s).2 !! key = errorElements s !! key) ∧
  (∀ j g el, j ∈ l → fields s !! j = Some g →
     errorElements s !! error_id g = Some el →
     (∀ k h, k ∈ l → k ≠ j → fields s !! k = Some h →
             error_id h ≠ error_id g) →
     errorElements (validate_all l s).2 !! error_id g =
     Some (marked_error (verdict (check g)) el)).
Proof.
  induction l as [|i l IH]; intros s Hnd Hin.
  { unfold validate_all. cbn [foldl fst snd].
    split; [done|]. split; [|split; [|split]].
    - split; [|done]. intros _ j g Hj. by apply not_elem_of_nil in Hj.
    - intros j g Hg. rewrite decide_False; [done | apply not_elem_of_nil].
    - done.
    - intros j g el Hj. by apply not_elem_of_nil in Hj. }
  apply NoDup_cons in Hnd as [Hil Hnd].
  assert (i ∈ i :: l) as Hhere by by left.
  assert (∀ k, k ∈ l → k ∈ i :: l) as Hthere by (intros; by right).
  assert (∀ k, k ∈ l → k ≠ i) as Hfresh by (intros k Hk ->; done).
  destruct (Hin i Hhere) as [f Hf].
  rewrite validate_all_cons, (validateField_validated i s f Hf). cbn [fst snd].
  set (v := verdict (check f)). set (s1 := validated i f v s).
  assert (∀ j, j ≠ i → fields s1 !! j = fields s !! j) as Hother.
  { intros j Hj. by apply validated_field_ne. }
  assert (fields s1 !! i = Some (marked v f)) as Hthis
    by by apply validated_field.
  destruct (IH s1 Hnd) as (Hrest & Hret & Hfields & Hkeep & Herr).
  { intros j Hj. rewrite Hother by auto. auto. }
  destruct (validated_rest i f v s) as (R1 & R2 & R3 & R4).
  destruct Hrest as (Q1 & Q2 & Q3 & Q4).
  split; [by rewrite Q1, Q2, Q3, Q4|]. split; [|split; [|split]].
  - rewrite andb_true_iff, Hret. split.
    + intros [Hc Hall] j g [->|Hj]%elem_of_cons Hg.
      * by simplify_eq.
      * apply (Hall j g Hj). by rewrite Hother by auto.
    + intros Hall. split; [by apply (Hall i f)|].
      intros j g Hj Hg. apply (Hall j g); [auto|].
      by rewrite <- Hother by auto.
  - intros j g Hg. destruct (decide (j = i)) as [->|Hne].
    + simplify_eq. rewrite (Hfields i (marked v f) Hthis).
      rewrite decide_False by done. by rewrite decide_True by done.
    + rewrite (Hfields j g) by (by rewrite Hother).
      destruct (decide (j ∈ l)) as [Hj|Hj].
      * by rewrite decide_True by auto.
      * rewrite decide_False; [done|]. by intros [->|?]%elem_of_cons.
  - intros key Hkey. rewrite Hkeep.
    + apply validated_error_ne. intros ->. by apply (Hkey i f).
    + intros k h Hk Hh. apply (Hkey k h); [auto|].
      by rewrite <- Hother by auto.
  - intros j g el [->|Hj]%elem_of_cons Hg Hel Hdist.
    + simplify_eq. rewrite Hkeep.
      * by apply validated_error.
      * intros k h Hk Hh. apply (Hdist k h); [auto | auto |].
        by rewrite <- Hother by auto.
    + apply (Herr j g el); [done | by rewrite Hother by auto | |].
      * rewrite <- Hel. apply validated_error_ne.
        intros Heq. apply (Hdist i f); [done | | done | done].
        intros ->. done.
      * intros k h Hk Hkj Hh. apply (Hdist k h); [auto | done |].
        by rewrite <- Hother by auto.
Qed.

Lemma elem_of_required_indices (fs : list Field) j :
  j ∈ required_indices fs ↔ ∃ g, fs !! j = Some g ∧ required g = true.
Proof.
  unfold required_indices. rewrite list_elem_of_fmap. split.
  - intros ([k g] & -> & [Hreq Hin]%list_elem_of_filter).
    apply elem_of_lookup_imap in Hin as (k' & g' & [= -> ->] & Hk).
    by exists g'.
  - intros (g & Hj & Hreq). exists (j, g). split; [done|].
    apply list_elem_of_filter. split; [done|].
    by apply (elem_of_lookup_imap_2 pair).
Qed.

Lemma NoDup_required_indices (fs : list Field) : NoDup (required_indices fs).
Proof.
  unfold required_indices. apply NoDup_fmap_2_strong.
  - intros [i a] [j b] [_ Ha]%list_elem_of_filter [_ Hb]%list_elem_of_filter Heq.
    apply elem_of_lookup_imap in Ha as (i' & a' & [= -> ->] & Hi).
    apply elem_of_lookup_imap in Hb as (j' & b' & [= -> ->] & Hj).
    simpl in Heq. subst. by simplify_eq.
  - apply NoDup_filter. apply (NoDup_fmap_1 fst).
    rewrite fmap_imap.
    rewrite (imap_ext _ (λ j _, @Datatypes.id nat j)) by done.
    rewrite (imap_seq_0 fs (@Datatypes.id nat)), list_fmap_id. apply NoDup_seq.
Qed.

(** ** Banners *)

Lemma showFormMessage_rest message success s :
  fields (showFormMessage message success s) = fields s ∧
  errorElements (showFormMessage message success s) = errorElements s ∧
  submitBtn (showFormMessage message success s) = submitBtn s ∧
  isSubmitting (showFormMessage message success s) = isSubmitting s.
Proof.
  unfold showFormMessage.
  destruct (form_feedback (feedback s)), (success_message (feedback s)),
    (error_message (feedback s)); done.
Qed.

(** [showFormMessage] only adds the two browser calls, and only after what
    was there. *)
Lemma showFormMessage_effects message success s :
  effects (showFormMessage message success s) = effects s ∨
  effects (showFormMessage message success s) =
    effects s ++ [scrollIntoView_feedback; setTimeout_hide_feedback 10000].
Proof.
  unfold showFormMessage.
  destruct (form_feedback (feedback s)), (success_message (feedback s)),
    (error_message (feedback s)); auto.
  right. simpl. by rewrite <- app_assoc.
Qed.

(** On a page that has the three feedback elements the banner of the
    requested kind is displayed with the message, and the other one is
    hidden. *)
Lemma showFormMessage_error_shown message s d sb eb :
  feedback s = {| form_feedback := Some d; success_message := Some sb;
                  error_message := Some eb |} →
  feedback (showFormMessage message false s) =
  {| form_feedback := Some "block";
     success_message := Some (set_display "none" sb);
     error_message :=
       Some {| display := "block";
               paragraph := (λ _, message) <$> paragraph eb |} |}.
Proof. intros H. unfold showFormMessage. by rewrite H. Qed.

Lemma showFormMessage_success_shown message s d sb eb :
  feedback s = {| form_feedback := Some d; success_message := Some sb;
                  error_message := Some eb |} →
  feedback (showFormMessage message true s) =
  {| form_feedback := Some "block";
     success_message :=
       Some {| display := "block";
               paragraph := (λ _, message) <$> paragraph sb |};
     error_message := Some (set_display "none" eb) |}.
Proof. intros H. unfold showFormMessage. by rewrite H. Qed.

(** ** Submission *)

(** C3: while a submission is in flight a further call returns at the
    guard: the handler has run to completion and the state is the one it
    was called in, so no field was validated again, no effect (in
    particular no call of the email relay) was added, and the flag, the
    button and the banners are as they were. *)
Theorem submission_in_flight_is_noop (env : Env) (s : State) :
  isSubmitting s = true →
  handleContactSubmission env s = Returned s.
Proof. intros H. unfold handleContactSubmission. by rewrite H. Qed.

Lemma submission_in_flight_is_noop_witness :
  handleContactSubmission Examples.env
    (Examples.contact "Jane Doe" "jane@example.com" "" "" "Hello" true)
  = Returned (Examples.contact "Jane Doe" "jane@example.com" "" "" "Hello" true).
Proof.
  apply (submission_in_flight_is_noop Examples.env
           (Examples.contact "Jane Doe" "jane@example.com" "" "" "Hello" true)).
  reflexivity.
Defined.

Lemma validate_required_spec s :
  let r := validate_all (required_indices (fields s)) s in
  (feedback r.2 = feedback s ∧ submitBtn r.2 = submitBtn s ∧
   isSubmitting r.2 = isSubmitting s ∧ effects r.2 = effects s) ∧
  (r.1 = true ↔
     ∀ j g, fields s !! j = Some g → required g = true → (check g).1 = true) ∧
  (∀ j g, fields s !! j = Some g →
     fields r.2 !! j =
     Some (if required g then marked (verdict (check g)) g else g)) ∧
  (∀ j g el, fields s !! j = Some g → required g = true →
     errorElements s !! error_id g = Some el →
     (∀ k h, k ≠ j → fields s !! k = Some h → required h = true →
             error_id h ≠ error_id g) →
     errorElements r.2 !! error_id g =
     Some (marked_error (verdict (check g)) el)).
Proof.
  intros r. subst r.
  destruct (validate_all_spec (required_indices (fields s)) s)
    as (Hrest & Hret & Hfields & _ & Herr).
  { apply NoDup_required_indices. }
  { intros j (g & -> & _)%elem_of_required_indices. done. }
  split; [done|]. split; [|split].
  - rewrite Hret. split.
    + intros H j g Hg Hreq. apply (H j g); [|done].
      apply elem_of_required_indices. eauto.
    + intros H j g (g' & Hg' & Hreq)%elem_of_required_indices Hg.
      simplify_eq. eauto.
  - intros j g Hg. rewrite (Hfields j g Hg).
    destruct (required g) eqn:Hreq.
    + rewrite decide_True; [done|]. apply elem_of_required_indices. eauto.
    + rewrite decide_False; [done|].
      intros (g' & Hg' & Hreq')%elem_of_required_indices. simplify_eq.
      congruence.
  - intros j g el Hg Hreq Hel Hdist. apply (Herr j g el); [|done..|].
    + apply elem_of_required_indices. eauto.
    + intros k h (h' & Hh' & Hreq')%elem_of_required_indices Hne Hh.
      simplify_eq. eauto.
Qed.




(** Both invalid controls of that page are marked, each with its own
    message; the email relay is not called. *)
Example invalid_submission_messages :
  match handleContactSubmission Examples.env
          (Examples.contact "" "not-an-email" "" "" "Hello" false) with
  | Returned s' =>
      err_textContent <$> errorElements s' !! "name-error"
        = Some "Name is required." ∧
      err_textContent <$> errorElements s' !! "email-error"
        = Some "Please enter a valid email address." ∧
      err_textContent <$> errorElements s' !! "message-error" = Some "" ∧
      effects s' = [scrollIntoView_feedback; setTimeout_hide_feedback 10000]
  | Awaiting _ _ => False
  end.
Proof. vm_compute. repeat split. Qed.

(** ** The payload and the analytics event *)

(** The object sent to the relay has no [service] and no [budget] key; the
    selections travel as [user_service] and [user_budget]. *)
Lemma finalTemplateParams_keys tp n e c b sv m :
  build_finalTemplateParams tp n e c b sv m !! "service" = None ∧
  build_finalTemplateParams tp n e c b sv m !! "budget" = None ∧
  build_finalTemplateParams tp n e c b sv m !! "user_service"
    = Some (or_else (or_opt (tp !! "service") (value_of sv)) "") ∧
  build_finalTemplateParams tp n e c b sv m !! "user_budget"
    = Some (or_else (or_opt (tp !! "budget") (value_of b)) "").
Proof.
  unfold build_finalTemplateParams. split; [|split; [|split]].
  - rewrite !lookup_insert_ne by done. apply lookup_empty.
  - rewrite !lookup_insert_ne by done. apply lookup_empty.
  - rewrite !(lookup_insert_ne _ _ "user_service") by done.
    apply lookup_insert_eq.
  - rewrite !(lookup_insert_ne _ _ "user_budget") by done.
    apply lookup_insert_eq.
Qed.

Lemma prepare_keys env s :
  (prepare env s).1 !! "service" = None ∧
  (prepare env s).1 !! "budget" = None.
Proof.
  unfold prepare.
  destruct (foldl _ _ (formData_entries (fields s))) as [tp s6].
  cbn [fst]. split; apply finalTemplateParams_keys.
Qed.

Lemma log_entries_page (l : list (string * string)) :
  ∀ (tp : gmap string string) (s : State),
  let r :=
    foldl (λ acc kv,
             (<[kv.1 := kv.2]> acc.1,
              emit (console_log ["  " +:+ kv.1 +:+ ": " +:+ dquote +:+
                                 kv.2 +:+ dquote]) acc.2))
          (tp, s) l in
  fields r.2 = fields s ∧ errorElements r.2 = errorElements s ∧
  feedback r.2 = feedback s ∧ submitBtn r.2 = submitBtn s ∧
  isSubmitting r.2 = isSubmitting s.
Proof.
  induction l as [|kv l IH]; intros tp s; simpl; [done|].
  apply (IH (<[kv.1 := kv.2]> tp) (emit _ s)).
Qed.

(** Preparing the payload only writes to the console. *)
Lemma prepare_page env s :
  fields (prepare env s).2 = fields s ∧
  errorElements (prepare env s).2 = errorElements s ∧
  feedback (prepare env s).2 = feedback s ∧
  submitBtn (prepare env s).2 = submitBtn s ∧
  isSubmitting (prepare env s).2 = isSubmitting s.
Proof.
  unfold prepare.
  pose proof (log_entries_page (formData_entries (fields s)) ∅
                (emit (console_log ["FormData entries:"])
                   (emit (console_log ["Form elements found:";
                                       "[object HTMLFormControlsCollection]"])
                      s))) as H.
  cbn zeta in H.
  destruct (foldl _ _ (formData_entries (fields s))) as [tp s6].
  cbn [fst snd] in *. done.
Qed.

(** What holds when the handler is suspended at the [await]. *)
Lemma awaiting_inv env s p s1 :
  handleContactSubmission env s = Awaiting p s1 →
  isSubmitting s = false ∧
  originalContent p = Utils.innerHTML (submitBtn s) ∧
  finalTemplateParams p !! "service" = None ∧
  finalTemplateParams p !! "budget" = None ∧
  isSubmitting s1 = true ∧
  submitBtn s1 = {| Utils.innerHTML := Utils.spinner_markup "Sending...";
                    Utils.disabled := true |} ∧
  last (effects s1)
    = Some (emailjs_send serviceId templateId (finalTemplateParams p)).
Proof.
  unfold handleContactSubmission.
  destruct (isSubmitting s) eqn:Hflag; [done|].
  destruct (validate_required_spec s) as ((_ & V2 & _ & _) & _).
  destruct (validate_all (required_indices (fields s)) s) as [ok sv] eqn:Hv.
  cbn [fst snd] in V2. destruct ok; [|done]. cbn [negb].
  cbn [Utils.showLoading].
  match goal with
  | |- context [prepare env ?s3] =>
      pose proof (prepare_keys env s3) as [K1 K2];
      pose proof (prepare_page env s3) as (_ & _ & _ & P4 & P5);
      destruct (prepare env s3) as [ftp s8]
  end.
  cbn [fst snd] in *.
  destruct (emailjs_defined env); [|done].
  intros [= <- <-]. cbn [originalContent finalTemplateParams].
  rewrite V2. repeat split; try done.
  unfold emit. cbn [effects]. apply last_snoc.
Qed.

Lemma finally_spec content s :
  isSubmitting (finally content s) = false ∧
  submitBtn (finally content s)
    = {| Utils.innerHTML := content; Utils.disabled := false |} ∧
  fields (finally content s) = fields s ∧
  errorElements (finally content s) = errorElements s ∧
  feedback (finally content s) = feedback s ∧
  effects (finally content s) = effects s.
Proof. done. Qed.

(** C9: when the promise of [emailjs.send] rejects, the handler logs the
    error with [console.error] and shows the error banner (displayed on a
    page that has the feedback elements); and however the promise
    settles, the submitting flag is false again and the submit control
    has its content from before the attempt and is enabled, so that a new
    attempt passes the guard.  While the call is in flight the flag is
    true and the control is disabled. *)
Theorem failed_submission_resets
    (env : Env) (s s1 s2 : State) (p : Pending) (error : string) :
  handleContactSubmission env s = Awaiting p s1 →
  (isSubmitting s1 = true ∧ Utils.disabled (submitBtn s1) = true) ∧
  (effects (handleContactSubmission_resume env (Rejected error) p s2)
     = effects s2 ++ [console_error ["Form submission failed:"; error]] ∨
   effects (handleContactSubmission_resume env (Rejected error) p s2)
     = (effects s2 ++ [console_error ["Form submission failed:"; error]])
       ++ [scrollIntoView_feedback; setTimeout_hide_feedback 10000]) ∧
  (∀ d sb eb,
     feedback s2 = {| form_feedback := Some d; success_message := Some sb;
                      error_message := Some eb |} →
     feedback (handleContactSubmission_resume env (Rejected error) p s2) =
     {| form_feedback := Some "block";
        success_message := Some (set_display "none" sb);
        error_message :=
          Some {| display := "block";
                  paragraph :=
                    (λ _, "Sorry, there was an error sending your message. Please try again or email me directly.")
                      <$> paragraph eb |} |}) ∧
  (∀ r : SendResult,
     isSubmitting (handleContactSubmission_resume env r p s2) = false ∧
     submitBtn (handleContactSubmission_resume env r p s2)
       = {| Utils.innerHTML := Utils.innerHTML (submitBtn s);
            Utils.disabled := false |}).
Proof.
  intros (_ & Hcontent & _ & _ & Hflag & Hbtn & _)%awaiting_inv.
  split; [by rewrite Hflag, Hbtn|].
  unfold handleContactSubmission_resume, on_error.
  split; [|split].
  - apply (showFormMessage_effects _ false
             (emit (console_error ["Form submission failed:"; error]) s2)).
  - intros d sb eb Hfb.
    by apply (showFormMessage_error_shown _
                (emit (console_error ["Form submission failed:"; error]) s2) d).
  - intros r. rewrite <- Hcontent. by destruct r.
Qed.

Lemma failed_submission_resets_witness :
  ∃ p s1,
    handleContactSubmission Examples.env Examples.jane = Awaiting p s1 ∧
    isSubmitting s1 = true ∧
    isSubmitting
      (handleContactSubmission_resume Examples.env (Rejected "timeout") p s1)
    = false ∧
    submitBtn
      (handleContactSubmission_resume Examples.env (Rejected "timeout") p s1)
    = submitBtn Examples.jane.
Proof.
  destruct (handleContactSubmission Examples.env Examples.jane)
    as [s'|p s1] eqn:H.
  - vm_compute in H. discriminate H.
  - exists p, s1. split; [reflexivity|].
    destruct (failed_submission_resets Examples.env Examples.jane s1 s1 p
                "timeout" H) as ((Hflag & _) & _ & _ & Hall).
    split; [exact Hflag|]. exact (Hall (Rejected "timeout")).
Defined.

(** When the SDK never loaded, [emailjs] is an unresolvable reference and
    the [try] block throws before any promise exists; the same [catch]
    and [finally] run at once. *)
Lemma missing_sdk_submission_resets env s s' :
  emailjs_defined env = false →
  isSubmitting s = false →
  handleContactSubmission env s = Returned s' →
  isSubmitting s' = false ∧
  Utils.innerHTML (submitBtn s') = Utils.innerHTML (submitBtn s).
Proof.
  intros Hsdk Hflag. unfold handleContactSubmission. rewrite Hflag, Hsdk.
  destruct (validate_required_spec s) as ((_ & V2 & V3 & _) & _).
  destruct (validate_all (required_indices (fields s)) s) as [ok sv] eqn:Hv.
  cbn [fst snd] in *. destruct ok; cbn [negb].
  - cbn [Utils.showLoading].
    match goal with
    | |- context [prepare env ?s3] => destruct (prepare env s3) as [ftp s8]
    end.
    intros [= <-]. by rewrite V2.
  - intros [= <-].
    destruct (showFormMessage_rest "Please correct the errors below." false sv)
      as (_ & _ & S3 & S4).
    by rewrite S3, S4, V2, V3.
Qed.

(** C1, as the code has it: the properties object of the
    [contact_form_submit] event is built from the keys [service] and
    [budget] of [finalTemplateParams], which that object does not have
    (the selections are under [user_service] and [user_budget]); both
    properties are [undefined] whatever was selected, and no
    ["Not specified"] default is applied to them. *)
Theorem contact_form_submit_event_properties
    (env : Env) (s s1 s2 : State) (p : Pending) :
  handleContactSubmission env s = Awaiting p s1 →
  effects (handleContactSubmission_resume env Resolved p s2) =
  effects
    (showFormMessage
       "Thank you for your message! I'll get back to you within 24 hours."
       true s2)
  ++ (if gtag_defined env
      then [gtag "event" "contact_form_submit"
              {| service := None; budget := None |}]
      else [])
  ++ [console_log_event "contact_form_submit"
        {| service := None; budget := None |}].
Proof.
  intros (_ & _ & Hservice & Hbudget & _)%awaiting_inv.
  unfold handleContactSubmission_resume, on_success, trackEvent.
  rewrite Hservice, Hbudget.
  destruct (gtag_defined env); cbn; by rewrite <- ?app_assoc.
Qed.

Lemma contact_form_submit_event_properties_witness :
  ∃ p s1,
    handleContactSubmission Examples.env Examples.jane = Awaiting p s1 ∧
    finalTemplateParams p !! "user_service" = Some "web-development" ∧
    finalTemplateParams p !! "user_budget" = Some "5k-10k" ∧
    last (effects (handleContactSubmission_resume Examples.env Resolved p s1))
    = Some (console_log_event "contact_form_submit"
              {| service := None; budget := None |}).
Proof.
  destruct (handleContactSubmission Examples.env Examples.jane)
    as [s'|p s1] eqn:H.
  - vm_compute in H. discriminate H.
  - exists p, s1. split; [reflexivity|].
    rewrite (contact_form_submit_event_properties
               Examples.env Examples.jane s1 s1 p H).
    vm_compute in H. injection H as <- <-.
    split; [reflexivity|]. split; [reflexivity|].
    rewrite !app_assoc. apply last_snoc.
Defined.

End ContactFacts.

(* ===================================================================== *)
(** * [Utils.debounce] and [Utils.throttle]: properties                   *)
(* ===================================================================== *)

Module DebounceFacts.
Import Debounce.

Section Wrapper.

Context {A : Type}.
Implicit Types (s : State A) (a : A) (l : list A).

Lemma debounce_well_formed : well_formed (@debounce A).
Proof. split; [intros h [x Hx]; cbn in Hx; by rewrite lookup_empty in Hx | done]. Qed.

(** After a call exactly one timer is pending, the one of that call. *)
Lemma executedFunction_spec s a :
  well_formed s →
  timeout (executedFunction a s) = Some (next_handle s) ∧
  timers (executedFunction a s) = {[ next_handle s := a ]} ∧
  invocations (executedFunction a s) = invocations s ∧
  next_handle (executedFunction a s) = Pos.succ (next_handle s).
Proof.
  intros [Hone Hnext]. unfold executedFunction, clearTimeout.
  destruct (timeout s) as [k|] eqn:Hk; cbn.
  - repeat split; try done. apply map_eq. intros h.
    destruct (decide (h = next_handle s)) as [->|Hne].
    + by rewrite lookup_insert_eq, lookup_singleton_eq.
    + rewrite lookup_insert_ne, lookup_singleton_ne by done.
      destruct (decide (h = k)) as [->|Hhk]; [apply lookup_delete_eq|].
      rewrite lookup_delete_ne by done.
      destruct (timers s !! h) eqn:Hh; [|done].
      assert (Some k = Some h) as [= ->] by (apply Hone; eauto). done.
  - repeat split; try done. apply map_eq. intros h.
    destruct (decide (h = next_handle s)) as [->|Hne].
    + by rewrite lookup_insert_eq, lookup_singleton_eq.
    + rewrite lookup_insert_ne, lookup_singleton_ne by done.
      destruct (timers s !! h) eqn:Hh; [|done].
      assert (None = Some h) by (apply Hone; eauto). done.
Qed.

(** When the pending timer fires nothing stays pending and [func] is
    invoked with the arguments kept by that timer. *)
Lemma fire_spec s h a :
  well_formed s → timers s !! h = Some a →
  timers (fire h s) = ∅ ∧ invocations (fire h s) = invocations s ++ [a] ∧
  timeout (fire h s) = timeout s ∧ next_handle (fire h s) = next_handle s.
Proof.
  intros [Hone Hnext] Hh. unfold fire. rewrite Hh.
  assert (timeout s = Some h) as Ht by (apply Hone; eauto).
  cbn. rewrite Ht. cbn. repeat split; try done.
  apply map_eq. intros k. rewrite lookup_empty.
  destruct (decide (k = h)) as [->|Hne]; [apply lookup_delete_eq|].
  rewrite !lookup_delete_ne by done.
  destruct (timers s !! k) eqn:Hk; [|done].
  assert (Some h = Some k) as [= ->] by (rewrite <- Ht; apply Hone; eauto).
  done.
Qed.

Lemma debounce_step_well_formed s ev : well_formed s → well_formed (step s ev).
Proof.
  intros Hwf. destruct ev as [a|h]; simpl.
  - destruct (executedFunction_spec s a Hwf) as (Ht & Hm & _ & Hn).
    split.
    + intros h [x Hx]. rewrite Hm in Hx.
      apply lookup_singleton_Some in Hx as [<- _]. done.
    + intros h Hh. rewrite Ht in Hh. injection Hh as <-. rewrite Hn. lia.
  - destruct (timers s !! h) as [a|] eqn:Hh.
    + destruct (fire_spec s h a Hwf Hh) as (Hm & _ & Ht & Hn).
      split.
      * intros k [x Hx]. by rewrite Hm, lookup_empty in Hx.
      * intros k Hk. rewrite Hn. rewrite Ht in Hk. by apply Hwf.
    + unfold fire. by rewrite Hh.
Qed.

Lemma debounce_run_well_formed evs : ∀ s, well_formed s → well_formed (run evs s).
Proof.
  unfold run. induction evs as [|ev evs IH]; intros s Hwf; simpl; [done|].
  apply IH. by apply debounce_step_well_formed.
Qed.

Lemma debounce_run_snoc evs ev s : run (evs ++ [ev]) s = step (run evs s) ev.
Proof. unfold run. by rewrite foldl_app. Qed.

Lemma debounce_call_args_snoc (evs : list (Event A)) (ev : Event A) :
  call_args (evs ++ [ev]) =
  call_args evs ++ match ev with Call a => [a] | Fire _ => [] end.
Proof.
  unfold call_args. rewrite omap_app. f_equal. by destruct ev.
Qed.

(** A burst of calls does not invoke [func]; it leaves one pending timer,
    and when that timer fires [func] is invoked once, with the arguments
    of the last call of the burst. *)
Theorem debounce_burst_invokes_last s l a :
  well_formed s →
  ∃ h,
    timeout (run (Call <$> l ++ [a]) s) = Some h ∧
    timers (run (Call <$> l ++ [a]) s) = {[ h := a ]} ∧
    invocations (run (Call <$> l ++ [a]) s) = invocations s ∧
    invocations (fire h (run (Call <$> l ++ [a]) s)) = invocations s ++ [a] ∧
    timers (fire h (run (Call <$> l ++ [a]) s)) = ∅.
Proof.
  intros Hwf. rewrite fmap_app. cbn [fmap list_fmap]. rewrite debounce_run_snoc.
  assert (well_formed (run (Call <$> l) s) ∧
          invocations (run (Call <$> l) s) = invocations s) as [Hwf' Hinv].
  { split; [by apply debounce_run_well_formed|].
    induction l as [|b l IH] using rev_ind; [done|].
    rewrite fmap_app. cbn [fmap list_fmap]. rewrite debounce_run_snoc. cbn [step].
    destruct (executedFunction_spec (run (Call <$> l) s) b) as (_ & _ & -> & _);
      [by apply debounce_run_well_formed | done]. }
  cbn [step].
  destruct (executedFunction_spec _ a Hwf') as (Ht & Hm & Hi & Hn).
  exists (next_handle (run (Call <$> l) s)).
  split; [done|]. split; [done|]. split; [by rewrite Hi|].
  destruct (fire_spec (executedFunction a (run (Call <$> l) s))
              (next_handle (run (Call <$> l) s)) a) as (Hm' & Hi' & _).
  { by apply (debounce_step_well_formed _ (Call a)). }
  { by rewrite Hm, lookup_singleton_eq. }
  split; [by rewrite Hi', Hi, Hinv | done].
Qed.

(** Over any sequence of calls and timer firings of a fresh wrapper,
    [func] is invoked only with arguments the wrapper was called with, in
    the order of those calls and at most once per call; and never more
    than one timer is pending. *)
Theorem debounce_invocations_sublist (evs : list (Event A)) :
  invocations (run evs debounce) `sublist_of` call_args evs ∧
  (∀ h1 h2, is_Some (timers (run evs debounce) !! h1) →
            is_Some (timers (run evs debounce) !! h2) → h1 = h2).
Proof.
  assert (well_formed (run evs (@debounce A))) as Hwf
    by (apply debounce_run_well_formed, debounce_well_formed).
  split.
  - enough (invocations (run evs debounce) `sublist_of` call_args evs ∧
            ∀ h a, timers (run evs debounce) !! h = Some a →
                   (invocations (run evs debounce) ++ [a])
                     `sublist_of` call_args evs) as [H _] by done.
    clear Hwf. induction evs as [|ev evs [IH1 IH2]] using rev_ind.
    { split; [done|]. intros h a Hh. cbn in Hh. by rewrite lookup_empty in Hh. }
    assert (well_formed (run evs (@debounce A))) as Hwf
      by (apply debounce_run_well_formed, debounce_well_formed).
    rewrite debounce_run_snoc, debounce_call_args_snoc. destruct ev as [a|h]; cbn [step].
    + destruct (executedFunction_spec _ a Hwf) as (_ & Hm & Hi & _).
      rewrite Hm, Hi. split.
      * by apply sublist_inserts_r.
      * intros h b [<- <-]%lookup_singleton_Some. by apply sublist_app.
    + rewrite app_nil_r. destruct (timers (run evs debounce) !! h) as [a|] eqn:Hh.
      * destruct (fire_spec _ h a Hwf Hh) as (Hm & Hi & _).
        rewrite Hm, Hi. split; [by eapply IH2|].
        intros k b Hk. by rewrite lookup_empty in Hk.
      * unfold fire. rewrite Hh. done.
  - intros h1 h2 H1 H2. destruct Hwf as [Hone _].
    pose proof (Hone h1 H1) as E1. pose proof (Hone h2 H2) as E2.
    congruence.
Qed.

End Wrapper.

Lemma debounce_burst_invokes_last_witness :
  ∃ h, timers (run (Call <$> [1%nat; 2%nat] ++ [3%nat]) debounce)
       = {[ h := 3%nat ]} ∧
       invocations (fire h (run (Call <$> [1%nat; 2%nat] ++ [3%nat]) debounce))
       = [] ++ [3%nat].
Proof.
  destruct (debounce_burst_invokes_last (@debounce nat) [1%nat; 2%nat] 3%nat)
    as (h & _ & Hm & _ & Hi & _).
  - apply debounce_well_formed.
  - exists h. split; [exact Hm | exact Hi].
Defined.

End DebounceFacts.

Module ThrottleFacts.
Import Throttle.

Section Wrapper.

Context {A : Type}.
Implicit Types (s : State A) (a : A) (l : list A).

Lemma throttle_step_well_formed s ev : well_formed s → well_formed (step s ev).
Proof.
  unfold well_formed. intros Hwf. destruct ev as [a|]; simpl.
  - unfold call. destruct (inThrottle s) eqn:Ht; cbn; rewrite ?Ht; by rewrite Hwf.
  - unfold fire. rewrite Hwf. destruct (inThrottle s) eqn:Ht; cbn; rewrite ?Ht; done.
Qed.

Lemma throttle_run_snoc evs ev s : run (evs ++ [ev]) s = step (run evs s) ev.
Proof. unfold run. by rewrite foldl_app. Qed.

Lemma throttle_run_well_formed evs : ∀ s, well_formed s → well_formed (run evs s).
Proof.
  unfold run. induction evs as [|ev evs IH]; intros s Hwf; simpl; [done|].
  apply IH. by apply throttle_step_well_formed.
Qed.

Lemma throttle_call_args_snoc (evs : list (Event A)) (ev : Event A) :
  call_args (evs ++ [ev]) =
  call_args evs ++ match ev with Call a => [a] | Fire => [] end.
Proof.
  unfold call_args. rewrite omap_app. f_equal. by destruct ev.
Qed.

Lemma fires_snoc (evs : list (Event A)) (ev : Event A) :
  fires (evs ++ [ev]) = (fires evs + if is_fire ev then 1 else 0)%nat.
Proof.
  unfold fires. rewrite filter_app, length_app. f_equal.
  rewrite filter_cons, filter_nil. destruct (is_fire ev); by case_decide.
Qed.

(** Over any sequence of calls and timer firings, [func] is invoked only
    with arguments of calls, in their order and at most once each, and
    the number of invocations is bounded by the number of timers that
    fired, plus one when the wrapper was idle at the start. *)
Theorem throttle_invocations_bounded s (evs : list (Event A)) :
  well_formed s →
  ∃ l, invocations (run evs s) = invocations s ++ l ∧
       l `sublist_of` call_args evs ∧
       (length l ≤ fires evs + if inThrottle s then 0 else 1)%nat.
Proof.
  intros Hwf.
  enough (∃ l, invocations (run evs s) = invocations s ++ l ∧
               l `sublist_of` call_args evs ∧
               (length l + (if inThrottle (run evs s) then 0 else 1)
                ≤ fires evs + if inThrottle s then 0 else 1)%nat)
    as (l & H1 & H2 & H3).
  { exists l. split; [done|]. split; [done|]. lia. }
  induction evs as [|ev evs (l & H1 & H2 & H3)] using rev_ind.
  { exists []. cbn. rewrite app_nil_r. split; [done|]. split; [done|]. lia. }
  pose proof (throttle_run_well_formed evs s Hwf) as Hwf'. unfold well_formed in Hwf'.
  rewrite throttle_run_snoc, throttle_call_args_snoc, fires_snoc.
  destruct ev as [a|]; cbn [step is_fire].
  - unfold call. destruct (inThrottle (run evs s)) eqn:Ht; cbn [negb].
    + exists l. rewrite Ht. split; [done|].
      split; [by apply sublist_inserts_r | lia].
    + exists (l ++ [a]). cbn. rewrite H1, <- app_assoc.
      split; [done|]. split; [by apply sublist_app|].
      rewrite length_app. simpl. lia.
  - rewrite app_nil_r. unfold fire. rewrite Hwf'.
    destruct (inThrottle (run evs s)) eqn:Ht; cbn.
    + exists l. split; [done|]. split; [done|]. lia.
    + exists l. rewrite Ht. split; [done|]. split; [done|]. lia.
Qed.

End Wrapper.

Lemma throttle_invocations_bounded_witness :
  ∃ l, invocations (run [Call 1%nat; Call 2%nat; Fire; Call 3%nat] throttle)
       = [] ++ l ∧ (length l ≤ 2)%nat.
Proof.
  destruct (throttle_invocations_bounded (@throttle nat)
              [Call 1%nat; Call 2%nat; Fire; Call 3%nat])
    as (l & H1 & _ & H3).
  - reflexivity.
  - exists l. split; [exact H1 | exact H3].
Defined.

(** The wrapper has no trailing invocation: once it has invoked [func],
    the calls made before its timer fires are dropped for good, however
    long one waits afterwards. *)
Theorem throttle_drops_calls_in_window {A : Type}
    (s : State A) (a : A) (l : list A) (n : nat) :
  well_formed s → inThrottle s = false →
  invocations (run (Call a :: (Call <$> l) ++ replicate n Fire) s)
  = invocations s ++ [a].
Proof.
  unfold well_formed. intros Hwf Ht. rewrite Ht in Hwf.
  unfold run. cbn [foldl step]. unfold call at 1. rewrite Ht, Hwf. cbn [negb].
  rewrite foldl_app.
  set (s1 := {| inThrottle := true; pending := 1;
                invocations := invocations s ++ [a] |}).
  assert (foldl step s1 (Call <$> l) = s1) as ->.
  { induction l as [|b l IH]; [done|]. cbn. exact IH. }
  destruct n as [|n]; [done|]. cbn.
  induction n as [|n IH]; [done|]. cbn. exact IH.
Qed.

Lemma throttle_drops_calls_in_window_witness :
  invocations (run (Call 10%nat :: (Call <$> [20%nat; 30%nat])
                    ++ replicate 3 Fire) throttle)
  = [] ++ [10%nat].
Proof.
  apply (throttle_drops_calls_in_window (@throttle nat) 10%nat
           [20%nat; 30%nat] 3); reflexivity.
Defined.

End ThrottleFacts.

(* ===================================================================== *)
(** * [NavigationManager]: properties                                     *)
(* ===================================================================== *)

Module NavigationFacts.
Import NavigationManager.

(** ** The mobile menu *)

Lemma classList_flip_elem token cl :
  token ∈ classList_flip token cl ↔ token ∉ cl.
Proof.
  unfold classList_flip. case_bool_decide as H.
  - split; [|done]. intros [_ Hn]%elem_of_difference.
    destruct Hn. by apply elem_of_singleton.
  - split; [done|]. intros _. apply elem_of_union. left.
    by apply elem_of_singleton.
Qed.

(** Which of the strings computed for the bars a style declaration keeps. *)
Lemma bar_transform_kept index :
  index ≠ 1%nat → is_transform (bar_transform true index) = true.
Proof. intros H. destruct index as [|[|index]]; [done|done|]. by vm_compute. Qed.

Lemma bar_transform_dropped : is_transform (bar_transform true 1) = false.
Proof. by vm_compute. Qed.

Lemma toggleMobileMenu_class s :
  menu_class_consistent s → menu_class_consistent (toggleMobileMenu s).
Proof.
  unfold menu_class_consistent, toggleMobileMenu. cbn. intros Hcl.
  rewrite classList_flip_elem. destruct (isMenuOpen s); cbn.
  - split; [|done]. intros Hn. destruct Hn. by apply Hcl.
  - split; [done|]. intros _ Hin. by apply Hcl in Hin.
Qed.

Lemma toggleMobileMenu_consistent s :
  menu_consistent s → menu_consistent (toggleMobileMenu s).
Proof.
  intros [Hcl Hopen]. split; [by apply toggleMobileMenu_class|].
  unfold toggleMobileMenu.
  cbn [set_menu isMenuOpen aria_expanded body_overflow bars].
  destruct (isMenuOpen s) eqn:Ho; cbn [negb]; [done|].
  intros _. split; [done|]. split; [done|].
  intros i b Hb Hi. rewrite list_lookup_imap in Hb.
  destruct (bars s !! i) as [old|]; [|done].
  cbn [fmap option_fmap option_map] in Hb.
  injection Hb as <-. unfold assign_transform.
  pose proof (bar_transform_kept i Hi) as Hk.
  fold (bar_transform true i). by rewrite Hk.
Qed.

(** Opening the menu leaves the second bar as it was: the string computed
    for it is no transform. *)
Lemma toggleMobileMenu_second_bar s :
  isMenuOpen s = false → bars (toggleMobileMenu s) !! 1%nat = bars s !! 1%nat.
Proof.
  intros Ho. unfold toggleMobileMenu. cbn [set_menu bars]. rewrite Ho.
  cbn [negb]. rewrite list_lookup_imap.
  destruct (bars s !! 1%nat) as [old|]; [|done].
  cbn [fmap option_fmap option_map]. unfold assign_transform.
  fold (bar_transform true 1). by rewrite bar_transform_dropped.
Qed.

Lemma closeMobileMenu_consistent s :
  menu_consistent s → menu_consistent (closeMobileMenu s).
Proof.
  intros H. unfold closeMobileMenu.
  destruct (isMenuOpen s); cbn; [by apply toggleMobileMenu_consistent | done].
Qed.

(** What closing does to a state whose menu class is right. *)
Lemma closeMobileMenu_closes s :
  menu_class_consistent s →
  isMenuOpen (closeMobileMenu s) = false ∧
  ("active" ∉ navMenu_classList (closeMobileMenu s)) ∧
  (isMenuOpen s = true →
     aria_expanded (closeMobileMenu s) = Some "false" ∧
     body_overflow (closeMobileMenu s) = "" ∧
     ∀ b, b ∈ bars (closeMobileMenu s) → b = "").
Proof.
  intros Hcl. unfold closeMobileMenu, toggleMobileMenu.
  destruct (isMenuOpen s) eqn:Hs; cbn.
  - rewrite classList_flip_elem.
    split; [done|]. split; [intros Hn; apply Hn; by apply Hcl|].
    intros _. split; [done|]. split; [done|].
    intros b [i Hb]%list_elem_of_lookup. rewrite list_lookup_imap in Hb.
    destruct (bars s !! i); by simplify_eq/=.
  - split; [done|]. split; [|done].
    intros Hin. apply Hcl in Hin. congruence.
Qed.

Section Selectors.

Variable querySelector_spliced : string → list NavLink → Selected.

Lemma handle_consistent s ev :
  menu_consistent s → menu_consistent (handle querySelector_spliced s ev).
Proof.
  intros H. destruct ev as [|inMenu inToggle|key|i|entries|p q|]; cbn.
  - by apply toggleMobileMenu_consistent.
  - unfold documentClick.
    destruct (isMenuOpen s && negb inMenu && negb inToggle);
      [by apply closeMobileMenu_consistent | done].
  - unfold keydown.
    destruct (bool_decide (key = "Escape") && isMenuOpen s);
      [by apply closeMobileMenu_consistent | done].
  - unfold linkClick. destruct (navLinks s !! i) as [link|]; [|done].
    destruct (JS.startsWith "#" (href link)); [|done].
    destruct (offsetTops s !! substring1 (href link)); [|done].
    by apply closeMobileMenu_consistent.
  - done.
  - done.
  - done.
Qed.

(** Whatever the user does (toggle, clicks, keys, links, scrolling), the
    [active] class of the menu says whether the menu is open, and while
    it is open the toggle has [aria-expanded="true"], the body does not
    scroll and every bar but the second has the rotation computed for
    it.  (The string computed for the second bar is no transform and is
    not stored.) *)
Theorem menu_state_stays_consistent (evs : list Event) (s : State) :
  menu_consistent s → menu_consistent (run querySelector_spliced evs s).
Proof.
  unfold NavigationManager.run. revert s.
  induction evs as [|ev evs IH]; intros s H; cbn; [done|].
  apply IH. by apply handle_consistent.
Qed.

(** Escape, a click outside the menu and the toggle, and a click on a
    link to an element of the page each leave the menu closed, and when
    it was open leave [aria-expanded="false"], the scroll lock released
    and every bar without a transform; this needs of the state before
    only that the menu's class says whether the menu is open. *)
Theorem closing_events_close_menu (s : State) (ev : Event) :
  menu_class_consistent s → closes s ev →
  isMenuOpen (handle querySelector_spliced s ev) = false ∧
  ("active" ∉ navMenu_classList (handle querySelector_spliced s ev)) ∧
  (isMenuOpen s = true →
     aria_expanded (handle querySelector_spliced s ev) = Some "false" ∧
     body_overflow (handle querySelector_spliced s ev) = "" ∧
     ∀ b, b ∈ bars (handle querySelector_spliced s ev) → b = "").
Proof.
  intros Hcl Hev. pose proof (closeMobileMenu_closes s Hcl) as Hc.
  assert (isMenuOpen s = false →
          isMenuOpen s = false ∧ ("active" ∉ navMenu_classList s) ∧
          (isMenuOpen s = true →
             aria_expanded s = Some "false" ∧ body_overflow s = "" ∧
             ∀ b, b ∈ bars s → b = "")) as Hidle.
  { intros Hs. split; [done|]. split; [|by rewrite Hs].
    intros Hin. apply Hcl in Hin. congruence. }
  destruct ev as [|inMenu inToggle|key|i|entries|p q|]; cbn [closes] in Hev;
    try done; cbn [NavigationManager.handle].
  - destruct Hev as [-> ->]. unfold documentClick.
    destruct (isMenuOpen s) eqn:Hs; cbn; [exact Hc|].
    rewrite ?Hs. by apply Hidle.
  - subst key. unfold keydown. rewrite bool_decide_eq_true_2 by done.
    destruct (isMenuOpen s) eqn:Hs; cbn; [exact Hc|].
    rewrite ?Hs. by apply Hidle.
  - destruct Hev as (link & top & Hl & Hh & Ht).
    unfold linkClick. rewrite Hl, Hh, Ht.
    apply (closeMobileMenu_closes (scrollToElement top 80 s)). exact Hcl.
Qed.

(** ** The active link *)

Lemma remove_active_hrefs (links : list NavLink) :
  href <$> (remove_active <$> links) = href <$> links.
Proof. rewrite <- list_fmap_compose. by apply list_fmap_ext. Qed.

(** The link found for a section depends on the [href]s only. *)
Lemma first_link_hrefs id links1 links2 :
  href <$> links1 = href <$> links2 →
  first_link id links1 = first_link id links2.
Proof.
  intros H. unfold first_link.
  assert (∀ links, fst <$> list_find (λ link, href link = "#" +:+ id) links
                   = fst <$> list_find (λ h, h = "#" +:+ id) (href <$> links))
    as Hf.
  { intros links. rewrite list_find_fmap.
    by destruct (list_find _ links) as [[? ?]|]. }
  by rewrite !Hf, H.
Qed.

Lemma alter_add_active_hrefs i (links : list NavLink) :
  href <$> alter add_active i links = href <$> links.
Proof.
  apply list_eq. intros j.
  rewrite !list_lookup_fmap, list_lookup_alter.
  case_decide; [subst|]; by destruct (links !! j).
Qed.

Lemma activeLinkEntry_hrefs entry links :
  href <$> (activeLinkEntry querySelector_spliced entry links).1 = href <$> links.
Proof.
  unfold NavigationManager.activeLinkEntry.
  destruct (isIntersecting entry); [|done].
  destruct (querySelector_link _ _ _) as [i| |]; cbn [fst];
    by rewrite ?alter_add_active_hrefs, remove_active_hrefs.
Qed.

(** One intersecting entry with a plain id. *)
Lemma activeLinkEntry_plain entry links :
  isIntersecting entry = true →
  css_string_plain (target_id entry) = true →
  (activeLinkEntry querySelector_spliced entry links).2 = false ∧
  ∀ i link', (activeLinkEntry querySelector_spliced entry links).1 !! i = Some link' →
    ("active" ∈ link_classList link' ↔
     first_link (target_id entry) links = Some i).
Proof.
  intros Hint Hplain.
  unfold NavigationManager.activeLinkEntry, querySelector_link.
  rewrite Hint, Hplain.
  rewrite (first_link_hrefs _ _ links (remove_active_hrefs links)).
  assert (∀ l, "active" ∉ link_classList (remove_active l)) as Hno.
  { intros l [_ Hn]%elem_of_difference. destruct Hn.
    by apply elem_of_singleton. }
  destruct (first_link (target_id entry) links) as [j|]; cbn [fst snd];
    (split; [done|]); intros i link'.
  - rewrite list_lookup_alter. case_decide as Hij.
    + subst j. rewrite list_lookup_fmap.
      destruct (links !! i) as [l|]; [|done]. intros [= <-].
      split; [done|]. intros _. apply elem_of_union. left.
      by apply elem_of_singleton.
    + rewrite list_lookup_fmap. destruct (links !! i) as [l|]; [|done].
      intros [= <-]. split; [by intros ?%Hno | intros [= ?]; done].
  - rewrite list_lookup_fmap. destruct (links !! i) as [l|]; [|done].
    intros [= <-]. split; [by intros ?%Hno | done].
Qed.

Lemma last_intersecting_cons e entries :
  last_intersecting (e :: entries) =
  match last_intersecting entries with
  | Some id => Some id
  | None => if isIntersecting e then Some (target_id e) else None
  end.
Proof.
  unfold last_intersecting. rewrite filter_cons.
  destruct (isIntersecting e); case_decide; try done.
  - rewrite fmap_cons, last_cons.
    by destruct (last (target_id <$> filter _ entries)).
  - by destruct (last (target_id <$> filter _ entries)).
Qed.

Lemma activeLinkEntries_spec (entries : list Entry) : ∀ links,
  (∀ e, e ∈ entries → isIntersecting e = true →
        css_string_plain (target_id e) = true) →
  href <$> activeLinkEntries querySelector_spliced entries links = href <$> links ∧
  match last_intersecting entries with
  | Some id =>
      ∀ i link', activeLinkEntries querySelector_spliced entries links !! i = Some link' →
        ("active" ∈ link_classList link' ↔ first_link id links = Some i)
  | None => activeLinkEntries querySelector_spliced entries links = links
  end.
Proof.
  induction entries as [|e entries IH]; intros links Hplain; [done|].
  cbn [NavigationManager.activeLinkEntries].
  pose proof (activeLinkEntry_hrefs e links) as Hh.
  rewrite last_intersecting_cons.
  destruct (isIntersecting e) eqn:He.
  - destruct (activeLinkEntry_plain e links He) as [Hthrown Hactive].
    { apply Hplain; [by left | done]. }
    destruct (activeLinkEntry querySelector_spliced e links) as [links1 thrown].
    cbn [fst snd] in *. subst thrown.
    destruct (IH links1) as [IHh IHa].
    { intros e' He'. apply Hplain. by right. }
    split; [by rewrite IHh|].
    destruct (last_intersecting entries) as [id|].
    + intros i link' Hi. rewrite (IHa i link' Hi).
      by rewrite (first_link_hrefs _ _ _ Hh).
    + rewrite IHa. exact Hactive.
  - assert (activeLinkEntry querySelector_spliced e links = (links, false)) as ->
      by (unfold NavigationManager.activeLinkEntry; by rewrite He).
    destruct (IH links) as [IHh IHa].
    { intros e' He'. apply Hplain. by right. }
    split; [done|]. by destruct (last_intersecting entries).
Qed.

Lemma activeLinkCallback_spec (entries : list Entry) (s : State) :
  (∀ e, e ∈ entries → isIntersecting e = true →
        css_string_plain (target_id e) = true) →
  match last_intersecting entries with
  | Some id =>
      ∀ i link', navLinks (activeLinkCallback querySelector_spliced entries s) !! i = Some link' →
        ("active" ∈ link_classList link' ↔
         first_link id (navLinks s) = Some i)
  | None => activeLinkCallback querySelector_spliced entries s = set_navLinks (navLinks s) s
  end.
Proof.
  intros Hplain. unfold NavigationManager.activeLinkCallback.
  cbn [navLinks set_navLinks].
  destruct (activeLinkEntries_spec entries (navLinks s) Hplain) as [_ H].
  destruct (last_intersecting entries); [done|]. by rewrite H.
Qed.

(** An entry for which [querySelector] throws ends the batch: no link is
    active, and the entries after it are not looked at. *)
Lemma activeLinkEntries_throws e entries links :
  isIntersecting e = true →
  querySelector_link querySelector_spliced (target_id e)
    (remove_active <$> links) = SyntaxError →
  activeLinkEntries querySelector_spliced (e :: entries) links = remove_active <$> links.
Proof.
  intros He Hq. cbn [NavigationManager.activeLinkEntries].
  unfold NavigationManager.activeLinkEntry. by rewrite He, Hq.
Qed.

End Selectors.

Lemma nav_consistent : menu_consistent Samples.nav.
Proof.
  split; [|done].
  split; [|done]. cbn. by intros [=]%elem_of_singleton.
Qed.

Lemma menu_state_stays_consistent_witness :
  let s :=
    run (λ _ _, SyntaxError)
      [ToggleClick; Scroll 120 0; KeyDown "Tab"] Samples.nav in
  menu_consistent s ∧
  bars s = ["rotate(45deg)"; ""; "rotate(-45deg)"].
Proof.
  split; [|reflexivity].
  apply (menu_state_stays_consistent (λ _ _, SyntaxError)
           [ToggleClick; Scroll 120 0; KeyDown "Tab"] Samples.nav).
  exact nav_consistent.
Defined.

Lemma closing_events_close_menu_witness :
  isMenuOpen Samples.nav_open = true ∧
  bars Samples.nav_open = ["rotate(45deg)"; ""; "rotate(-45deg)"] ∧
  isMenuOpen (handle (λ _ _, SyntaxError) Samples.nav_open (LinkClick 1))
  = false ∧
  body_overflow (handle (λ _ _, SyntaxError) Samples.nav_open (LinkClick 1))
  = "".
Proof.
  assert (menu_class_consistent Samples.nav_open) as Hc
    by apply toggleMobileMenu_class, nav_consistent.
  assert (closes Samples.nav_open (LinkClick 1)) as Hev.
  { exists {| href := "#contact"; link_classList := {[ "nav-link" ]} |}, 2400.
    split; [reflexivity|]. split; reflexivity. }
  destruct (closing_events_close_menu (λ _ _, SyntaxError) Samples.nav_open
              (LinkClick 1) Hc Hev) as (Hclosed & _ & Hopen).
  split; [reflexivity|]. split; [reflexivity|]. split; [exact Hclosed|].
  exact (proj1 (proj2 (Hopen eq_refl))).
Defined.

(** After a batch of intersection entries whose intersecting sections
    have ids of plain characters (no quote, backslash, line break or
    NUL, so that the selector built from the id is the attribute test it
    is written as), the link marked [active] is the first link pointing
    at the section of the last intersecting entry, and no other link is:
    the most recent section wins, and a section without a link leaves no
    link active.  A batch without an intersecting entry changes
    nothing. *)
Theorem active_link_is_last_intersecting
    (querySelector_spliced : string → list NavLink → Selected)
    (entries : list Entry) (s : State) :
  (∀ e, e ∈ entries → isIntersecting e = true →
        css_string_plain (target_id e) = true) →
  match last_intersecting entries with
  | Some id =>
      ∀ i link',
        navLinks (activeLinkCallback querySelector_spliced entries s) !! i
        = Some link' →
        ("active" ∈ link_classList link' ↔
         first_link id (navLinks s) = Some i)
  | None =>
      activeLinkCallback querySelector_spliced entries s
      = set_navLinks (navLinks s) s
  end.
Proof. apply activeLinkCallback_spec. Qed.

Lemma active_link_is_last_intersecting_witness :
  ∃ about contact,
    navLinks (activeLinkCallback (λ _ _, SyntaxError) Samples.sections
                Samples.nav) !! 0%nat = Some about ∧
    navLinks (activeLinkCallback (λ _ _, SyntaxError) Samples.sections
                Samples.nav) !! 1%nat = Some contact ∧
    ("active" ∉ link_classList about) ∧ "active" ∈ link_classList contact.
Proof.
  pose proof (active_link_is_last_intersecting (λ _ _, SyntaxError)
                Samples.sections Samples.nav) as H.
  assert (∀ e, e ∈ Samples.sections → isIntersecting e = true →
               css_string_plain (target_id e) = true) as Hplain.
  { intros e He _. unfold Samples.sections in He.
    repeat (apply elem_of_cons in He as [->|He]; [reflexivity|]).
    by apply elem_of_nil in He. }
  specialize (H Hplain).
  change (last_intersecting Samples.sections) with (Some "contact") in H.
  change (first_link "contact" (navLinks Samples.nav)) with (Some 1%nat) in H.
  destruct (navLinks (activeLinkCallback (λ _ _, SyntaxError)
                        Samples.sections Samples.nav) !! 0%nat)
    as [about|] eqn:H0; [|vm_compute in H0; discriminate H0].
  destruct (navLinks (activeLinkCallback (λ _ _, SyntaxError)
                        Samples.sections Samples.nav) !! 1%nat)
    as [contact|] eqn:H1; [|vm_compute in H1; discriminate H1].
  exists about, contact. split; [reflexivity|]. split; [reflexivity|].
  split.
  - intros Ha. apply (H 0%nat about H0) in Ha. discriminate Ha.
  - apply (H 1%nat contact H1). reflexivity.
Defined.

(** Hence at most one link is active after a batch in which a section
    intersects. *)
Lemma at_most_one_active_link
    (querySelector_spliced : string → list NavLink → Selected)
    (entries : list Entry) (s : State) i j li lj :
  (∀ e, e ∈ entries → isIntersecting e = true →
        css_string_plain (target_id e) = true) →
  is_Some (last_intersecting entries) →
  navLinks (activeLinkCallback querySelector_spliced entries s) !! i = Some li →
  navLinks (activeLinkCallback querySelector_spliced entries s) !! j = Some lj →
  "active" ∈ link_classList li → "active" ∈ link_classList lj → i = j.
Proof.
  intros Hplain [id Hid] Hi Hj Hai Haj.
  pose proof (activeLinkCallback_spec querySelector_spliced entries s Hplain)
    as H.
  rewrite Hid in H.
  apply (H i li Hi) in Hai. apply (H j lj Hj) in Haj. congruence.
Qed.

End NavigationFacts.

(* ===================================================================== *)
(** * Observers, gallery and skills panel over a session: properties      *)
(* ===================================================================== *)

Module SessionFacts.

Section Observers.
Import AnimationManager AnimationTimeouts.

Variable n : node.

Lemma widths_of_snoc q t :
  widths_of n (q ++ [t]) =
  (widths_of n q + if is_width_of n t.2 then 1 else 0)%nat.
Proof.
  unfold widths_of. rewrite filter_app, length_app. f_equal.
  rewrite filter_cons, filter_nil.
  destruct (is_width_of n t.2); by case_decide.
Qed.

Lemma scrollEntry_claimed entry s :
  claimed_once n s → claimed_once n (scrollEntry entry s).
Proof.
  intros [H1 H0]. unfold scrollEntry.
  destruct (isIntersecting entry); [|done]. cbn [andb].
  case_bool_decide as Hin; [done|]. cbn [negb].
  unfold claimed_once. cbn [animatedElements_add animateElement setTimeout
    timeouts animatedElements].
  rewrite AnimationFacts.reveals_of_snoc, widths_of_snoc. cbn [snd is_reveal_of
    is_width_of].
  case_bool_decide as Heq.
  - subst n. specialize (H0 Hin). split; [lia|].
    intros Hn. destruct Hn. apply elem_of_union. left.
    by apply elem_of_singleton.
  - split; [lia|]. intros Hn.
    assert (n ∉ animatedElements s) as Hn'.
    { intros ?. apply Hn. apply elem_of_union. by right. }
    specialize (H0 Hn'). lia.
Qed.

Lemma skillBarEntry_claimed entry s :
  claimed_once n s → claimed_once n (skillBarEntry entry s).
Proof.
  intros [H1 H0]. unfold skillBarEntry.
  destruct (isIntersecting entry); [|done]. cbn [andb].
  case_bool_decide as Hin; [done|]. cbn [negb].
  unfold claimed_once. cbn [animatedElements_add setTimeout timeouts
    animatedElements].
  rewrite AnimationFacts.reveals_of_snoc, widths_of_snoc. cbn [snd is_reveal_of
    is_width_of].
  case_bool_decide as Heq.
  - subst n. specialize (H0 Hin). split; [lia|].
    intros Hn. destruct Hn. apply elem_of_union. left.
    by apply elem_of_singleton.
  - split; [lia|]. intros Hn.
    assert (n ∉ animatedElements s) as Hn'.
    { intros ?. apply Hn. apply elem_of_union. by right. }
    specialize (H0 Hn'). lia.
Qed.

Lemma handle_all_claimed evs : ∀ s,
  claimed_once n s → claimed_once n (handle_all evs s).
Proof.
  unfold handle_all.
  induction evs as [|ev evs IH]; intros s Hs; cbn [foldl]; [done|].
  apply IH. clear IH. destruct ev as [entries|entries]; cbn [handle];
    unfold scrollCallback, skillBarCallback;
    revert s Hs; induction entries as [|e entries IH]; intros s Hs;
    cbn [foldl]; auto.
  - apply IH. by apply scrollEntry_claimed.
  - apply IH. by apply skillBarEntry_claimed.
Qed.

End Observers.

(** The two observers share [animatedElements]: over a page load an
    element gets at most one timeout in all, either the entrance reveal
    or the width assignment of the skill bars, whichever observer
    reports it first. *)
Theorem one_animation_per_element
    (doc : gmap AnimationManager.node AnimationManager.Element)
    (evs : list AnimationManager.Event) (n : AnimationManager.node) :
  (AnimationManager.reveals_of n
     (AnimationManager.timeouts
        (AnimationManager.handle_all evs (AnimationManager.new doc)))
   + AnimationTimeouts.widths_of n
       (AnimationManager.timeouts
          (AnimationManager.handle_all evs (AnimationManager.new doc)))
   ≤ 1)%nat.
Proof.
  apply (handle_all_claimed n evs (AnimationManager.new doc)).
  split; [|done]. cbn. lia.
Qed.

Section Gallery.
Import ProjectsManager GallerySession.

Lemma run_timeouts_length q : ∀ s,
  length (projectCards (foldl (λ s (t : Timers.timeout Callback), run t.2 s) s q))
  = length (projectCards s).
Proof.
  induction q as [|t q IH]; intros s; cbn [foldl]; [done|].
  rewrite IH. unfold run. cbn. by rewrite length_alter.
Qed.

Lemma click_other_filter f s :
  f ≠ currentFilter s →
  currentFilter (click f s) = f ∧
  filterBtns (click f s) = toggle_btn f <$> filterBtns s ∧
  length (projectCards (click f s)) = length (projectCards s).
Proof.
  intros Hf. unfold click, settled, Timers.run_all, filterProjects.
  rewrite bool_decide_eq_false_2 by done. cbn [fst snd].
  generalize (Timers.firing_order (imap (card_timeout f) (projectCards s))).
  intros q. split; [|split].
  - induction q as [|t q IH] using rev_ind; [done|].
    by rewrite foldl_app.
  - induction q as [|t q IH] using rev_ind; [done|].
    by rewrite foldl_app.
  - rewrite run_timeouts_length. cbn. by rewrite length_fmap.
Qed.

Lemma click_consistent f s : consistent s → consistent (click f s).
Proof.
  intros [Hcards Hbtns].
  destruct (decide (f = currentFilter s)) as [->|Hf].
  { unfold click, filterProjects. rewrite bool_decide_eq_true_2 by done.
    done. }
  destruct (click_other_filter f s Hf) as (Hcur & Hb & Hlen).
  split.
  - intros card' [i Hi]%list_elem_of_lookup. rewrite Hcur.
    assert (is_Some (projectCards s !! i)) as [card Hc].
    { apply lookup_lt_is_Some. rewrite <- Hlen. by eapply lookup_lt_Some. }
    unfold click in Hi.
    rewrite (FilterFacts.settled_card f s i card Hf Hc) in Hi.
    injection Hi as <-. unfold shouldShow at 2, restyle.
    destruct (shouldShow f card) eqn:Hshow; cbn.
    + symmetry. exact Hshow.
    + symmetry. exact Hshow.
  - intros btn'. rewrite Hb, Hcur.
    intros (btn & -> & _)%list_elem_of_fmap.
    unfold toggle_btn, classList_toggle. cbn.
    case_bool_decide as Hd.
    + split; [done|]. intros _. apply elem_of_union. left.
      by apply elem_of_singleton.
    + split; [|done]. intros [_ Hn]%elem_of_difference.
      destruct Hn. by apply elem_of_singleton.
Qed.

(** Through any sequence of filter clicks, each left to settle, the cards
    on screen are exactly those the current filter selects and the
    highlighted controls are exactly those of the current filter; the
    current filter is the last one clicked. *)
Theorem gallery_stays_consistent (filters : list string) (s : State) :
  consistent s →
  consistent (clicks filters s) ∧
  currentFilter (clicks filters s) = default (currentFilter s) (last filters).
Proof.
  unfold clicks. revert s.
  induction filters as [|f filters IH] using rev_ind; intros s H; [done|].
  rewrite foldl_app, last_snoc. cbn [foldl default].
  destruct (IH s H) as [Hc _]. split; [by apply click_consistent|].
  destruct (decide (f = currentFilter (foldl (λ s filter, click filter s)
                                          s filters))) as [Heq|Hne].
  - unfold click, filterProjects.
    rewrite bool_decide_eq_true_2 by done. by rewrite Heq.
  - by destruct (click_other_filter f _ Hne) as (-> & _).
Qed.

End Gallery.

Lemma projects_consistent : GallerySession.consistent Examples.projects.
Proof.
  split.
  - intros card Hcard. cbn in Hcard.
    repeat (apply elem_of_cons in Hcard as [->|Hcard];
            [vm_compute; reflexivity|]).
    by apply elem_of_nil in Hcard.
  - intros btn Hbtn. cbn in Hbtn.
    apply elem_of_cons in Hbtn as [->|Hbtn].
    { split; [done|]. intros _. apply (bool_decide_unpack _). by vm_compute. }
    repeat (apply elem_of_cons in Hbtn as [->|Hbtn];
            [split; [|discriminate];
             apply (bool_decide_unpack _); by vm_compute|]).
    by apply elem_of_nil in Hbtn.
Qed.

Lemma gallery_stays_consistent_witness :
  GallerySession.consistent
    (GallerySession.clicks ["devops"; "devops"; "frontend"] Examples.projects) ∧
  ProjectsManager.currentFilter
    (GallerySession.clicks ["devops"; "devops"; "frontend"] Examples.projects)
  = "frontend".
Proof.
  apply (gallery_stays_consistent ["devops"; "devops"; "frontend"]
           Examples.projects).
  exact projects_consistent.
Defined.

Section Skills.
Import SkillsManager SkillsSession.

Variable width_kept : string → option string.

Lemma reveal_bar_idemp bar :
  reveal_bar width_kept (reveal_bar width_kept bar) = reveal_bar width_kept bar.
Proof.
  unfold reveal_bar. cbn [data_width style_width]. f_equal.
  destruct (data_width bar) as [width|]; [|done].
  case_bool_decide; [done|]. by destruct (width_kept width).
Qed.

Lemma run_bar_at cb s i j :
  bar_at (run width_kept cb s) i j =
  if decide (cb = RevealBar i j) then reveal_bar width_kept <$> bar_at s i j
  else bar_at s i j.
Proof.
  destruct cb as [i' j']. unfold bar_at, run. cbn [skillCategories].
  rewrite list_lookup_alter.
  destruct (decide (i' = i)) as [->|Hi].
  - destruct (skillCategories s !! i) as [cat|]; cbn.
    + rewrite list_lookup_alter. destruct (decide (j' = j)) as [->|Hj].
      * by rewrite decide_True by done.
      * rewrite decide_False; [done|]. by intros [= ?].
    + by case_decide.
  - rewrite decide_False; [done|]. by intros [= ? ?].
Qed.

Lemma run_list_bar_at (q : list (Timers.timeout Callback)) i j : ∀ s,
  bar_at (foldl (λ s t, run width_kept t.2 s) s q) i j =
  if decide (RevealBar i j ∈ q.*2) then reveal_bar width_kept <$> bar_at s i j
  else bar_at s i j.
Proof.
  induction q as [|t q IH]; intros s; cbn [foldl fmap list_fmap].
  - rewrite decide_False; [done | apply not_elem_of_nil].
  - rewrite IH, run_bar_at.
    destruct (decide (t.2 = RevealBar i j)) as [Ht|Ht].
    + rewrite (decide_True (P := RevealBar i j ∈ t.2 :: q.*2))
        by (rewrite Ht; by left).
      case_decide; [|done].
      destruct (bar_at s i j); [|done]. cbn. by rewrite reveal_bar_idemp.
    + destruct (decide (RevealBar i j ∈ q.*2)) as [Hq|Hq].
      * by rewrite decide_True by (by right).
      * rewrite decide_False; [done|]. intros [?|?]%elem_of_cons; naive_solver.
Qed.

Lemma bar_timeouts_elem category cats d i j :
  (d, RevealBar i j) ∈ mjoin (imap (bar_timeouts category) cats) ↔
  ∃ cat bar, cats !! i = Some cat ∧ skillBars cat !! j = Some bar ∧
             cat_data_category cat = Some category ∧ d = Z.of_nat j * 100.
Proof.
  rewrite list_elem_of_join. split.
  - intros (l & Hin & (i' & cat & -> & Hcat)%elem_of_lookup_imap).
    unfold bar_timeouts in Hin. case_bool_decide as Hc; [|by apply not_elem_of_nil in Hin].
    apply elem_of_lookup_imap in Hin as (j' & bar & [= -> -> ->] & Hbar).
    by exists cat, bar.
  - intros (cat & bar & Hcat & Hbar & Hc & ->).
    exists (bar_timeouts category i cat). split.
    + unfold bar_timeouts. rewrite bool_decide_eq_true_2 by done.
      by apply (elem_of_lookup_imap_2
                  (λ index _, (Z.of_nat index * 100, RevealBar i index))
                  (skillBars cat) bar j).
    + by apply (elem_of_lookup_imap_2 (bar_timeouts category)).
Qed.

(** ** No bar gets two timeouts *)

Lemma imap_from_seq {A B} (f : nat → B) (l : list A) :
  imap (λ index _, f index) l = f <$> seq 0 (length l).
Proof.
  revert f. induction l as [|x l IH]; intros f; [done|].
  rewrite imap_cons. cbn [length seq fmap list_fmap]. f_equal.
  rewrite <- fmap_S_seq, <- list_fmap_compose. apply (IH (f ∘ S)).
Qed.

Lemma bar_timeouts_NoDup category i cat :
  NoDup (bar_timeouts category i cat).
Proof.
  unfold bar_timeouts. case_bool_decide; [|apply NoDup_nil_2].
  rewrite imap_from_seq. apply NoDup_fmap_2; [|apply NoDup_seq].
  intros j1 j2 [= H1 H2]. done.
Qed.

Lemma bar_timeouts_block category i cat t :
  t ∈ bar_timeouts category i cat → ∃ j, t.2 = RevealBar i j.
Proof.
  unfold bar_timeouts. case_bool_decide; [|by intros ?%elem_of_nil].
  intros (j & bar & -> & _)%elem_of_lookup_imap. by exists j.
Qed.

Lemma timeouts_NoDup_from category cats : ∀ k,
  NoDup (mjoin (imap (λ i, bar_timeouts category (k + i)) cats)).
Proof.
  induction cats as [|cat cats IH]; intros k; [apply NoDup_nil_2|].
  rewrite imap_cons. cbn [mjoin list_join]. apply NoDup_app.
  split; [apply bar_timeouts_NoDup|]. split.
  - intros t (j & Ht)%bar_timeouts_block (l & Hin & Hl)%list_elem_of_join.
    apply elem_of_lookup_imap in Hl as (i' & cat' & -> & _).
    apply bar_timeouts_block in Hin as (j' & Ht').
    cbn in Ht'. rewrite Ht in Ht'. injection Ht' as Hk _. lia.
  - assert (imap ((λ i, bar_timeouts category (k + i)) ∘ S) cats
            = imap (λ i, bar_timeouts category (S k + i)) cats) as ->.
    { apply imap_ext. intros i x _. cbn. f_equal. lia. }
    apply IH.
Qed.

Lemma switchCategory_timeouts_NoDup category s :
  NoDup (switchCategory category s).2.
Proof.
  unfold switchCategory. case_bool_decide; [apply NoDup_nil_2|].
  apply (timeouts_NoDup_from category (skillCategories s) 0).
Qed.

(** On a panel for which no timeout of an earlier switch is pending:
    switching to another category highlights exactly the controls and
    blocks of that category and registers one timeout for each bar of
    those blocks and no other, staggered by 100ms per position.  Once
    these have fired, each of those bars has the width that the style
    declaration keeps of its [data-width] (no attribute or an empty one:
    no width; a string that is no width: the width the bar had), and the
    bars of the other blocks are as they were. *)
Theorem switchCategory_reveals_new_category
    (category : string) (s : State) :
  category ≠ currentCategory s →
  currentCategory (switchCategory category s).1 = category ∧
  (∀ btn', btn' ∈ skillNavBtns (switchCategory category s).1 →
     "active" ∈ btn_classList btn' ↔ btn_data_category btn' = Some category) ∧
  (∀ cat', cat' ∈ skillCategories (switchCategory category s).1 →
     "active" ∈ cat_classList cat' ↔ cat_data_category cat' = Some category) ∧
  NoDup (switchCategory category s).2 ∧
  (∀ t, t ∈ (switchCategory category s).2 ↔
        ∃ i j cat bar,
          skillCategories s !! i = Some cat ∧ skillBars cat !! j = Some bar ∧
          cat_data_category cat = Some category ∧
          t = (Z.of_nat j * 100, RevealBar i j)) ∧
  (∀ i j cat bar,
     skillCategories s !! i = Some cat → skillBars cat !! j = Some bar →
     bar_at (settled width_kept (switchCategory category s)) i j =
     Some (if bool_decide (cat_data_category cat = Some category)
           then {| data_width := data_width bar;
                   style_width :=
                     match data_width bar with
                     | None => ""
                     | Some width =>
                         if bool_decide (width = "") then ""
                         else default (style_width bar) (width_kept width)
                     end |}
           else bar)).
Proof.
  intros Hne. split; [|split; [|split; [|split; [|split]]]].
  4:{ apply switchCategory_timeouts_NoDup. }
  all: unfold switchCategory; rewrite bool_decide_eq_false_2 by done;
    cbn [fst snd currentCategory skillNavBtns skillCategories].
  all: assert (∀ (b : bool) cl,
                 "active" ∈ classList_toggle "active" b cl ↔ b = true)
         as Htog
         by (intros b cl; unfold classList_toggle; destruct b;
             [split; [done|]; intros _; apply elem_of_union; left;
              by apply elem_of_singleton
             |split; [|done]; intros [_ Hn]%elem_of_difference;
              destruct Hn; by apply elem_of_singleton]).
  - done.
  - intros btn' (btn & -> & _)%list_elem_of_fmap. cbn.
    by rewrite Htog, bool_decide_eq_true.
  - intros cat' (cat & -> & _)%list_elem_of_fmap. cbn.
    by rewrite Htog, bool_decide_eq_true.
  - intros [d [i j]]. rewrite bar_timeouts_elem. split.
    + intros (cat & bar & ? & ? & ? & ->). by exists i, j, cat, bar.
    + intros (i' & j' & cat & bar & ? & ? & ? & [= -> -> ->]).
      by exists cat, bar.
  - intros i j cat bar Hcat Hbar.
    unfold settled, Timers.run_all. cbn [fst snd].
    rewrite run_list_bar_at. unfold bar_at. cbn [skillCategories].
    rewrite list_lookup_fmap, Hcat. cbn. rewrite Hbar. cbn.
    case_bool_decide as Hc.
    + rewrite decide_True; [done|].
      apply list_elem_of_fmap. exists (Z.of_nat j * 100, RevealBar i j).
      split; [done|]. rewrite TimersFacts.firing_order_perm.
      apply bar_timeouts_elem. by exists cat, bar.
    + rewrite decide_False; [done|].
      intros ([d cb] & Heq & Hin)%list_elem_of_fmap. cbn in Heq. subst cb.
      rewrite TimersFacts.firing_order_perm in Hin.
      apply bar_timeouts_elem in Hin as (cat' & bar' & ? & ? & ? & _).
      by simplify_eq.
Qed.

End Skills.

Lemma switchCategory_reveals_new_category_witness :
  SkillsManager.currentCategory
    (SkillsManager.switchCategory "backend" Samples.skills).1 = "backend" ∧
  SkillsSession.bar_at
    (SkillsSession.settled Samples.percentages
       (SkillsManager.switchCategory "backend" Samples.skills)) 1 0
  = Some {| SkillsManager.data_width := Some "80%";
            SkillsManager.style_width := "80%" |} ∧
  SkillsSession.bar_at
    (SkillsSession.settled Samples.percentages
       (SkillsManager.switchCategory "backend" Samples.skills)) 1 1
  = Some {| SkillsManager.data_width := Some "wide";
            SkillsManager.style_width := "0" |}.
Proof.
  assert ("backend" ≠ SkillsManager.currentCategory Samples.skills) as Hne
    by discriminate.
  destruct (switchCategory_reveals_new_category Samples.percentages
              "backend" Samples.skills Hne)
    as (Hcur & _ & _ & _ & _ & Hbars).
  split; [exact Hcur|]. split.
  - exact (Hbars 1%nat 0%nat _ _ eq_refl eq_refl).
  - exact (Hbars 1%nat 1%nat _ _ eq_refl eq_refl).
Defined.

End SessionFacts.

(* ===================================================================== *)
(** * The contact form over a session: properties                         *)
(* ===================================================================== *)

Module ContactSessionFacts.
Import JS JSFacts ContactFormManager ContactPayload.

(** ** The payload *)

Lemma log_entries_map (l : list (string * string)) :
  ∀ (tp : gmap string string) (s : State),
  (foldl (λ acc kv,
            (<[kv.1 := kv.2]> acc.1,
             emit (console_log ["  " +:+ kv.1 +:+ ": " +:+ dquote +:+
                                kv.2 +:+ dquote]) acc.2))
         (tp, s) l).1
  = foldl (λ tp kv, <[kv.1 := kv.2]> tp) tp l.
Proof.
  induction l as [|kv l IH]; intros tp s; cbn [foldl]; [done|].
  apply IH.
Qed.

(** The object handed to the relay is a function of the controls and of
    the environment only. *)
Lemma prepare_payload env s : (prepare env s).1 = payload_of env (fields s).
Proof.
  unfold prepare, payload_of, templateParams_of.
  pose proof (log_entries_map (formData_entries (fields s)) ∅
                (emit (console_log ["FormData entries:"])
                   (emit (console_log ["Form elements found:";
                                       "[object HTMLFormControlsCollection]"])
                      s))) as Hmap.
  pose proof (ContactFacts.log_entries_page (formData_entries (fields s)) ∅
                (emit (console_log ["FormData entries:"])
                   (emit (console_log ["Form elements found:";
                                       "[object HTMLFormControlsCollection]"])
                      s))) as (Hfields & _).
  cbn zeta in Hfields.
  destruct (foldl _ _ (formData_entries (fields s))) as [tp s6].
  cbn [fst snd] in *. rewrite Hfields, Hmap. done.
Qed.

Lemma foldl_insert_lookup (l : list (string * string)) key :
  ∀ tp : gmap string string,
  foldl (λ tp kv, <[kv.1 := kv.2]> tp) tp l !! key =
  match last ((λ kv, kv.2) <$> filter (λ kv, kv.1 = key) l) with
  | Some v => Some v
  | None => tp !! key
  end.
Proof.
  induction l as [|[k v] l IH] using rev_ind; intros tp; [done|].
  rewrite foldl_app, filter_app, fmap_app, last_app. cbn [foldl fst snd].
  rewrite filter_cons, filter_nil. cbn [fst snd].
  destruct (decide (k = key)) as [->|Hne].
  - cbn. apply lookup_insert_eq.
  - cbn. rewrite lookup_insert_ne by done. apply IH.
Qed.

Lemma templateParams_of_lookup fs key :
  templateParams_of fs !! key = formData_value key fs.
Proof.
  unfold templateParams_of, formData_value. rewrite foldl_insert_lookup.
  rewrite lookup_empty. by destruct (last _).
Qed.

Lemma capture_lookup key' field (tp : gmap string string) key :
  capture key' field tp !! key =
  if decide (key' = key) then
    match value_of field with
    | Some v => if truthy v then Some v else tp !! key
    | None => tp !! key
    end
  else tp !! key.
Proof.
  unfold capture. destruct (value_of field) as [v|]; [|by case_decide].
  destruct (truthy v); [|by case_decide].
  rewrite lookup_insert. by case_decide.
Qed.

Lemma payload_values (env : Env) (s : State) :
  (prepare env s).1 !! "user_name"
    = Some (submitted input "name" (fields s)) ∧
  (prepare env s).1 !! "user_email"
    = Some (submitted input "email" (fields s)) ∧
  (prepare env s).1 !! "user_company"
    = Some (submitted input "company" (fields s)) ∧
  (prepare env s).1 !! "user_budget"
    = Some (submitted select "budget" (fields s)) ∧
  (prepare env s).1 !! "user_service"
    = Some (submitted select "service" (fields s)) ∧
  (prepare env s).1 !! "user_message"
    = Some (submitted textarea "message" (fields s)).
Proof.
  rewrite prepare_payload. unfold payload_of, build_finalTemplateParams.
  assert (∀ t key (tp : gmap string string),
            tp !! key =
              match value_of (querySelector t key (fields s)) with
              | Some v => if truthy v then Some v
                          else formData_value key (fields s)
              | None => formData_value key (fields s)
              end →
            or_else (or_opt (tp !! key)
                       (value_of (querySelector t key (fields s)))) ""
            = submitted t key (fields s)) as Hfinal.
  { intros t key tp ->. unfold submitted.
    destruct (value_of (querySelector t key (fields s))) as [v|]; cbn.
    - unfold or_else, or_opt. destruct (truthy v) eqn:Hv.
      + repeat first [rewrite Hv | progress cbv beta iota]. done.
      + destruct (formData_value key (fields s)) as [w|].
        * cbv beta iota. destruct (truthy w) eqn:Hw;
            repeat first [rewrite Hv | rewrite Hw | progress cbv beta iota];
            done.
        * repeat first [rewrite Hv | progress cbv beta iota]. done.
    - unfold or_else, or_opt.
      destruct (formData_value key (fields s)) as [w|]; [|done].
      destruct (truthy w) eqn:Hw;
        repeat first [rewrite Hw | progress cbv beta iota]; done. }
  repeat split.
  all: rewrite !lookup_insert_ne by done.
  all: rewrite ?lookup_insert_eq; f_equal; apply Hfinal.
  all: rewrite !lookup_insert_ne by done.
  all: rewrite !capture_lookup; repeat (case_decide; try done).
  all: by rewrite templateParams_of_lookup.
Qed.

(** For each of the six controls the handler reads twice, a directly
    read value that is not empty is the value sent, whatever the form
    holds under that name otherwise. *)
Theorem direct_value_takes_precedence
    (env : Env) (s : State) (t : Tag) (key sent v : string) :
  (t, key, sent) ∈
    [ (input, "name", "user_name"); (input, "email", "user_email");
      (input, "company", "user_company"); (select, "budget", "user_budget");
      (select, "service", "user_service");
      (textarea, "message", "user_message") ] →
  value_of (querySelector t key (fields s)) = Some v →
  truthy v = true →
  (prepare env s).1 !! sent = Some v.
Proof.
  intros Hkey Hv Htruthy.
  destruct (payload_values env s) as (H1 & H2 & H3 & H4 & H5 & H6).
  assert (submitted t key (fields s) = v) as Hs
    by (unfold submitted; by rewrite Hv, Htruthy).
  repeat (apply elem_of_cons in Hkey as [[= -> -> ->]|Hkey];
          [by rewrite <- Hs|]).
  by apply elem_of_nil in Hkey.
Qed.

Lemma direct_value_takes_precedence_witness :
  (prepare Examples.env Examples.jane).1 !! "user_service"
  = Some "web-development".
Proof.
  apply (direct_value_takes_precedence Examples.env Examples.jane
           select "service" "user_service" "web-development").
  - do 4 right. by left.
  - reflexivity.
  - reflexivity.
Defined.

(** The addresses the relay replies to and sends from are never empty:
    they are the submitted email address, or the fallback address when
    none was submitted; likewise the sender name. *)
Theorem sender_is_never_empty (env : Env) (s : State) :
  ∃ from name,
    (prepare env s).1 !! "from_email" = Some from ∧
    (prepare env s).1 !! "reply_to" = Some from ∧
    (prepare env s).1 !! "from_name" = Some name ∧
    from ≠ "" ∧ name ≠ "" ∧
    from = (if truthy (submitted input "email" (fields s))
            then submitted input "email" (fields s)
            else "noreply@gabrieletupini.dev") ∧
    name = (if truthy (submitted input "name" (fields s))
            then submitted input "name" (fields s)
            else "Website Visitor").
Proof.
  destruct (payload_values env s) as (Hn & He & _).
  revert Hn He. rewrite prepare_payload.
  unfold payload_of, build_finalTemplateParams.
  rewrite !(lookup_insert_ne _ "message") by done.
  rewrite !(lookup_insert_ne _ "from_name" "user_name") by done.
  rewrite !(lookup_insert_ne _ "from_name" "user_email") by done.
  rewrite !(lookup_insert_ne _ "from_email") by done.
  rewrite !(lookup_insert_ne _ "reply_to") by done.
  rewrite !(lookup_insert_ne _ "to_name") by done.
  rewrite !(lookup_insert_ne _ "subject") by done.
  rewrite !(lookup_insert_ne _ "user_name" "user_email") by done.
  rewrite !lookup_insert_eq.
  intros [= Hn] [= He]. rewrite Hn, He.
  eexists _, _. split; [reflexivity|]. split; [reflexivity|].
  split; [reflexivity|].
  split; [|split; [|done]].
  - destruct (truthy (submitted input "email" (fields s))) eqn:Ht; [|done].
    by apply truthy_true.
  - destruct (truthy (submitted input "name" (fields s))) eqn:Ht; [|done].
    by apply truthy_true.
Qed.

(** ** Validation on blur and clearing on input *)

Lemma check_marked v g : check (marked v g) = check g.
Proof. by destruct v. Qed.

Lemma error_id_marked v g : error_id (marked v g) = error_id g.
Proof. by destruct v. Qed.

Lemma marked_marked v g : marked v (marked v g) = marked v g.
Proof.
  destruct v; unfold marked, set_classes; cbn; f_equal.
  - apply set_eq. intros x.
    rewrite !elem_of_union, !elem_of_difference, !elem_of_union,
      !elem_of_difference. tauto.
  - apply set_eq. intros x. rewrite !elem_of_difference. tauto.
Qed.

Lemma marked_error_marked_error v el :
  marked_error v (marked_error v el) = marked_error v el.
Proof.
  destruct v; unfold marked_error; cbn; f_equal.
  - apply set_eq. intros x.
    rewrite !elem_of_union, !elem_of_difference, !elem_of_union,
      !elem_of_difference. tauto.
  - apply set_eq. intros x. rewrite !elem_of_difference. tauto.
Qed.

(** Validating a control a second time (a second blur without an edit in
    between) changes nothing: same verdict, same state. *)
Theorem validateField_idempotent (i : nat) (s : State) :
  validateField i (validateField i s).2 = validateField i s.
Proof.
  destruct (fields s !! i) as [f|] eqn:Hf.
  - rewrite (ContactFacts.validateField_validated i s f Hf). cbn [snd].
    set (v := verdict (check f)).
    pose proof (ContactFacts.validated_field i f v s Hf) as Hf'.
    rewrite (ContactFacts.validateField_validated i _ _ Hf').
    rewrite check_marked. fold v. f_equal.
    unfold validated. rewrite error_id_marked.
    destruct (errorElements s !! error_id f) as [el|] eqn:Hel; cbn.
    + rewrite lookup_insert_eq. unfold set_fields, set_errorElements. cbn.
      rewrite list_insert_insert_eq, insert_insert_eq.
      by rewrite marked_marked, marked_error_marked_error.
    + rewrite Hel. unfold set_fields. cbn.
      by rewrite list_insert_insert_eq, marked_marked.
  - unfold validateField. rewrite Hf. cbn. by rewrite Hf.
Qed.

Lemma unmark_marked (X : gset string) (a : string) :
  a ∉ X → ({[ a ]} ∪ (X ∖ {[ a ]})) ∖ {[ a ]} = X.
Proof.
  intros Ha. apply set_eq. intros x.
  rewrite elem_of_difference, elem_of_union, elem_of_difference,
    !elem_of_singleton.
  split; [tauto|]. intros Hx.
  assert (x ≠ a) by (by intros ->). tauto.
Qed.

Lemma unmark_unmarked (X : gset string) (a : string) :
  a ∉ X → (X ∖ {[ a ]}) ∖ {[ a ]} = X.
Proof.
  intros Ha. apply set_eq. intros x.
  rewrite !elem_of_difference, !elem_of_singleton.
  split; [tauto|]. intros Hx.
  assert (x ≠ a) by (by intros ->). tauto.
Qed.

(** On a control without error marks, a validation followed by the
    clearing that the next keystroke triggers gives back the state from
    before the validation, whatever the verdict was. *)
Theorem validation_then_input_restores (i : nat) (s : State) :
  pristine i s →
  clearFieldError i (validateField i s).2 = s.
Proof.
  intros (f & Hf & Hcl & Haria & Herr).
  rewrite (ContactFacts.validateField_validated i s f Hf). cbn [snd].
  set (v := verdict (check f)).
  pose proof (ContactFacts.validated_field i f v s Hf) as Hf'.
  unfold clearFieldError. rewrite Hf', error_id_marked.
  assert (set_classes (classList (marked v f) ∖ {[ "error" ]}) None (marked v f)
          = f) as Hfield.
  { destruct f as [t0 i0 n0 ty0 v0 d0 r0 m0 l0 cl0 a0]. cbn in *. subst a0.
    destruct v; unfold marked, set_classes; cbn; f_equal.
    - by apply unmark_marked.
    - by apply unmark_unmarked. }
  rewrite Hfield. destruct s as [fs errs fb btn flag es]. cbn in *.
  unfold validated. cbn.
  destruct (errs !! error_id f) as [el|] eqn:Hel; cbn.
  - rewrite lookup_insert_eq. cbn. unfold set_fields, set_errorElements. cbn.
    rewrite list_insert_insert_eq, insert_insert_eq.
    destruct (Herr el eq_refl) as [Htext Hshow].
    f_equal.
    + by apply list_insert_id.
    + apply insert_id. rewrite Hel. f_equal.
      destruct el as [txt cl]. cbn in *. subst txt.
      destruct v; unfold marked_error; cbn; f_equal; symmetry.
      * by apply unmark_marked.
      * by apply unmark_unmarked.
  - rewrite Hel. unfold set_fields. cbn. rewrite list_insert_insert_eq.
    f_equal. by apply list_insert_id.
Qed.

Lemma anonymous_pristine : pristine 0 Samples.anonymous.
Proof.
  eexists. split; [reflexivity|]. split; [apply not_elem_of_empty|].
  split; [reflexivity|]. intros el Hel.
  assert (el = Examples.error_element) as ->
    by (vm_compute in Hel |- *; congruence).
  split; [reflexivity|]. apply (bool_decide_unpack _). by vm_compute.
Qed.

Lemma validation_then_input_restores_witness :
  (validateField 0 Samples.anonymous).1 = false ∧
  clearFieldError 0 (validateField 0 Samples.anonymous).2 = Samples.anonymous.
Proof.
  split; [reflexivity|].
  apply (validation_then_input_restores 0 Samples.anonymous).
  exact anonymous_pristine.
Defined.

(** ** Calls of the email relay *)

Lemma sends_app es1 es2 : sends (es1 ++ es2) = (sends es1 + sends es2)%nat.
Proof. unfold sends. by rewrite filter_app, length_app. Qed.

Lemma sends_cons e es :
  sends (e :: es) = ((if is_send e then 1 else 0) + sends es)%nat.
Proof.
  unfold sends. rewrite filter_cons.
  destruct (is_send e); case_decide; done.
Qed.

Lemma sends_nil : sends [] = 0%nat.
Proof. done. Qed.

Ltac count_sends :=
  rewrite ?sends_app, ?sends_cons, ?sends_nil; cbn [is_send]; lia.

Lemma showFormMessage_sends message success s :
  sends (effects (showFormMessage message success s)) = sends (effects s).
Proof.
  destruct (ContactFacts.showFormMessage_effects message success s) as [->| ->];
    [done|].
  count_sends.
Qed.

Lemma log_entries_sends (l : list (string * string)) :
  ∀ (tp : gmap string string) (s : State),
  sends (effects
    (foldl (λ acc kv,
              (<[kv.1 := kv.2]> acc.1,
               emit (console_log ["  " +:+ kv.1 +:+ ": " +:+ dquote +:+
                                  kv.2 +:+ dquote]) acc.2))
           (tp, s) l).2)
  = sends (effects s).
Proof.
  induction l as [|kv l IH]; intros tp s; cbn [foldl]; [done|].
  rewrite IH. cbn [emit effects fst snd]. count_sends.
Qed.

(** Preparing the payload does not call the relay. *)
Lemma prepare_sends env s :
  sends (effects (prepare env s).2) = sends (effects s).
Proof.
  unfold prepare.
  pose proof (log_entries_sends (formData_entries (fields s)) ∅
                (emit (console_log ["FormData entries:"])
                   (emit (console_log ["Form elements found:";
                                       "[object HTMLFormControlsCollection]"])
                      s))) as H.
  destruct (foldl _ _ (formData_entries (fields s))) as [tp s6].
  cbn [fst snd foldl emit effects] in *.
  unfold log_direct. rewrite !sends_app, H. count_sends.
Qed.

Lemma form_valid_spec (fs : list Field) :
  form_valid fs = true ↔
  ∀ j g, fs !! j = Some g → required g = true → (check g).1 = true.
Proof.
  unfold form_valid. induction fs as [|f fs IH]; cbn [forallb].
  - split; [|done]. by intros _ j g.
  - rewrite andb_true_iff, IH. split.
    + intros [Hf Hfs] [|j] g; cbn.
      * intros [= <-] Hreq. by rewrite Hreq in Hf.
      * apply Hfs.
    + intros H. split.
      * destruct (required f) eqn:Hreq; [|done]. cbn. by apply (H 0%nat f).
      * intros j g. apply (H (S j) g).
Qed.

Lemma validate_required_valid s :
  (validate_all (required_indices (fields s)) s).1 = form_valid (fields s).
Proof.
  destruct (ContactFacts.validate_required_spec s) as (_ & Hiff & _).
  cbn zeta in Hiff. rewrite <- form_valid_spec in Hiff.
  destruct (validate_all _ s).1, (form_valid (fields s)); try done.
  - symmetry. by apply Hiff.
  - by apply Hiff.
Qed.

Lemma relay_calls (env : Env) (s : State) :
  sends (effects (state_of (handleContactSubmission env s))) =
  (sends (effects s) +
   (if negb (isSubmitting s) && form_valid (fields s) && emailjs_defined env
    then 1 else 0))%nat.
Proof.
  unfold handleContactSubmission.
  destruct (isSubmitting s) eqn:Hflag; cbn [negb andb state_of]; [lia|].
  pose proof (validate_required_valid s) as Hvalid.
  destruct (ContactFacts.validate_required_spec s) as ((_ & _ & _ & V4) & _).
  destruct (validate_all (required_indices (fields s)) s) as [ok sv] eqn:Hv.
  cbn [fst snd] in *. rewrite <- Hvalid.
  destruct ok; cbn [negb andb].
  - cbn [Utils.showLoading].
    match goal with
    | |- context [prepare env ?s3] =>
        pose proof (prepare_sends env s3) as Hp;
        destruct (prepare env s3) as [ftp s8]
    end.
    cbn [fst snd set_submitBtn set_isSubmitting effects] in Hp.
    destruct (emailjs_defined env); cbn [state_of].
    + cbn [emit effects]. rewrite sends_app, Hp, V4. count_sends.
    + unfold finally, on_error. cbn [set_submitBtn set_isSubmitting effects].
      rewrite showFormMessage_sends. cbn [emit effects].
      rewrite sends_app, Hp, V4. count_sends.
  - cbn [state_of]. rewrite showFormMessage_sends, V4. lia.
Qed.

(** One call of the submit handler calls the email relay once when the
    submitting flag is clear, every required control passes its rules and
    the SDK is loaded, and not at all otherwise. *)
Theorem relay_called_exactly_when (env : Env) (s : State) :
  sends (effects (state_of (handleContactSubmission env s))) =
  (sends (effects s) +
   (if negb (isSubmitting s) && form_valid (fields s) && emailjs_defined env
    then 1 else 0))%nat.
Proof. apply relay_calls. Qed.

(** Neither branch taken after the [await] calls the relay again. *)
Lemma resume_sends env r p s :
  sends (effects (handleContactSubmission_resume env r p s))
  = sends (effects s).
Proof.
  destruct r; unfold handleContactSubmission_resume, finally, on_success,
    on_error, trackEvent; cbn [set_submitBtn set_isSubmitting effects].
  - destruct (gtag_defined env); cbn [emit effects set_fields];
      rewrite ?sends_app, showFormMessage_sends; count_sends.
  - rewrite showFormMessage_sends. cbn [emit effects]. count_sends.
Qed.

(** ** Submitting again *)

Lemma validateField_length i s :
  length (fields (validateField i s).2) = length (fields s).
Proof.
  destruct (fields s !! i) as [f|] eqn:Hf.
  - rewrite (ContactFacts.validateField_validated i s f Hf).
    unfold validated. cbn [snd set_fields fields].
    rewrite length_insert.
    by destruct (errorElements s !! error_id f).
  - unfold validateField. by rewrite Hf.
Qed.

Lemma validate_all_length l : ∀ s,
  length (fields (validate_all l s).2) = length (fields s).
Proof.
  induction l as [|i l IH]; intros s; [done|].
  rewrite ContactFacts.validate_all_cons. cbn [snd].
  by rewrite IH, validateField_length.
Qed.

(** The controls after the validation loop of a submission. *)
Lemma validate_required_fields s :
  fields (validate_all (required_indices (fields s)) s).2
  = validated_fields (fields s).
Proof.
  destruct (ContactFacts.validate_required_spec s) as (_ & _ & Hfields & _).
  cbn zeta in Hfields. apply list_eq. intros j.
  unfold validated_fields. rewrite list_lookup_fmap.
  destruct (fields s !! j) as [g|] eqn:Hg.
  - by rewrite (Hfields j g Hg).
  - cbn. apply lookup_ge_None. rewrite validate_all_length.
    by apply lookup_ge_None.
Qed.

Section Preserving.
Variable m : Field → Field.
Hypothesis m_tag : ∀ g, tag (m g) = tag g.
Hypothesis m_id : ∀ g, id (m g) = id g.
Hypothesis m_name : ∀ g, name (m g) = name g.
Hypothesis m_value : ∀ g, value (m g) = value g.

Lemma formData_entries_fmap fs :
  formData_entries (m <$> fs) = formData_entries fs.
Proof using m_name m_value.
  unfold formData_entries. induction fs as [|f fs IH]; [done|].
  rewrite fmap_cons, !filter_cons, m_name.
  case_decide; [|done]. by rewrite !fmap_cons, IH, m_name, m_value.
Qed.

Lemma querySelector_fmap t n fs :
  querySelector t n (m <$> fs) = m <$> querySelector t n fs.
Proof using m_tag m_id m_name.
  unfold querySelector. induction fs as [|f fs IH]; [done|].
  cbn. rewrite m_id, m_tag, m_name.
  by destruct (bool_decide (id f = n)
               || bool_decide (tag f = t) && bool_decide (name f = n)).
Qed.

Lemma value_of_fmap o : value_of (m <$> o) = value_of o.
Proof using m_value. destruct o; cbn; by rewrite ?m_value. Qed.

Lemma payload_of_fmap env fs : payload_of env (m <$> fs) = payload_of env fs.
Proof using All.
  unfold payload_of, templateParams_of.
  rewrite formData_entries_fmap, !querySelector_fmap.
  unfold build_finalTemplateParams, capture.
  by rewrite !value_of_fmap.
Qed.
End Preserving.

(** The validation marks play no part in what is sent. *)
Lemma payload_of_validated env fs :
  payload_of env (validated_fields fs) = payload_of env fs.
Proof.
  unfold validated_fields. apply payload_of_fmap; intros g;
    by destruct (required g), (verdict (check g)).
Qed.

Lemma form_valid_validated fs :
  form_valid (validated_fields fs) = form_valid fs.
Proof.
  unfold form_valid, validated_fields. induction fs as [|g fs IH]; [done|].
  rewrite fmap_cons. cbn [forallb]. rewrite IH. f_equal.
  destruct (required g) eqn:Hreq; [|by rewrite Hreq].
  rewrite check_marked. by destruct (verdict (check g)); cbn; rewrite Hreq.
Qed.

(** A submission that passes the guard and the validation with the SDK
    loaded is suspended at the relay call, holding the button content
    and the payload of the controls. *)
Lemma submission_awaits env s :
  isSubmitting s = false → form_valid (fields s) = true →
  emailjs_defined env = true →
  ∃ s1,
    handleContactSubmission env s =
    Awaiting {| originalContent := Utils.innerHTML (submitBtn s);
                finalTemplateParams := payload_of env (fields s) |} s1 ∧
    fields s1 = validated_fields (fields s).
Proof.
  intros Hflag Hvalid Hsdk. unfold handleContactSubmission.
  rewrite Hflag, Hsdk.
  pose proof (validate_required_valid s) as Hok.
  pose proof (validate_required_fields s) as Hfs.
  destruct (ContactFacts.validate_required_spec s) as ((_ & V2 & _ & _) & _).
  destruct (validate_all (required_indices (fields s)) s) as [ok sv] eqn:Hv.
  cbn [fst snd] in *. rewrite Hok, Hvalid. cbn [negb Utils.showLoading].
  match goal with
  | |- context [prepare env ?s3] =>
      pose proof (prepare_payload env s3) as Hp;
      pose proof (ContactFacts.prepare_page env s3) as (Hpf & _);
      destruct (prepare env s3) as [ftp s8]
  end.
  cbn [fst snd set_submitBtn set_isSubmitting fields] in Hp, Hpf.
  eexists. split.
  - cbn [set_isSubmitting submitBtn].
    by rewrite Hp, Hfs, payload_of_validated, V2.
  - cbn [emit fields]. by rewrite Hpf.
Qed.

Lemma submission_blocked env s :
  isSubmitting s = false → form_valid (fields s) = false →
  ∃ s', handleContactSubmission env s = Returned s' ∧
        isSubmitting s' = false ∧ submitBtn s' = submitBtn s.
Proof.
  intros Hflag Hvalid. unfold handleContactSubmission. rewrite Hflag.
  pose proof (validate_required_valid s) as Hok.
  destruct (ContactFacts.validate_required_spec s) as ((_ & V2 & V3 & _) & _).
  destruct (validate_all (required_indices (fields s)) s) as [ok sv] eqn:Hv.
  cbn [fst snd] in *. rewrite Hok, Hvalid. cbn [negb].
  eexists. split; [done|].
  destruct (ContactFacts.showFormMessage_rest
              "Please correct the errors below." false sv) as (_ & _ & S3 & S4).
  by rewrite S3, S4, V2, V3.
Qed.

Lemma awaiting_valid env s p s1 :
  handleContactSubmission env s = Awaiting p s1 →
  isSubmitting s = false ∧ form_valid (fields s) = true ∧
  emailjs_defined env = true.
Proof.
  unfold handleContactSubmission.
  destruct (isSubmitting s); [done|].
  pose proof (validate_required_valid s) as Hok.
  destruct (validate_all (required_indices (fields s)) s) as [ok sv].
  cbn [fst] in Hok. rewrite <- Hok. destruct ok; [|done].
  cbn [negb Utils.showLoading].
  match goal with
  | |- context [prepare env ?s3] => destruct (prepare env s3) as [ftp s8]
  end.
  by destruct (emailjs_defined env).
Qed.

(** After a rejected relay call, with the page otherwise as the handler
    left it, a second submission passes the guard and the validation
    again and is suspended with the same saved button content and with
    the payload of the same control values; the two payloads differ only
    in what they take from the environment (time stamp, user agent and
    address). *)
Theorem retry_after_failure_resends
    (env env' : Env) (s s1 : State) (p : Pending) (error : string) :
  handleContactSubmission env s = Awaiting p s1 →
  emailjs_defined env' = true →
  finalTemplateParams p = payload_of env (fields s) ∧
  ∃ s2,
    handleContactSubmission env'
      (handleContactSubmission_resume env (Rejected error) p s1)
    = Awaiting {| originalContent := originalContent p;
                  finalTemplateParams := payload_of env' (fields s) |} s2.
Proof.
  intros Hfirst Hsdk'.
  destruct (awaiting_valid _ _ _ _ Hfirst) as (Hflag & Hvalid & Hsdk).
  destruct (submission_awaits env s Hflag Hvalid Hsdk) as (s1' & Hs1 & Hfs).
  rewrite Hfirst in Hs1. injection Hs1 as -> ->.
  split; [done|]. cbn [originalContent].
  set (s3 := handleContactSubmission_resume env (Rejected error) _ s1').
  assert (fields s3 = fields s1') as Hfs3.
  { unfold s3, handleContactSubmission_resume, finally, on_error.
    cbn [set_submitBtn set_isSubmitting fields].
    by destruct (ContactFacts.showFormMessage_rest
                   "Sorry, there was an error sending your message. Please try again or email me directly."
                   false
                   (emit (console_error ["Form submission failed:"; error]) s1'))
      as (-> & _). }
  destruct (submission_awaits env' s3) as (s2 & Hs2 & _); [done| |done|].
  { by rewrite Hfs3, Hfs, form_valid_validated. }
  exists s2. rewrite Hs2. f_equal. f_equal.
  by rewrite Hfs3, Hfs, payload_of_validated.
Qed.

Lemma retry_after_failure_resends_witness :
  ∃ p s1 s2,
    handleContactSubmission Examples.env Examples.jane = Awaiting p s1 ∧
    handleContactSubmission Examples.env
      (handleContactSubmission_resume Examples.env (Rejected "timeout") p s1)
    = Awaiting
        {| originalContent := originalContent p;
           finalTemplateParams :=
             payload_of Examples.env (fields Examples.jane) |} s2.
Proof.
  destruct (handleContactSubmission Examples.env Examples.jane)
    as [s'|p s1] eqn:H.
  - vm_compute in H. discriminate H.
  - destruct (retry_after_failure_resends Examples.env Examples.env
                Examples.jane s1 p "timeout" H eq_refl) as (_ & s2 & Hs2).
    exists p, s1, s2. split; [reflexivity | exact Hs2].
Defined.

(** After a resolved relay call the controls hold their default values
    again; when a required control has a blank default, submitting again
    is blocked at the validation: the handler returns, the flag and the
    submit control stay as they are, and the relay is not called. *)
Theorem resubmit_after_success_blocked
    (env : Env) (p : Pending) (s : State) (g : Field) :
  g ∈ fields s → required g = true → trim (defaultValue g) = "" →
  let s1 := handleContactSubmission_resume env Resolved p s in
  fields s1 = reset_field <$> fields s ∧
  ∃ s2, handleContactSubmission env s1 = Returned s2 ∧
        isSubmitting s2 = false ∧ submitBtn s2 = submitBtn s1 ∧
        sends (effects s2) = sends (effects s1).
Proof.
  intros Hg Hreq Hblank s1.
  assert (fields s1 = reset_field <$> fields s) as Hfs.
  { unfold s1, handleContactSubmission_resume, finally, on_success, trackEvent.
    cbn [set_submitBtn set_isSubmitting fields].
    destruct (ContactFacts.showFormMessage_rest
                "Thank you for your message! I'll get back to you within 24 hours."
                true s) as (Hsf & _).
    destruct (gtag_defined env); cbn [emit set_fields fields]; by rewrite Hsf. }
  split; [done|].
  assert (form_valid (fields s1) = false) as Hinvalid.
  { destruct (form_valid (fields s1)) eqn:Hv; [|done].
    apply list_elem_of_lookup in Hg as [j Hj].
    rewrite form_valid_spec in Hv.
    specialize (Hv j (reset_field g)). rewrite Hfs, list_lookup_fmap, Hj in Hv.
    specialize (Hv eq_refl Hreq).
    unfold check in Hv. cbn [reset_field value required] in Hv.
    by rewrite Hreq, Hblank in Hv. }
  destruct (submission_blocked env s1) as (s2 & Hs2 & Hflag & Hbtn);
    [done|done|].
  exists s2. split; [done|]. split; [done|]. split; [done|].
  pose proof (relay_calls env s1) as Hcalls.
  rewrite Hs2, Hinvalid, andb_false_r in Hcalls. cbn [state_of andb] in Hcalls.
  lia.
Qed.

Lemma resubmit_after_success_blocked_witness :
  ∃ s2,
    handleContactSubmission Examples.env
      (handleContactSubmission_resume Examples.env Resolved Samples.pending
         Examples.jane)
    = Returned s2 ∧
    isSubmitting s2 = false.
Proof.
  destruct (resubmit_after_success_blocked Examples.env Samples.pending
              Examples.jane
              (Examples.control input "name" "text" "Jane Doe" true "Name *"))
    as (_ & s2 & Hs2 & Hflag & _).
  - by left.
  - reflexivity.
  - reflexivity.
  - exists s2. split; [exact Hs2 | exact Hflag].
Defined.

End ContactSessionFacts.

(* ===================================================================== *)
(** * Tooltips and the interaction metric: properties                     *)
(* ===================================================================== *)

Module TooltipFacts.
Import JS Tooltips.

Lemma restyle_element_length h o t tips :
  length (restyle_element h o t tips) = length tips.
Proof. unfold restyle_element. by rewrite length_fmap. Qed.

Lemma restyle_element_text h o t tips tip :
  tip ∈ restyle_element h o t tips →
  ∃ tip0, tip0 ∈ tips ∧ textContent tip = textContent tip0.
Proof.
  unfold restyle_element. intros (tip0 & -> & Hin)%list_elem_of_fmap.
  exists tip0. split; [done|]. by case_decide.
Qed.

Lemma remove_element_length h tips :
  (length (remove_element h tips) ≤ length tips)%nat.
Proof. apply length_filter. Qed.

Lemma remove_element_elem h tips tip :
  tip ∈ remove_element h tips → tip ∈ tips.
Proof. unfold remove_element. by intros [_ ?]%list_elem_of_filter. Qed.

(** With at most one tooltip attached, [showTooltip] leaves exactly the
    one it creates. *)
Lemma showTooltip_tooltips text s :
  (length (tooltips s) ≤ 1)%nat →
  tooltips (showTooltip text s) =
  [ {| element := next_element s; textContent := text;
       opacity := "0"; transform := "translateY(10px)" |} ].
Proof.
  unfold showTooltip. destruct (tooltips s) as [|tip [|tip' tips]]; cbn.
  - done.
  - intros _. by rewrite decide_False by (intros H; by apply H).
  - lia.
Qed.

(** What every event preserves, [evs] being the events so far. *)
Lemma handle_inv ev evs s :
  (length (tooltips s) ≤ 1)%nat →
  (∀ tip text, tip ∈ tooltips s → last (shown evs) = Some text →
               textContent tip = text) →
  (length (tooltips (handle ev s)) ≤ 1)%nat ∧
  (∀ tip text, tip ∈ tooltips (handle ev s) →
               last (shown (evs ++ [ev])) = Some text →
               textContent tip = text).
Proof.
  intros Hlen Htext.
  assert (∀ ev', (∀ text, ev' ≠ MouseEnter (Some text)) ∨
                 (∃ text, ev' = MouseEnter (Some text) ∧ truthy text = false) →
                 shown (evs ++ [ev']) = shown evs) as Hquiet.
  { intros ev' Hev'. unfold shown. rewrite omap_app. cbn.
    destruct Hev' as [Hev'|(text & -> & ->)]; [|by rewrite app_nil_r].
    destruct ev' as [[text|]| | |]; try by rewrite app_nil_r.
    by destruct (Hev' text). }
  destruct ev as [[text|]| |h|h]; cbn [handle].
  - destruct (truthy text) eqn:Htruthy.
    + rewrite showTooltip_tooltips by done. split; [done|].
      intros tip text' ->%list_elem_of_singleton.
      unfold shown. rewrite omap_app. cbn. rewrite Htruthy, last_snoc.
      by intros [= <-].
    + split; [done|]. rewrite Hquiet by eauto. done.
  - split; [done|]. rewrite Hquiet by (by left). done.
  - rewrite Hquiet by (by left). unfold hideTooltip.
    destruct (head (tooltips s)) as [tip0|]; [|done]. cbn [tooltips].
    split; [by rewrite restyle_element_length|].
    intros tip text (tip1 & Hin & ->)%restyle_element_text. by apply Htext.
  - rewrite Hquiet by (by left). case_decide; [|done]. cbn [tooltips].
    split; [by rewrite restyle_element_length|].
    intros tip text (tip1 & Hin & ->)%restyle_element_text. by apply Htext.
  - rewrite Hquiet by (by left). case_decide; [|done]. cbn [tooltips].
    split; [pose proof (remove_element_length h (tooltips s)); lia|].
    intros tip text Hin%remove_element_elem. by apply Htext.
Qed.

Lemma tooltips_run_snoc evs ev s : run (evs ++ [ev]) s = handle ev (run evs s).
Proof. unfold run. by rewrite foldl_app. Qed.

Lemma run_inv evs s :
  (length (tooltips s) ≤ 1)%nat →
  (length (tooltips (run evs s)) ≤ 1)%nat ∧
  (∀ tip text, tip ∈ tooltips (run evs s) → last (shown evs) = Some text →
               textContent tip = text).
Proof.
  intros Hlen. induction evs as [|ev evs IH] using rev_ind.
  - split; [done|]. by intros tip text _ [=].
  - rewrite tooltips_run_snoc. destruct IH as [IH1 IH2]. by apply handle_inv.
Qed.

(** Whatever the pointer does and whenever the animation frames and the
    removal timers fire, a page that starts with at most one tooltip
    never has two, and a tooltip that is attached shows the text of the
    latest [showTooltip] call. *)
Theorem at_most_one_tooltip (evs : list Event) (s : State) :
  (length (tooltips s) ≤ 1)%nat →
  (length (tooltips (run evs s)) ≤ 1)%nat ∧
  (∀ tip text, tip ∈ tooltips (run evs s) → last (shown evs) = Some text →
               textContent tip = text).
Proof. apply run_inv. Qed.

Lemma at_most_one_tooltip_witness :
  (length (tooltips loaded) ≤ 1)%nat ∧
  (length (tooltips
     (run [MouseEnter (Some "Docker"); MouseLeave;
           MouseEnter (Some "Kubernetes"); Timeout 1%positive;
           Frame 2%positive] loaded)) ≤ 1)%nat.
Proof.
  split; [cbn; lia|].
  apply (at_most_one_tooltip
           [MouseEnter (Some "Docker"); MouseLeave;
            MouseEnter (Some "Kubernetes"); Timeout 1%positive;
            Frame 2%positive] loaded).
  cbn; lia.
Defined.

(** ** Removal timers that outlive their tooltip *)

Lemma restyle_element_element h o t tips tip :
  tip ∈ restyle_element h o t tips →
  ∃ tip0, tip0 ∈ tips ∧ element tip = element tip0.
Proof.
  unfold restyle_element. intros (tip0 & -> & Hin)%list_elem_of_fmap.
  exists tip0. split; [done|]. by case_decide.
Qed.

Lemma remove_first_elem h l x : x ∈ remove_first h l → x ∈ l.
Proof.
  induction l as [|y l IH]; cbn; [done|]. case_decide.
  - by right.
  - intros [->|Hx]%elem_of_cons; [by left | right; by apply IH].
Qed.

Lemma loaded_well_formed : well_formed loaded.
Proof. split; cbn; intros ? H; by apply elem_of_nil in H. Qed.

Lemma handle_well_formed ev s : well_formed s → well_formed (handle ev s).
Proof.
  intros [Hr Ht]. destruct ev as [[text|]| |h|h]; cbn [handle]; try done.
  - destruct (truthy text); [|done]. unfold showTooltip. split; cbn.
    + intros h Hh%Hr. lia.
    + intros tip [Hin| ->%list_elem_of_singleton]%elem_of_app; cbn; [|lia].
      assert (tip ∈ tooltips s) as Hin'%Ht; [|lia].
      destruct (head (tooltips s)); [|done]. by eapply remove_element_elem.
  - unfold hideTooltip. destruct (head (tooltips s)) as [tip0|] eqn:Hhead;
      [|done].
    split; cbn.
    + intros h [Hh| ->%list_elem_of_singleton]%elem_of_app; [by apply Hr|].
      apply Ht. destruct (tooltips s); [done|]. cbn in Hhead.
      injection Hhead as ->. by left.
    + intros tip (tip1 & Hin%Ht & ->)%restyle_element_element. done.
  - case_decide; [|done]. split; cbn; [done|].
    intros tip (tip1 & Hin%Ht & ->)%restyle_element_element. done.
  - case_decide; [|done]. split; cbn.
    + intros x Hx%remove_first_elem. by apply Hr.
    + intros tip Hin%remove_element_elem. by apply Ht.
Qed.

Lemma tooltips_run_well_formed evs s : well_formed s → well_formed (run evs s).
Proof.
  intros Hs. induction evs as [|ev evs IH] using rev_ind; [done|].
  rewrite tooltips_run_snoc. by apply handle_well_formed.
Qed.

(** A removal timer that was set before a tooltip was shown does not
    remove that tooltip when it fires: the timer holds on to the element
    it was set for, which [showTooltip] has detached already. *)
Theorem stale_removal_keeps_newer_tooltip
    (evs : list Event) (text : string) (h : positive) :
  let s := run evs loaded in
  h ∈ removals s →
  tooltips (handle (Timeout h) (showTooltip text s))
  = tooltips (showTooltip text s).
Proof.
  intros s Hh.
  destruct (tooltips_run_well_formed evs loaded loaded_well_formed) as [Hr _].
  destruct (run_inv evs loaded) as [Hlen _]; [cbn; lia|].
  fold s in Hr, Hlen. cbn [handle]. case_decide; [|done]. cbn [tooltips].
  rewrite showTooltip_tooltips by done.
  unfold remove_element. rewrite filter_cons, decide_True; [done|].
  cbn. specialize (Hr h Hh). lia.
Qed.

Lemma stale_removal_keeps_newer_tooltip_witness :
  1%positive ∈ removals (run [MouseEnter (Some "Docker"); MouseLeave] loaded) ∧
  textContent <$>
    tooltips (handle (Timeout 1%positive)
                (showTooltip "Kubernetes"
                   (run [MouseEnter (Some "Docker"); MouseLeave] loaded)))
  = ["Kubernetes"].
Proof.
  assert (1%positive
          ∈ removals (run [MouseEnter (Some "Docker"); MouseLeave] loaded))
    as H by (cbn; by left).
  split; [exact H|].
  rewrite (stale_removal_keeps_newer_tooltip
             [MouseEnter (Some "Docker"); MouseLeave] "Kubernetes" 1%positive H).
  reflexivity.
Defined.

End TooltipFacts.

Module PerformanceFacts.
Import PerformanceMonitor.

Lemma recorded_stays evs : ∀ s,
  firstInteraction s = true → run evs s = s.
Proof.
  induction evs as [|ev evs IH]; intros s Hs; [done|].
  cbn [run foldl]. fold (run evs (dispatch ev s)).
  assert (dispatch ev s = s) as ->.
  { unfold dispatch, recordInteraction. rewrite Hs. by case_decide. }
  by apply IH.
Qed.

(** From set-up on, [metrics.timeToFirstInteraction] is the time of the
    first click, key press or touch the document receives; no later event
    changes it, and events of other types never set it. *)
Theorem first_interaction_is_recorded_once (evs : list (string * Q)) :
  timeToFirstInteraction (run evs monitorUserInteractions)
  = snd <$> head (filter (λ ev, ev.1 ∈ interactions) evs).
Proof.
  induction evs as [|ev evs IH]; [done|].
  cbn [run foldl]. fold (run evs (dispatch ev monitorUserInteractions)).
  rewrite filter_cons. unfold dispatch.
  assert (ev.1 ∈ listeners monitorUserInteractions ↔ ev.1 ∈ interactions)
    as Hl by apply elem_of_list_to_set.
  destruct (decide (ev.1 ∈ interactions)) as [Hin|Hout].
  - rewrite decide_True by (by apply Hl).
    by rewrite recorded_stays.
  - rewrite decide_False by (by rewrite Hl). apply IH.
Qed.

End PerformanceFacts.
